(** * fetcher.js: a shallow embedding of the match-history exporter

    The script pages through a JSON endpoint, extracts key/value tables from
    the HTML fragment of every page, normalises labels and values, removes
    duplicates and serialises the result as CSV.  This file embeds the pure
    parts of [src/fetcher.js] as Rocq functions, the retry loop and the paging
    loop as functions over an explicit response oracle with an event trace,
    and proves the properties of the specification against them. *)

From Stdlib Require Import List NArith ZArith Bool Ascii String Lia.
From Stdlib Require Import Sorting.Sorted Permutation.
Import ListNotations.

Set Implicit Arguments.

(* ================================================================== *)
(** * JavaScript strings *)
(* ================================================================== *)

(** A JavaScript string is a sequence of UTF-16 code units.  Regular
    expressions without the [u] flag (all of them in the source) work on code
    units, so the embedding does too. *)
Definition jschar := N.
Definition jsstring := list jschar.

(** ASCII literals of the source, as code units. *)
Definition js (s : string) : jsstring := map N_of_ascii (list_ascii_of_string s).

Fixpoint jseqb (a b : jsstring) : bool :=
  match a, b with
  | [], [] => true
  | x :: a', y :: b' => N.eqb x y && jseqb a' b'
  | _, _ => false
  end.

Definition in_range (lo hi c : N) : bool := (N.leb lo c && N.leb c hi)%bool.

(** [\d] *)
Definition is_digit (c : jschar) : bool := in_range 48 57 c.

(** [\w] is [A-Za-z0-9_] (no [i]/[u] flag widening applies to it). *)
Definition is_word (c : jschar) : bool :=
  in_range 65 90 c || in_range 97 122 c || is_digit c || N.eqb c 95.

(** [\s], which is also what [String.prototype.trim] strips: WhiteSpace and
    LineTerminator of ECMA-262 (TAB, LF, VT, FF, CR, SP, NBSP, the Zs
    category, LS, PS and U+FEFF). *)
Definition is_space (c : jschar) : bool :=
  in_range 9 13 c || N.eqb c 32 || N.eqb c 160 || N.eqb c 5760 (* U+1680 *)
  || in_range 8192 8202 c (* U+2000..U+200A *)
  || N.eqb c 8232 || N.eqb c 8233 (* U+2028, U+2029 *)
  || N.eqb c 8239 (* U+202F *) || N.eqb c 8287 (* U+205F *)
  || N.eqb c 12288 (* U+3000 *) || N.eqb c 65279 (* U+FEFF *).

(** The separator class of [normalizeKey]: colon, en dash (U+2013), em
    dash (U+2014), hyphen, slash, backslash. *)
Definition is_separator (c : jschar) : bool :=
  N.eqb c 58 || N.eqb c 8211 || N.eqb c 8212 || N.eqb c 45 || N.eqb c 47
  || N.eqb c 92.

(** The class of the CSV escaper: double quote, comma, line feed. *)
Definition is_csv_special (c : jschar) : bool :=
  N.eqb c 34 || N.eqb c 44 || N.eqb c 10.

(** ASCII lower-casing of one code unit. *)
Definition lower_ascii (c : jschar) : jschar :=
  if in_range 65 90 c then (c + 32)%N else c.

(** [s.replace(/[class]/g, r)]: every code unit of the class is replaced. *)
Definition replace_each (p : jschar -> bool) (r : jsstring) (s : jsstring)
  : jsstring :=
  flat_map (fun c => if p c then r else [c]) s.

(** [s.replace(/[class]+/g, r)]: every maximal run of the class is replaced
    by one [r].  [in_run] says that the previous code unit was in the class. *)
Fixpoint replace_runs_from (p : jschar -> bool) (r : jsstring) (in_run : bool)
  (s : jsstring) : jsstring :=
  match s with
  | [] => []
  | c :: t =>
      if p c
      then (if in_run then [] else r) ++ replace_runs_from p r true t
      else c :: replace_runs_from p r false t
  end.

Definition replace_runs (p : jschar -> bool) (r s : jsstring) : jsstring :=
  replace_runs_from p r false s.

Fixpoint drop_while (p : jschar -> bool) (s : jsstring) : jsstring :=
  match s with
  | [] => []
  | c :: t => if p c then drop_while p t else s
  end.

(** [s.trim()] *)
Definition trim (s : jsstring) : jsstring :=
  rev (drop_while is_space (rev (drop_while is_space s))).

(** [s.startsWith(p)] *)
Fixpoint startsWith (p s : jsstring) : bool :=
  match p, s with
  | [], _ => true
  | x :: p', y :: s' => N.eqb x y && startsWith p' s'
  | _ :: _, [] => false
  end.

(** [/[class]/.test(s)] *)
Definition test_class (p : jschar -> bool) (s : jsstring) : bool := existsb p s.

(** [parts.join(sep)] *)
Fixpoint join (sep : jsstring) (parts : list jsstring) : jsstring :=
  match parts with
  | [] => []
  | [x] => x
  | x :: rest => x ++ sep ++ join sep rest
  end.

(* ================================================================== *)
(** * The JavaScript host *)
(* ================================================================== *)

(** What the script takes from the engine and cannot be written as a finite
    table here: IEEE numbers and their conversions, Unicode case mapping, the
    date parser (implementation-defined for non-ISO input), and the string
    forms of built-in objects. *)
Class Host : Type := {
  (** the Number type *)
  number : Type;
  (** [parseInt(s, 10)], called on strings matching [/^-?\d+$/] *)
  parseInt10 : jsstring -> number;
  (** [parseFloat(s)], called on strings matching [/^-?\d+\.\d+$/] *)
  parseFloat : jsstring -> number;
  (** [String(n)] *)
  Number_toString : number -> jsstring;
  (** [ToBoolean(n)]: false for zeros and NaN *)
  Number_toBoolean : number -> bool;
  (** [s.toLowerCase()] *)
  toLowerCase : jsstring -> jsstring;
  (** [new Date(s)]: [None] for an Invalid Date, otherwise the text that
      [toISOString()] gives for it *)
  Date_toISOString : jsstring -> option jsstring;
  (** values with [typeof v === 'object'] other than [null] *)
  object : Type;
  (** [Object.prototype] *)
  Object_prototype : object;
  (** [JSON.stringify(o)] *)
  JSON_stringify : object -> jsstring;
  (** [String(o)] *)
  Object_toString : object -> jsstring;
  (** [String(f)] of the built-in function named [f] *)
  Function_toString : jsstring -> jsstring
}.

(** The one fact about Unicode case mapping the proofs use: on strings made
    of ASCII and white-space code units, [toLowerCase] is ASCII lower-casing
    (white space has no case mapping, and the only context-sensitive rule,
    final sigma, needs a sigma). *)
Definition plain (c : jschar) : bool := N.ltb c 128 || is_space c.

Class HostLaws (H : Host) : Prop := {
  toLowerCase_plain :
    forall s, forallb plain s = true -> toLowerCase s = map lower_ascii s
}.

(** A host for running the model on examples: numbers are kept as their
    literal text, case mapping is ASCII only, no date parses. *)
Definition literal_host : Host := {|
  number := jsstring;
  parseInt10 := fun s => s;
  parseFloat := fun s => s;
  Number_toString := fun s => s;
  Number_toBoolean := fun s => negb (forallb (fun c => N.eqb c 48 || N.eqb c 45 || N.eqb c 46) s);
  toLowerCase := map lower_ascii;
  Date_toISOString := fun _ => None;
  object := unit;
  Object_prototype := tt;
  JSON_stringify := fun _ => js "{}";
  Object_toString := fun _ => js "[object Object]";
  Function_toString := fun f => js "function " ++ f ++ js "() { [native code] }"
|}.

(* ================================================================== *)
(** * Static tables *)
(* ================================================================== *)

(** [CANONICAL_MAP], lines 41-89, entry by entry. *)
Definition CANONICAL_MAP_entries : list (string * string) :=
  [ ("reached_conclusion", "reached_conclusion");
    ("type", "type");
    ("map_index", "map_index");
    ("match_creation_time", "match_creation_time");
    ("match_ip", "match_ip");
    ("match_port", "match_port");
    ("datacenter", "datacenter");
    ("match_size", "match_size");
    ("join_time", "join_time");
    ("party_id_at_join", "party_id_at_join");
    ("team_at_join", "team_at_join");
    ("ping_estimate_at_join", "ping_estimate_at_join");
    ("joined_after_match_start", "joined_after_match_start");
    ("time_in_queue", "time_in_queue");
    ("match_end_time", "match_end_time");
    ("season_id", "season_id");
    ("match_status", "match_status");
    ("match_duration", "match_duration");
    ("red_team_final_score", "red_team_final_score");
    ("blu_team_final_score", "blu_team_final_score");
    ("winning_team", "winning_team");
    ("game_mode", "game_mode");
    ("win_reason", "win_reason");
    ("match_flags", "match_flags");
    ("match_included_bots", "match_included_bots");
    ("time_left_match", "time_left_match");
    ("result_partyid", "result_partyid");
    ("result_team", "result_team");
    ("result_score", "result_score");
    ("result_ping", "result_ping");
    ("result_player_flags", "result_player_flags");
    ("result_displayed_rating", "result_displayed_rating");
    ("result_displayed_rating_change", "result_displayed_rating_change");
    ("result_rank", "result_rank");
    ("classes_played", "classes_played");
    ("kills", "kills");
    ("deaths", "deaths");
    ("damage", "damage");
    ("healing", "healing");
    ("support", "support");
    ("score_medal", "score_medal");
    ("kills_medal", "kills_medal");
    ("damage_medal", "damage_medal");
    ("healing_medal", "healing_medal");
    ("support_medal", "support_medal");
    ("leave_reason", "leave_reason");
    ("connection_time", "connection_time") ]%string.

(** [ORDERED_COLUMNS], lines 178-236. *)
Definition ORDERED_COLUMNS_names : list string :=
  [ "match_id";
    "match_title";
    "type";
    "season_id";
    "match_creation_time";
    "connection_time";
    "join_time";
    "joined_after_match_start";
    "time_in_queue";
    "match_end_time";
    "time_left_match";
    "game_mode";
    "map_index";
    "datacenter";
    "match_ip";
    "match_port";
    "match_size";
    "match_status";
    "match_duration";
    "match_flags";
    "match_included_bots";
    "red_team_final_score";
    "blu_team_final_score";
    "winning_team";
    "win_reason";
    "party_id_at_join";
    "team_at_join";
    "ping_estimate_at_join";
    "result_partyid";
    "result_team";
    "result_score";
    "result_ping";
    "result_player_flags";
    "result_displayed_rating";
    "result_displayed_rating_change";
    "result_rank";
    "classes_played";
    "kills";
    "deaths";
    "damage";
    "healing";
    "support";
    "score_medal";
    "kills_medal";
    "damage_medal";
    "healing_medal";
    "support_medal";
    "leave_reason" ]%string.

Definition ORDERED_COLUMNS : list jsstring := map js ORDERED_COLUMNS_names.

(** The function-valued properties of [Object.prototype], with the name of
    the function each holds.  Every object literal inherits them. *)
Definition Object_prototype_functions : list (string * string) :=
  [ ("constructor", "Object");
    ("__defineGetter__", "__defineGetter__");
    ("__defineSetter__", "__defineSetter__");
    ("hasOwnProperty", "hasOwnProperty");
    ("__lookupGetter__", "__lookupGetter__");
    ("__lookupSetter__", "__lookupSetter__");
    ("isPrototypeOf", "isPrototypeOf");
    ("propertyIsEnumerable", "propertyIsEnumerable");
    ("toString", "toString");
    ("valueOf", "valueOf");
    ("toLocaleString", "toLocaleString") ]%string.

(* ================================================================== *)
(** * Exceptions *)
(* ================================================================== *)

Inductive exn : Type :=
| RangeError                 (* toISOString() of an Invalid Date *)
| NetworkError               (* fetch() rejected *)
| SyntaxError                (* JSON.parse failed *)
| HttpError (status : Z)     (* new Error('HTTP ' + res.status) *)
| Unreachable.               (* new Error('unreachable') *)

Inductive result (A : Type) : Type :=
| Ok (a : A)
| Throw (e : exn).

Arguments Ok {A} a.
Arguments Throw {A} e.

Definition bind {A B : Type} (m : result A) (f : A -> result B) : result B :=
  match m with
  | Ok a => f a
  | Throw e => Throw e
  end.

Notation "x <- m ;; k" := (bind m (fun x => k))
  (at level 61, m at next level, right associativity).

(* ================================================================== *)
(** * Regular expressions of the source *)
(* ================================================================== *)

(** The optional [-?] at the start of both number patterns: what is left
    to match after it. *)
Definition after_minus (s : jsstring) : jsstring :=
  match s with
  | c :: t => if N.eqb c 45 then t else s
  | [] => s
  end.

(** [/^-?\d+$/.test(s)] *)
Definition matches_integer (s : jsstring) : bool :=
  let d := after_minus s in
  negb (jseqb d []) && forallb is_digit d.

Fixpoint take_while (p : jschar -> bool) (s : jsstring) : jsstring :=
  match s with
  | [] => []
  | c :: t => if p c then c :: take_while p t else []
  end.

(** [/^-?\d+\.\d+$/.test(s)] *)
Definition matches_decimal (s : jsstring) : bool :=
  let d := after_minus s in
  let int_part := take_while is_digit d in
  match drop_while is_digit d with
  | c :: frac =>
      N.eqb c 46 && negb (jseqb int_part []) && negb (jseqb frac [])
      && forallb is_digit frac
  | [] => false
  end.

(** [/(\d{4}-\d{2}-\d{2})[ T](\d{2}:\d{2}:\d{2})/] tried at the start of [s]:
    the two captured groups. *)
Definition date_pattern_here (s : jsstring) : option (jsstring * jsstring) :=
  match s with
  | y1 :: y2 :: y3 :: y4 :: h1 :: m1 :: m2 :: h2 :: d1 :: d2 :: sep
       :: hh1 :: hh2 :: c1 :: mm1 :: mm2 :: c2 :: ss1 :: ss2 :: _ =>
      if forallb is_digit [y1; y2; y3; y4; m1; m2; d1; d2]
         && forallb is_digit [hh1; hh2; mm1; mm2; ss1; ss2]
         && N.eqb h1 45 && N.eqb h2 45 && N.eqb c1 58 && N.eqb c2 58
         && (N.eqb sep 32 || N.eqb sep 84)
      then Some ([y1; y2; y3; y4; h1; m1; m2; h2; d1; d2],
                 [hh1; hh2; c1; mm1; mm2; c2; ss1; ss2])
      else None
  | _ => None
  end.

(** [s.match(...)] with that pattern: the leftmost match. *)
Fixpoint date_pattern_search (s : jsstring) : option (jsstring * jsstring) :=
  match date_pattern_here s with
  | Some m => Some m
  | None =>
      match s with
      | [] => None
      | _ :: t => date_pattern_search t
      end
  end.

(** [/Match\s*([0-9]+)/i] tried at the start of [s]: the captured digits.
    Under the [i] flag without [u] only the ASCII letters of either case
    match the letters of the pattern. *)
Definition header_pattern_here (s : jsstring) : option jsstring :=
  match s with
  | c1 :: c2 :: c3 :: c4 :: c5 :: rest =>
      if jseqb (map lower_ascii [c1; c2; c3; c4; c5]) (js "match")
      then match take_while is_digit (drop_while is_space rest) with
           | [] => None
           | digits => Some digits
           end
      else None
  | _ => None
  end.

(** [s.match(/Match\s*([0-9]+)/i)]: group 1 of the leftmost match. *)
Fixpoint header_pattern_search (s : jsstring) : option jsstring :=
  match header_pattern_here s with
  | Some d => Some d
  | None =>
      match s with
      | [] => None
      | _ :: t => header_pattern_search t
      end
  end.

(* ================================================================== *)
(** * The program *)
(* ================================================================== *)

Section Program.

Context {H : Host}.

(** ** Values and object literals *)

Inductive Value : Type :=
| VUndefined
| VNull
| VBool (b : bool)
| VNum (n : number)
| VStr (s : jsstring)
| VObject (o : object)
| VFunction (name : jsstring).

(** [ToBoolean(v)] *)
Definition truthy (v : Value) : bool :=
  match v with
  | VUndefined | VNull => false
  | VBool b => b
  | VNum n => Number_toBoolean n
  | VStr s => negb (jseqb s [])
  | VObject _ | VFunction _ => true
  end.

(** [String(v)], also the conversion of a computed property key and of the
    right operand of ['id:' + v]. *)
Definition ToString (v : Value) : jsstring :=
  match v with
  | VUndefined => js "undefined"
  | VNull => js "null"
  | VBool true => js "true"
  | VBool false => js "false"
  | VNum n => Number_toString n
  | VStr s => s
  | VObject o => Object_toString o
  | VFunction f => Function_toString f
  end.

(** An object created by an object literal: its own enumerable properties
    in creation order; its prototype is [Object.prototype]. *)
Definition jsobject := list (jsstring * Value).

Fixpoint own (o : jsobject) (k : jsstring) : option Value :=
  match o with
  | [] => None
  | (k', v) :: rest => if jseqb k' k then Some v else own rest k
  end.

Fixpoint assoc_string (l : list (string * string)) (k : jsstring)
  : option string :=
  match l with
  | [] => None
  | (k', v) :: rest => if jseqb (js k') k then Some v else assoc_string rest k
  end.

(** What [Object.prototype] answers for the property [k]: one of its
    functions, itself for the accessor [__proto__], or nothing. *)
Definition inherited (k : jsstring) : option Value :=
  match assoc_string Object_prototype_functions k with
  | Some f => Some (VFunction (js f))
  | None =>
      if jseqb k (js "__proto__") then Some (VObject Object_prototype)
      else None
  end.

(** [o[k]]: own property first, then the prototype chain. *)
Definition get (o : jsobject) (k : jsstring) : Value :=
  match own o k with
  | Some v => v
  | None =>
      match inherited k with
      | Some v => v
      | None => VUndefined
      end
  end.

(** [o[k] = v]: overwrite in place, or create at the end.  (The keys the
    program writes are never the accessor [__proto__].) *)
Fixpoint set (o : jsobject) (k : jsstring) (v : Value) : jsobject :=
  match o with
  | [] => [(k, v)]
  | (k', v') :: rest =>
      if jseqb k' k then (k', v) :: rest else (k', v') :: set rest k v
  end.

(** [Object.keys(o)] *)
Definition keys (o : jsobject) : list jsstring := map fst o.

(** ** Field normaliser *)

(** [normalizeKey(label)], lines 30-38.  [label || ''] is the identity on
    strings. *)
Definition normalizeKey (label : jsstring) : jsstring :=
  let s := replace_each (N.eqb 160) (js " ") label in
  let s := trim s in
  let s := replace_runs is_separator (js " ") s in
  let s := replace_each (fun c => negb (is_word c || is_space c)) [] s in
  let s := toLowerCase s in
  replace_runs is_space (js "_") s.

Definition CANONICAL_MAP : jsobject :=
  map (fun kv => (js (fst kv), VStr (js (snd kv)))) CANONICAL_MAP_entries.

(** [canonicalMap[keyNorm] || keyNorm], line 154. *)
Definition canonicalize (canonicalMap : jsobject) (keyNorm : jsstring)
  : Value :=
  let v := get canonicalMap keyNorm in
  if truthy v then v else VStr keyNorm.

(** ** Value parser *)

(** [tryParseNumber(s)], lines 91-95; [None] is [null]. *)
Definition tryParseNumber (s : jsstring) : option number :=
  if matches_integer s then Some (parseInt10 s)
  else if matches_decimal s then Some (parseFloat s)
  else None.

(** [tryParseDate(s)], lines 97-104; [None] is [null].  The second
    [toISOString()] is called without a validity check and throws on an
    Invalid Date. *)
Definition tryParseDate (s : jsstring) : result (option jsstring) :=
  if jseqb s [] || jseqb (trim s) [] then Ok None
  else
    match Date_toISOString s with
    | Some iso => Ok (Some iso)
    | None =>
        match date_pattern_search s with
        | Some (m1, m2) =>
            match Date_toISOString (m1 ++ js "T" ++ m2 ++ js "Z") with
            | Some iso => Ok (Some iso)
            | None => Throw RangeError
            end
        | None => Ok None
        end
    end.

Record ParseOpts : Type := {
  parseDates : bool;
  parseNumbers : bool
}.

(** [parseValue(raw, opts)], lines 106-122; [raw = None] is [null] or
    [undefined]. *)
Definition parseValue (raw : option jsstring) (opts : ParseOpts)
  : result Value :=
  match raw with
  | None => Ok VNull
  | Some r =>
      let s := trim r in
      if jseqb s [] then Ok VNull
      else
        let low := toLowerCase s in
        if jseqb low (js "yes") then Ok (VBool true)
        else if jseqb low (js "no") then Ok (VBool false)
        else
          match (if parseNumbers opts then tryParseNumber s else None) with
          | Some n => Ok (VNum n)
          | None =>
              if parseDates opts
              then iso <- tryParseDate s ;;
                   match iso with
                   | Some (c :: i) => Ok (VStr (c :: i))
                   | _ => Ok (VStr s)
                   end
              else Ok (VStr s)
          end
  end.

(** ** Record extractor *)

(** The document tree is an external capability.  Of a [table] element the
    program reads the text of its first [th] (if any) and, for every [tr],
    the texts of its [td] cells - nothing else. *)
Record Table : Type := {
  th : option jsstring;
  trs : list (list jsstring)
}.

(** The body of the [forEach] over the rows, lines 148-156, threaded over
    the rows in document order.  A row without exactly two cells is
    skipped. *)
Fixpoint parseRows (opts : ParseOpts) (rows : list (list jsstring))
  (out : jsobject) : result jsobject :=
  match rows with
  | [] => Ok out
  | cells :: rest =>
      match cells with
      | [c0; c1] =>
          let rawKey := trim c0 in
          let rawVal := trim c1 in
          let keyNorm := normalizeKey rawKey in
          let keyCanon := canonicalize CANONICAL_MAP keyNorm in
          v <- parseValue (Some rawVal) opts ;;
          parseRows opts rest (set out (ToString keyCanon) v)
      | _ => parseRows opts rest out
      end
  end.

(** [parseMatchHtml(html, opts)], lines 125-159.  [table] is what
    [querySelector] finds in the parsed fragment; [None] is [null] on both
    sides. *)
Definition parseMatchHtml (table : option Table) (opts : ParseOpts)
  : result (option jsobject) :=
  match table with
  | None => Ok None
  | Some t =>
      let out :=
        match th t with
        | Some text =>
            let header := trim text in
            match header_pattern_search header with
            | Some m1 => set [] (js "match_id") (VStr m1)
            | None => set [] (js "match_title") (VStr header)
            end
        | None => []
        end in
      out' <- parseRows opts (trs t) out ;;
      Ok (Some out')
  end.

(** One element of the array [extractTablesFromHtml] returns.  The field
    [html] stands for [t.outerHTML] and holds the table that parsing it
    again yields; the model takes that to be the table the extractor read,
    which is so whenever printing and parsing again keep the cells and the
    header text of the table. *)
Record Block : Type := {
  id : option jsstring;
  html : Table
}.

(** [extractTablesFromHtml(bigHtml)], lines 162-175, on the tables the two
    [querySelectorAll] calls select. *)
Definition extractTablesFromHtml (tables : list Table) : list Block :=
  map (fun t =>
         {| id := match th t with
                  | Some text => header_pattern_search text
                  | None => None
                  end;
            html := t |}) tables.

(** ** Deduplicating aggregator *)

Record Aggregate : Type := {
  results : list jsobject;
  seen : list jsstring
}.

Definition Set_has (s : list jsstring) (k : jsstring) : bool :=
  existsb (jseqb k) s.

Definition Set_add (s : list jsstring) (k : jsstring) : list jsstring :=
  if Set_has s k then s else s ++ [k].

(** The identity key of line 377. *)
Definition dedupe_key (dedupe : bool) (parsed : jsobject) : jsstring :=
  if dedupe && truthy (get parsed (js "match_id"))
  then js "id:" ++ ToString (get parsed (js "match_id"))
  else [].

(** Line 376: the header id fills in a missing (falsy) [match_id]. *)
Definition inject_id (t_id : option jsstring) (parsed : jsobject) : jsobject :=
  match t_id with
  | Some (c :: i) =>
      if truthy (get parsed (js "match_id")) then parsed
      else set parsed (js "match_id") (VStr (c :: i))
  | _ => parsed
  end.

(** Lines 376-381 for one parsed record: the new state and whether the
    record was pushed. *)
Definition admit_record (dedupe : bool) (t_id : option jsstring) (parsed : jsobject)
  (a : Aggregate) : Aggregate * bool :=
  let parsed := inject_id t_id parsed in
  let key := dedupe_key dedupe parsed in
  if negb (jseqb key []) && Set_has (seen a) key then (a, false)
  else
    ({| results := results a ++ [parsed];
        seen := if negb (jseqb key []) then Set_add (seen a) key else seen a |},
     true).

(** The [for (const t of tables)] loop, lines 370-382. *)
Fixpoint aggregate (dedupe : bool) (opts : ParseOpts) (tables : list Block)
  (a : Aggregate) : result Aggregate :=
  match tables with
  | [] => Ok a
  | t :: rest =>
      parsed <- parseMatchHtml (Some (html t)) opts ;;
      match parsed with
      | None => aggregate dedupe opts rest a
      | Some r => aggregate dedupe opts rest (fst (admit_record dedupe (id t) r a))
      end
  end.

(** ** Tabular serialiser *)

(** The order of the default [Array.prototype.sort]: strings compared code
    unit by code unit. *)
Fixpoint js_ltb (a b : jsstring) : bool :=
  match a, b with
  | _, [] => false
  | [], _ :: _ => true
  | x :: a', y :: b' => N.ltb x y || (N.eqb x y && js_ltb a' b')
  end.

Fixpoint insert_sorted (k : jsstring) (l : list jsstring) : list jsstring :=
  match l with
  | [] => [k]
  | x :: rest => if js_ltb x k then x :: insert_sorted k rest else k :: l
  end.

(** [a.sort()] on an array of strings. *)
Definition sort (l : list jsstring) : list jsstring :=
  fold_right insert_sorted [] l.

(** Lines 243-247: the keys of every row that are neither fixed columns nor
    start with an underscore, collected into a [Set]. *)
Definition collect_extras (known : list jsstring) (rows : list jsobject)
  : list jsstring :=
  fold_left
    (fun extrasSet r =>
       fold_left
         (fun extrasSet k =>
            if negb (Set_has known k) && negb (startsWith (js "_") k)
            then Set_add extrasSet k else extrasSet)
         (keys r) extrasSet)
    rows [].

(** The string the escaper works on, line 253. *)
Definition stringify (v : Value) : jsstring :=
  match v with
  | VObject o => JSON_stringify o
  | _ => ToString v
  end.

(** The double quote and the line feed, as strings. *)
Definition dquote : jsstring := [34%N].
Definition newline : jsstring := [10%N].

(** Wrap in double quotes, doubling every double quote inside. *)
Definition quote_field (s : jsstring) : jsstring :=
  dquote ++ replace_each (N.eqb 34) (dquote ++ dquote) s ++ dquote.

(** [esc(v)], lines 251-255. *)
Definition esc (v : Value) : jsstring :=
  match v with
  | VNull | VUndefined => []
  | _ =>
      let s := stringify v in
      if test_class is_csv_special s then quote_field s else s
  end.

Record Csv : Type := {
  csv : jsstring;
  headers : list jsstring
}.

(** [buildCsv(rows, fixedOrder, verbose)], lines 238-266. *)
Definition buildCsv (rows : list jsobject) (fixedOrder : list jsstring) : Csv :=
  let fixed := fixedOrder in
  let extras := sort (collect_extras fixed rows) in
  let headers := fixed ++ extras in
  {| csv :=
       join (js ",") headers ++ newline
       ++ List.concat
            (map (fun row =>
                    join (js ",") (map (fun h => esc (get row h)) headers)
                    ++ newline)
               rows);
     headers := headers |}.

(** ** Paginated fetcher *)

(** The decoded body of a page: [json.success] (its truthiness), the tables
    the selectors of [extractTablesFromHtml] find in [json.html], and
    [json.continue_token]. *)
Record PageJson : Type := {
  success : bool;
  json_html : list Table;
  continue_token : option jsstring
}.

(** What [JSON.parse] returned: an object, or a value without properties
    ([null], a number, a boolean, a string). *)
Inductive Json : Type :=
| JPrimitive
| JObject (p : PageJson).

(** What one call of [fetch] does: it rejects, or it resolves to a response
    with a status and a body; [body = None] is a body that [JSON.parse]
    rejects. *)
Inductive FetchOutcome : Type :=
| Rejected
| Responded (status : Z) (body : option Json).

(** The observable effects, in order. *)
Inductive Event : Type :=
| Fetch (token : option jsstring)   (* a request, with its continue_token *)
| Wait (ms : Z).                    (* await wait(ms) *)

(** The world outside: how many requests were made, and the effects so
    far.  The network is an oracle [fetch : nat -> FetchOutcome] answering
    the [n]-th request of the run. *)
Record World : Type := {
  calls : nat;
  trace : list Event
}.

Definition do_wait (ms : Z) (w : World) : World :=
  {| calls := calls w; trace := trace w ++ [Wait ms] |}.

Definition do_fetch (token : option jsstring) (w : World) : World :=
  {| calls := S (calls w); trace := trace w ++ [Fetch token] |}.

Definition maxRetries : Z := 5.
Definition retryBaseDelay : Z := 1000.

(** [res.ok] *)
Definition res_ok (status : Z) : bool := (200 <=? status)%Z && (status <=? 299)%Z.

(** The [while (attempt <= maxRetries)] loop of [safeFetch], lines 317-350.
    [None] means the fuel ran out before the loop ended. *)
Fixpoint safeFetch_loop (fetch : nat -> FetchOutcome) (token : option jsstring)
  (fuel : nat) (attempt : Z) (w : World) : option (result Json * World) :=
  match fuel with
  | O => None
  | S fuel' =>
      if (attempt <=? maxRetries)%Z then
        let w1 := do_fetch token w in
        let catch (err : exn) :=
          let attempt := (attempt + 1)%Z in
          if (attempt >? maxRetries)%Z then Some (Throw err, w1)
          else
            let backoff := (retryBaseDelay * 2 ^ (attempt - 1))%Z in
            safeFetch_loop fetch token fuel' attempt (do_wait backoff w1) in
        match fetch (calls w) with
        | Rejected => catch NetworkError
        | Responded status body =>
            if res_ok status then
              match body with
              | Some json => Some (Ok json, w1)
              | None => catch SyntaxError
              end
            else if (status =? 429)%Z || (status =? 503)%Z then
              let backoff := (retryBaseDelay * 2 ^ attempt)%Z in
              safeFetch_loop fetch token fuel' (attempt + 1)%Z
                (do_wait backoff w1)
            else catch (HttpError status)
        end
      else Some (Throw Unreachable, w)
  end.

(** [safeFetch(urlStr)], lines 313-351.  [attempt] grows by one in every
    iteration, so seven rounds of fuel are enough (see
    [safeFetch_terminates]). *)
Definition safeFetch (fetch : nat -> FetchOutcome) (token : option jsstring)
  (w : World) : option (result Json * World) :=
  safeFetch_loop fetch token 7 0%Z w.

Record Config : Type := {
  delay : Z;
  maxPages : Z;
  dedupe : bool;
  parse : ParseOpts   (* cfg.parseDates, cfg.parseNumbers *)
}.

(** The variables of the paging loop, lines 308-311. *)
Record LoopState : Type := {
  agg : Aggregate;          (* results, seen *)
  token : option jsstring;
  page : Z
}.

Definition initial : LoopState :=
  {| agg := {| results := []; seen := [] |}; token := None; page := 0%Z |}.

Inductive Control : Type :=
| Continue (st : LoopState)
| Break (st : LoopState).

(** [json.continue_token || null] *)
Definition token_or_null (t : option jsstring) : option jsstring :=
  match t with
  | Some (c :: s) => Some (c :: s)
  | _ => None
  end.

(** [newToken === token] *)
Definition token_eqb (a b : option jsstring) : bool :=
  match a, b with
  | None, None => true
  | Some x, Some y => jseqb x y
  | _, _ => false
  end.

(** One round of the [while (page < cfg.maxPages)] loop, lines 354-403. *)
Definition page_round (fetch : nat -> FetchOutcome) (cfg : Config)
  (st : LoopState) (w : World) : option (result Control * World) :=
  let st := {| agg := agg st; token := token st; page := (page st + 1)%Z |} in
  match safeFetch fetch (token_or_null (token st)) w with
  | None => None
  | Some (Throw e, w') => Some (Throw e, w')
  | Some (Ok JPrimitive, w') => Some (Ok (Break st), w')
  | Some (Ok (JObject json), w') =>
      if negb (success json) then Some (Ok (Break st), w')
      else
        let tables := extractTablesFromHtml (json_html json) in
        match aggregate (dedupe cfg) (parse cfg) tables (agg st) with
        | Throw e => Some (Throw e, w')
        | Ok a =>
            let st := {| agg := a; token := token st; page := page st |} in
            let newToken := token_or_null (continue_token json) in
            match newToken with
            | None => Some (Ok (Break st), w')
            | Some _ =>
                if token_eqb newToken (token st) then Some (Ok (Break st), w')
                else
                  Some (Ok (Continue
                              {| agg := a; token := newToken; page := page st |}),
                        do_wait (delay cfg) w')
            end
        end
  end.

(** The paging loop.  [None] means the fuel ran out. *)
Fixpoint paging (fetch : nat -> FetchOutcome) (cfg : Config) (fuel : nat)
  (st : LoopState) (w : World) : option (result LoopState * World) :=
  match fuel with
  | O => None
  | S fuel' =>
      if (page st <? maxPages cfg)%Z then
        match page_round fetch cfg st w with
        | None => None
        | Some (Throw e, w') => Some (Throw e, w')
        | Some (Ok (Break st'), w') => Some (Ok st', w')
        | Some (Ok (Continue st'), w') => paging fetch cfg fuel' st' w'
        end
      else Some (Ok st, w)
  end.

(** The summary [gcpdFetchAndParseAll] resolves to, with the CSV text it
    hands to the download. *)
Record Summary : Type := {
  pages : Z;
  matches : nat;
  columns : nat;
  download : jsstring
}.

(** [gcpdFetchAndParseAll(opts)], lines 269-421, from the first round on.
    The page counter starts at 0 and grows by one per round, so
    [maxPages + 1] rounds of fuel are enough (see [paging_terminates]). *)
Definition gcpdFetchAndParseAll (fetch : nat -> FetchOutcome) (cfg : Config)
  : option (result Summary * World) :=
  match paging fetch cfg (S (Z.to_nat (maxPages cfg))) initial
          {| calls := 0; trace := [] |} with
  | None => None
  | Some (Throw e, w) => Some (Throw e, w)
  | Some (Ok st, w) =>
      let out := buildCsv (results (agg st)) ORDERED_COLUMNS in
      Some (Ok {| pages := page st;
                  matches := List.length (results (agg st));
                  columns := List.length (headers out);
                  download := csv out |}, w)
  end.

End Program.

(* ================================================================== *)
(** * Reference notions of the specification *)
(* ================================================================== *)

(** The specification's optional-sign integer pattern, read with either
    sign: [/^[+-]?\d+$/].  Compare [matches_integer], which is the pattern of
    the source. *)
Definition optional_sign_integer (s : jsstring) : bool :=
  let d := match s with
           | c :: t => if N.eqb c 43 || N.eqb c 45 then t else s
           | [] => s
           end in
  negb (jseqb d []) && forallb is_digit d.

(** A standard CSV reader on the inside of a quoted field (RFC 4180): a
    doubled double quote stands for one, a single one ends the field, and
    nothing may follow it. *)
Fixpoint unquote_body (s : jsstring) : option jsstring :=
  match s with
  | [] => None
  | c :: t =>
      if N.eqb c 34 then
        match t with
        | [] => Some []
        | c' :: t' =>
            if N.eqb c' 34 then option_map (cons c') (unquote_body t')
            else None
        end
      else option_map (cons c) (unquote_body t)
  end.

(** The reader on one field: a field that starts with a double quote is
    quoted, any other field is taken as it is. *)
Definition csv_unescape (field : jsstring) : option jsstring :=
  match field with
  | [] => Some []
  | c :: t => if N.eqb c 34 then unquote_body t else Some field
  end.

(** The code units [normalizeKey] can return: [a-z0-9_]. *)
Definition is_key_char (c : jschar) : bool :=
  in_range 97 122 c || is_digit c || N.eqb c 95.

(* ================================================================== *)
(** * Notions used in the statements *)
(* ================================================================== *)

(** The code units of a string that matches one of the two number
    patterns: digits, minus, full stop. *)
Definition is_numeric_char (c : jschar) : bool :=
  is_digit c || N.eqb c 45 || N.eqb c 46.

(** An entry of the canonical map is sound when it maps a non-empty key to
    itself. *)
Definition entry_ok (e : string * string) : bool :=
  String.eqb (fst e) (snd e) && negb (jseqb (js (fst e)) []).

(** The names [Object.prototype] answers to. *)
Definition inherited_names : list string :=
  map fst Object_prototype_functions ++ ["__proto__"%string].

(** Strictly ascending in the order of [Array.prototype.sort]. *)
Definition js_lt (a b : jsstring) : Prop := js_ltb a b = true.

(** The test of line 245. *)
Definition is_extra (known : list jsstring) (k : jsstring) : bool :=
  negb (Set_has known k) && negb (startsWith (js "_") k).

Definition add_extra (known : list jsstring) (extrasSet : list jsstring)
  (k : jsstring) : list jsstring :=
  if is_extra known k then Set_add extrasSet k else extrasSet.

(** A 429 or 503 response. *)
Definition throttled (o : FetchOutcome) : bool :=
  match o with
  | Responded status _ => (status =? 429)%Z || (status =? 503)%Z
  | Rejected => false
  end.

(** The requests and waits of [k] failed attempts in a row, the first of
    them being attempt number [from]. *)
Fixpoint backoff_trace (token : option jsstring) (from : Z) (k : nat)
  : list Event :=
  match k with
  | O => []
  | S k' =>
      Fetch token :: Wait (retryBaseDelay * 2 ^ from)
        :: backoff_trace token (from + 1) k'
  end.

(** A page delivered at the first attempt. *)
Definition ok_page (p : PageJson) : FetchOutcome :=
  Responded 200 (Some (JObject p)).

(** The world before the first request. *)
Definition start : World := {| calls := 0; trace := [] |}.

(** A key that is not the empty string. *)
Definition has_key (k : jsstring) : bool := negb (jseqb k []).

Section Notions.

Context {H : Host}.

(** The tables of the page parse: no cell makes [toISOString] throw. *)
Definition parses (cfg : Config) (p : PageJson) : Prop :=
  forall a, exists a',
    aggregate (dedupe cfg) (parse cfg) (extractTablesFromHtml (json_html p)) a
    = Ok a'.

(** The identity keys of the admitted records, in order. *)
Definition identities (rs : list jsobject) : list jsstring :=
  filter has_key (map (dedupe_key true) rs).

(** The invariant of the aggregation loop under [dedupe]: no identity key
    occurs twice among the results, and every one of them is in [seen]. *)
Definition distinct_ids (a : Aggregate) : Prop :=
  NoDup (identities (results a))
  /\ (forall r, In r (results a) -> dedupe_key true r <> [] ->
                In (dedupe_key true r) (seen a)).

End Notions.

(** ** Inputs for running the model *)

Definition default_cfg : Config :=
  {| delay := 100; maxPages := 2000; dedupe := true;
     parse := {| parseDates := true; parseNumbers := true |} |}.

(** A page with one table headed Match 100 and one data row. *)
Definition sample_page (tok : option jsstring) : PageJson :=
  {| success := true;
     json_html := [ {| th := Some (js "Match 100");
                       trs := [[js "Kills"; js "12"]] |} ];
     continue_token := tok |}.

(** The service answers with token a, then with token b for ever. *)
Definition stalling_service (n : nat) : FetchOutcome :=
  match n with
  | O => ok_page (sample_page (Some (js "a")))
  | _ => ok_page (sample_page (Some (js "b")))
  end.

(* ================================================================== *)
(** * Measures of a run *)
(* ================================================================== *)

(** A request that does not deliver a page: the fetch rejects, the status
    is not 2xx, or the body is not JSON. *)
Definition failed (o : FetchOutcome) : bool :=
  match o with
  | Rejected => true
  | Responded status body =>
      negb (res_ok status) || match body with Some _ => false | None => true end
  end.

(** The time spent in [wait], in ms. *)
Fixpoint total_wait (tr : list Event) : Z :=
  match tr with
  | [] => 0
  | Wait ms :: rest => ms + total_wait rest
  | Fetch _ :: rest => total_wait rest
  end.

(** A row with exactly two cells whose value cell makes [parseValue]
    throw. *)
Definition bad_row {H : Host} (opts : ParseOpts) (cells : list jsstring) : Prop :=
  exists c0 c1 e,
    cells = [c0; c1] /\ parseValue (Some (trim c1)) opts = Throw e.

(* ================================================================== *)
(** * A reader for the exported text *)
(* ================================================================== *)

(** A standard CSV reader (RFC 4180, with the usual tolerance for line
    ends), as a state machine over the text.  Outside quotes a record ends
    at a line feed, at a carriage return, or at a carriage return with the
    line feed that follows it; inside quotes both are data.  [field] is the
    current field and [row] the current record, both in reverse.  A double
    quote inside an unquoted field, text after a closing quote and an
    unclosed quote are errors. *)
Inductive csv_state : Type :=
| FieldStart
| InPlain
| InQuoted
| AfterQuote
| AfterCR.

Fixpoint csv_read (st : csv_state) (field : jsstring) (row : list jsstring)
  (s : jsstring) : option (list (list jsstring)) :=
  match s with
  | [] =>
      match st with
      | InQuoted => None
      | FieldStart | AfterCR =>
          match row with
          | [] => Some []
          | _ => Some [rev ([] :: row)]
          end
      | InPlain | AfterQuote => Some [rev (rev field :: row)]
      end
  | c :: t =>
      match st with
      | InQuoted =>
          if N.eqb c 34 then csv_read AfterQuote field row t
          else csv_read InQuoted (c :: field) row t
      | AfterQuote =>
          if N.eqb c 34 then csv_read InQuoted (c :: field) row t
          else if N.eqb c 44 then csv_read FieldStart [] (rev field :: row) t
          else if N.eqb c 10 then
            option_map (cons (rev (rev field :: row)))
              (csv_read FieldStart [] [] t)
          else if N.eqb c 13 then
            option_map (cons (rev (rev field :: row)))
              (csv_read AfterCR [] [] t)
          else None
      | FieldStart | InPlain | AfterCR =>
          if N.eqb c 44 then csv_read FieldStart [] (rev field :: row) t
          else if N.eqb c 10 then
            match st with
            | AfterCR => csv_read FieldStart [] [] t
            | _ =>
                option_map (cons (rev (rev field :: row)))
                  (csv_read FieldStart [] [] t)
            end
          else if N.eqb c 13 then
            option_map (cons (rev (rev field :: row)))
              (csv_read AfterCR [] [] t)
          else if N.eqb c 34 then
            match st with
            | InPlain => None
            | _ => csv_read InQuoted [] row t
            end
          else csv_read InPlain (c :: field) row t
      end
  end.

Definition read_csv (s : jsstring) : option (list (list jsstring)) :=
  csv_read FieldStart [] [] s.

(** How the escaper writes a text. *)
Definition field_text (f : jsstring) : jsstring :=
  if test_class is_csv_special f then quote_field f else f.

(** A carriage return. *)
Definition is_cr (c : jschar) : bool := N.eqb c 13.

(** The text has no carriage return that the escaper would leave outside
    quotes: it has none at all, or it is quoted for another character. *)
Definition no_bare_cr (f : jsstring) : bool :=
  test_class is_csv_special f || negb (test_class is_cr f).

(** What the reader does at the comma or line feed [c] that ends the field
    [f]. *)
Definition end_of_field (f : jsstring) (row : list jsstring) (c : jschar)
  (t : jsstring) : option (list (list jsstring)) :=
  if N.eqb c 44 then csv_read FieldStart [] (f :: row) t
  else option_map (cons (rev (f :: row))) (csv_read FieldStart [] [] t).

(** No two equal strings in the list. *)
Fixpoint distinctb (l : list jsstring) : bool :=
  match l with
  | [] => true
  | x :: rest => negb (Set_has rest x) && distinctb rest
  end.

Section CellText.

Context {H : Host}.

(** The text a cell stands for: nothing for [null] and a missing value, the
    stringified value otherwise. *)
Definition text_of (v : Value) : jsstring :=
  match v with
  | VNull | VUndefined => []
  | _ => stringify v
  end.

End CellText.

(* ================================================================== *)
(** * The name of the download *)
(* ================================================================== *)



(* ================================================================== *)
(** * The session id *)
(* ================================================================== *)

(** [[^;]] *)
Definition not_semicolon (c : jschar) : bool := negb (N.eqb c 59).

(** [sessionid=([^;]+)] tried at the start of [s]: the captured value. *)
Definition sessionid_value_here (s : jsstring) : option jsstring :=
  if startsWith (js "sessionid=") s then
    match take_while not_semicolon (skipn 10 s) with
    | [] => None
    | v => Some v
    end
  else None.

(** The alternative [; ] of the pattern, tried at every position from the
    left. *)
Fixpoint sessionid_after_separator (s : jsstring) : option jsstring :=
  match s with
  | [] => None
  | c :: t =>
      match (if N.eqb c 59 then
               match t with
               | c' :: t' =>
                   if N.eqb c' 32 then sessionid_value_here t' else None
               | [] => None
               end
             else None) with
      | Some v => Some v
      | None => sessionid_after_separator t
      end
  end.

(** [document.cookie.match(/(?:^|; )sessionid=([^;]+)/)]: group 1 of the
    leftmost match. *)
Definition cookie_match (cookie : jsstring) : option jsstring :=
  match sessionid_value_here cookie with
  | Some v => Some v
  | None => sessionid_after_separator cookie
  end.

(** [getSessionID()], lines 22-27.  [g_sessionID] is [window.g_sessionID]
    when it is defined and truthy, [cookie] is [document.cookie], and
    [decode] is [decodeURIComponent], which throws on a malformed escape. *)
Definition getSessionID (g_sessionID : option jsstring) (cookie : jsstring)
  (decode : jsstring -> result jsstring) : result (option jsstring) :=
  match g_sessionID with
  | Some (c :: s) => Ok (Some (c :: s))
  | _ =>
      match cookie_match cookie with
      | Some m => v <- decode m ;; Ok (Some v)
      | None => Ok None
      end
  end.

(** What follows a cookie in the string: nothing, or a semicolon. *)
Definition ends_entry (rest : jsstring) : bool :=
  match rest with
  | [] => true
  | c :: _ => N.eqb c 59
  end.

(** A cookie jar as the browser prints it: [name=value] pairs joined by a
    semicolon and a space. *)
Definition cookie_string (jar : list (jsstring * jsstring)) : jsstring :=
  join (js "; ") (map (fun p => fst p ++ js "=" ++ snd p) jar).

(** Names hold no semicolon and no equals sign, values no semicolon. *)
Definition cookie_ok (p : jsstring * jsstring) : bool :=
  forallb (fun c => negb (N.eqb c 59) && negb (N.eqb c 61)) (fst p)
  && forallb not_semicolon (snd p).

(** The first cookie named [sessionid] with a non-empty value. *)
Fixpoint first_sessionid (jar : list (jsstring * jsstring)) : option jsstring :=
  match jar with
  | [] => None
  | (n, v) :: rest =>
      if jseqb n (js "sessionid") && negb (jseqb v []) then Some v
      else first_sessionid rest
  end.

(* ================================================================== *)
(** * The keys of a record *)
(* ================================================================== *)

Section KeyNotions.

Context {H : Host}.

(** Where a key of a record comes from: the header, or the label of a
    two-cell row. *)
Definition key_origin (t : Table) (k : jsstring) : Prop :=
  k = js "match_id" \/ k = js "match_title"
  \/ exists c0 c1, In [c0; c1] (trs t) /\ k = normalizeKey (trim c0).

(** No label of the table normalises to a name that [Object.prototype]
    answers to. *)
Definition plain_labels (rows : list (list jsstring)) : Prop :=
  forall c0 c1, In [c0; c1] rows ->
                normalizeKey (trim c0) <> js "constructor"
                /\ normalizeKey (trim c0) <> js "__proto__".

(** The property name under which line 155 stores the row labelled
    [c0]. *)
Definition field_name (c0 : jsstring) : jsstring :=
  ToString (canonicalize CANONICAL_MAP (normalizeKey (trim c0))).

(** The record as the header leaves it, lines 138-146, before the rows are
    read. *)
Definition header_record (t : Table) : jsobject :=
  match th t with
  | Some text =>
      match header_pattern_search (trim text) with
      | Some m1 => set [] (js "match_id") (VStr m1)
      | None => set [] (js "match_title") (VStr (trim text))
      end
  | None => []
  end.

End KeyNotions.

(* ================================================================== *)
(** * More inputs for running the model *)
(* ================================================================== *)

(** The service rejects the first request, answers 500 to the second and
    delivers a last page to the third. *)
Definition flaky_service (n : nat) : FetchOutcome :=
  match n with
  | 0 => Rejected
  | 1 => Responded 500 None
  | _ => ok_page (sample_page None)
  end.


(** A text with a date-and-time pattern that is no date. *)
Definition bad_date : jsstring := js "2024-13-45 99:99:99".

(** A page whose only table has a cell holding [bad_date]. *)
Definition bad_page : PageJson :=
  {| success := true;
     json_html := [ {| th := Some (js "Match 7");
                       trs := [[js "Created"; bad_date]] |} ];
     continue_token := None |}.

(** [bad_page] with the continuation token b. *)
Definition bad_page_repeating : PageJson :=
  {| success := true;
     json_html := json_html bad_page;
     continue_token := Some (js "b") |}.

(** The service answers with token a, then with token b, then with token b
    again on a page that holds [bad_date]. *)
Definition stalling_bad_service (n : nat) : FetchOutcome :=
  match n with
  | 0 => ok_page (sample_page (Some (js "a")))
  | 1 => ok_page (sample_page (Some (js "b")))
  | _ => ok_page bad_page_repeating
  end.

(** A table headed Match 100 with two rows labelled Kills and a row
    labelled Match ID. *)
Definition twice_table : Table :=
  {| th := Some (js "Match 100");
     trs := [[js "Kills"; js "3"]; [js "Kills"; js "12"];
             [js "Match ID"; js "No"]] |}.

(** Two records, one with a value that needs quoting and one with a
    [null]. *)
Definition sample_rows : list (@jsobject literal_host) :=
  [ [(js "match_id", VStr (js "100")); (js "note", VStr (js "a,b"))];
    [(js "match_id", VStr (js "101")); (js "note", VNull)] ].

(** Three cookies; the second has a name that only ends in sessionid. *)
Definition sample_jar : list (jsstring * jsstring) :=
  [ (js "_ga", js "GA1.2"); (js "xsessionid", js "nope");
    (js "sessionid", js "abc123") ].

(* ================================================================== *)
(** * Facts about strings *)
(* ================================================================== *)

Ltac bool_hyps :=
  repeat match goal with
    | H : (_ && _)%bool = true |- _ => apply andb_true_iff in H; destruct H
    | H : (_ || _)%bool = false |- _ => apply orb_false_iff in H; destruct H
    | H : negb _ = true |- _ => apply negb_true_iff in H
    | H : negb _ = false |- _ => apply negb_false_iff in H
    | H : N.leb _ _ = true |- _ => apply N.leb_le in H
    | H : N.leb _ _ = false |- _ => apply N.leb_gt in H
    | H : N.ltb _ _ = true |- _ => apply N.ltb_lt in H
    | H : N.ltb _ _ = false |- _ => apply N.ltb_ge in H
    | H : N.eqb _ _ = true |- _ => apply N.eqb_eq in H
    | H : N.eqb _ _ = false |- _ => apply N.eqb_neq in H
    | H : (_ || _)%bool = true |- _ => apply orb_true_iff in H; destruct H
    | H : (_ && _)%bool = false |- _ => apply andb_false_iff in H; destruct H
    end.

(** Decide a boolean fact about code-unit classes by arithmetic. *)
Ltac char_solve :=
  unfold is_key_char, plain, is_word, is_space, is_digit, is_separator,
    is_csv_special, lower_ascii, in_range in *;
  repeat match goal with
    | |- context [if ?b then _ else _] => destruct b eqn:?
    | _ : context [if ?b then _ else _] |- _ => destruct b eqn:?
    end;
  match goal with
  | |- ?b = true => destruct b eqn:?; [reflexivity | exfalso]
  | |- ?b = false => destruct b eqn:?; [exfalso | reflexivity]
  | |- _ => idtac
  end;
  bool_hyps; lia.

Lemma jseqb_eq (a b : jsstring) : jseqb a b = true <-> a = b.
Proof.
  revert b; induction a as [|x a IH]; intros [|y b]; simpl;
    try (split; [discriminate | congruence]); try tauto.
  rewrite andb_true_iff, N.eqb_eq, IH. split.
  - intros [-> ->]; reflexivity.
  - intros E; injection E; auto.
Qed.

Lemma jseqb_refl (a : jsstring) : jseqb a a = true.
Proof. apply jseqb_eq; reflexivity. Qed.

Lemma jseqb_neq (a b : jsstring) : jseqb a b = false <-> a <> b.
Proof.
  split.
  - intros E ->. rewrite jseqb_refl in E; discriminate.
  - intros N. destruct (jseqb a b) eqn:E; auto.
    apply jseqb_eq in E; contradiction.
Qed.

Lemma replace_each_id p r s :
  forallb (fun c => negb (p c)) s = true -> replace_each p r s = s.
Proof.
  induction s as [|c s IH]; simpl; auto.
  intros E; apply andb_true_iff in E; destruct E as [Ec Es].
  apply negb_true_iff in Ec; rewrite Ec; simpl. f_equal; auto.
Qed.

Lemma replace_runs_from_id p r b s :
  forallb (fun c => negb (p c)) s = true -> replace_runs_from p r b s = s.
Proof.
  revert b; induction s as [|c s IH]; simpl; auto.
  intros b E; apply andb_true_iff in E; destruct E as [Ec Es].
  apply negb_true_iff in Ec; rewrite Ec. f_equal; auto.
Qed.

Lemma drop_while_id p s :
  forallb (fun c => negb (p c)) s = true -> drop_while p s = s.
Proof.
  destruct s as [|c s]; simpl; auto.
  intros E; apply andb_true_iff in E; destruct E as [Ec _].
  apply negb_true_iff in Ec; rewrite Ec; reflexivity.
Qed.

Lemma forallb_rev (q : jschar -> bool) s :
  forallb q s = true -> forallb q (rev s) = true.
Proof.
  rewrite !forallb_forall. intros A x I. apply A, in_rev, I.
Qed.

Lemma trim_id s :
  forallb (fun c => negb (is_space c)) s = true -> trim s = s.
Proof.
  intros E. unfold trim. rewrite (drop_while_id _ _ E).
  rewrite (drop_while_id _ _ (forallb_rev _ _ E)). apply rev_involutive.
Qed.

Lemma forallb_all (q : jschar -> bool) s :
  (forall c, q c = true) -> forallb q s = true.
Proof. intros A. apply forallb_forall. auto. Qed.

Lemma forallb_replace_each (q p : jschar -> bool) r s :
  forallb q r = true -> forallb (fun c => p c || q c) s = true ->
  forallb q (replace_each p r s) = true.
Proof.
  intros Qr. induction s as [|c s IH]; simpl; auto.
  intros E; apply andb_true_iff in E; destruct E as [Ec Es].
  rewrite forallb_app, IH, andb_true_r by assumption.
  destruct (p c); auto. simpl in *. rewrite Ec; reflexivity.
Qed.

Lemma forallb_replace_runs_from (q p : jschar -> bool) r b s :
  forallb q r = true -> forallb (fun c => p c || q c) s = true ->
  forallb q (replace_runs_from p r b s) = true.
Proof.
  intros Qr. revert b; induction s as [|c s IH]; intros b; simpl; auto.
  intros E; apply andb_true_iff in E; destruct E as [Ec Es].
  destruct (p c).
  - rewrite forallb_app, IH, andb_true_r by assumption. destruct b; auto.
  - simpl in *. rewrite Ec, IH; auto.
Qed.

Lemma forallb_impl (q q' : jschar -> bool) s :
  (forall c, q c = true -> q' c = true) ->
  forallb q s = true -> forallb q' s = true.
Proof.
  intros I. rewrite !forallb_forall. auto.
Qed.

Lemma forallb_map_lower (q q' : jschar -> bool) s :
  (forall c, q c = true -> q' (lower_ascii c) = true) ->
  forallb q s = true -> forallb q' (map lower_ascii s) = true.
Proof.
  intros I. induction s as [|c s IH]; simpl; auto.
  intros E; apply andb_true_iff in E; destruct E as [Ec Es].
  rewrite (I _ Ec), IH; auto.
Qed.

Lemma map_lower_id s :
  forallb (fun c => negb (in_range 65 90 c)) s = true ->
  map lower_ascii s = s.
Proof.
  induction s as [|c s IH]; simpl; auto.
  intros E; apply andb_true_iff in E; destruct E as [Ec Es].
  rewrite IH by assumption. f_equal.
  unfold lower_ascii. apply negb_true_iff in Ec. rewrite Ec; reflexivity.
Qed.

(* ================================================================== *)
(** * The field normaliser is idempotent *)
(* ================================================================== *)

Section Normaliser.

Context {H : Host} {L : HostLaws H}.

(** Whatever the label, the result is made of [a-z0-9_] only. *)
Lemma normalizeKey_chars (label : jsstring) :
  forallb is_key_char (normalizeKey label) = true.
Proof.
  unfold normalizeKey.
  set (s0 := replace_runs is_separator _ _).
  set (s1 := replace_each _ [] s0).
  assert (W : forallb (fun c => is_word c || is_space c) s1 = true).
  { apply forallb_replace_each; [reflexivity|].
    apply forallb_all. intros c. destruct (is_word c || is_space c); auto. }
  rewrite toLowerCase_plain.
  2:{ revert W; apply forallb_impl. intros c E. char_solve. }
  apply forallb_replace_runs_from; [reflexivity|].
  revert W; apply forallb_map_lower. intros c E. char_solve.
Qed.

(** A string of [a-z0-9_] is left as it is. *)
Lemma normalizeKey_fixes_keys (s : jsstring) :
  forallb is_key_char s = true -> normalizeKey s = s.
Proof.
  intros K. unfold normalizeKey.
  rewrite (replace_each_id (N.eqb 160) _ s).
  2:{ revert K; apply forallb_impl. intros c E. char_solve. }
  rewrite trim_id.
  2:{ revert K; apply forallb_impl. intros c E. char_solve. }
  unfold replace_runs. rewrite (replace_runs_from_id is_separator).
  2:{ revert K; apply forallb_impl. intros c E. char_solve. }
  rewrite replace_each_id.
  2:{ revert K; apply forallb_impl. intros c E. char_solve. }
  rewrite toLowerCase_plain.
  2:{ revert K; apply forallb_impl. intros c E. char_solve. }
  rewrite map_lower_id.
  2:{ revert K; apply forallb_impl. intros c E. char_solve. }
  apply replace_runs_from_id.
  revert K; apply forallb_impl. intros c E. char_solve.
Qed.

(** C8.  [normalizeKey] is idempotent: normalising an already normalised
    label changes nothing, for every label. *)
Theorem normalizeKey_idempotent (label : jsstring) :
  normalizeKey (normalizeKey label) = normalizeKey label.
Proof.
  apply normalizeKey_fixes_keys, normalizeKey_chars.
Qed.

End Normaliser.

(* ================================================================== *)
(** * Canonicalisation *)
(* ================================================================== *)

Section Canonical.

Context {H : Host}.


Lemma CANONICAL_MAP_entries_ok :
  forallb entry_ok CANONICAL_MAP_entries = true.
Proof. vm_compute. reflexivity. Qed.

Lemma own_entries (l : list (string * string)) (k : jsstring) (v : Value) :
  forallb entry_ok l = true ->
  own (map (fun kv => (js (fst kv), VStr (js (snd kv)))) l) k = Some v ->
  v = VStr k /\ k <> [].
Proof.
  induction l as [|[a b] l IH]; simpl; [discriminate|].
  intros E; apply andb_true_iff in E; destruct E as [Ee El].
  unfold entry_ok in Ee; simpl in Ee.
  apply andb_true_iff in Ee; destruct Ee as [Eab Ene].
  apply String.eqb_eq in Eab; subst b.
  destruct (jseqb (js a) k) eqn:Ek.
  - apply jseqb_eq in Ek; subst k. intros [= <-]. split; auto.
    apply negb_true_iff, jseqb_neq in Ene; exact Ene.
  - auto.
Qed.

(** A hit in the map returns the key itself. *)
Lemma own_CANONICAL_MAP (k : jsstring) (v : Value) :
  own CANONICAL_MAP k = Some v -> v = VStr k /\ k <> [].
Proof. apply own_entries, CANONICAL_MAP_entries_ok. Qed.

(** The canonicalisation step, case by case: an entry of the map, else
    whatever [Object.prototype] holds under that name, else the key. *)
Lemma canonicalize_cases (k : jsstring) :
  canonicalize CANONICAL_MAP k =
  match own CANONICAL_MAP k with
  | Some v => v
  | None =>
      match inherited k with
      | Some v => v
      | None => VStr k
      end
  end.
Proof.
  unfold canonicalize, get.
  destruct (own CANONICAL_MAP k) as [v|] eqn:O.
  - destruct (own_CANONICAL_MAP _ O) as [-> N]. simpl.
    apply jseqb_neq in N; rewrite N; reflexivity.
  - unfold inherited.
    destruct (assoc_string Object_prototype_functions k); [reflexivity|].
    destruct (jseqb k (js "__proto__")); reflexivity.
Qed.


Lemma assoc_string_In l k f :
  assoc_string l k = Some f -> In k (map (fun e => js (fst e)) l).
Proof.
  induction l as [|[a b] l IH]; simpl; [discriminate|].
  destruct (jseqb (js a) k) eqn:E; auto.
  apply jseqb_eq in E; auto.
Qed.

Lemma inherited_In (k : jsstring) (v : Value) :
  inherited k = Some v -> In k (map js inherited_names).
Proof.
  unfold inherited, inherited_names.
  rewrite map_app, map_map, in_app_iff.
  destruct (assoc_string Object_prototype_functions k) eqn:A.
  - intros _. left. eapply assoc_string_In; eauto.
  - destruct (jseqb k (js "__proto__")) eqn:E; [|discriminate].
    apply jseqb_eq in E. intros _. right. simpl; auto.
Qed.

(** Of the names [Object.prototype] answers to, only two are spelled with
    [a-z0-9_] alone. *)
Lemma inherited_key_names (k : jsstring) (v : Value) :
  inherited k = Some v -> forallb is_key_char k = true ->
  k = js "constructor" \/ k = js "__proto__".
Proof.
  intros I K. apply inherited_In in I.
  unfold inherited_names in I. simpl in I.
  repeat (destruct I as [<-|I];
          [first [left; reflexivity | right; reflexivity
                 | exfalso; vm_compute in K; discriminate]|]).
  contradiction.
Qed.

(** Where the step is what the specification describes: a normalised key
    that is no entry of the map passes through unchanged, unless it is one
    of the two inherited names. *)
Lemma canonicalize_passes_through (k : jsstring) :
  forallb is_key_char k = true ->
  own CANONICAL_MAP k = None ->
  k <> js "constructor" -> k <> js "__proto__" ->
  canonicalize CANONICAL_MAP k = VStr k.
Proof.
  intros K O N1 N2. rewrite canonicalize_cases, O.
  destruct (inherited k) as [v|] eqn:I; auto.
  destruct (inherited_key_names _ I K); contradiction.
Qed.

(** C9.  The canonicalisation step of line 154 on the normalised key
    [constructor]: the key is no entry of the canonical map, and yet the
    step does not return it unchanged - the lookup finds the inherited
    [Object.prototype.constructor], so the step returns the function
    [Object], and the field is stored under the text of that function. *)
Theorem canonicalize_constructor :
  own CANONICAL_MAP (js "constructor") = None /\
  canonicalize CANONICAL_MAP (js "constructor") = VFunction (js "Object") /\
  canonicalize CANONICAL_MAP (js "constructor") <> VStr (js "constructor") /\
  ToString (canonicalize CANONICAL_MAP (js "constructor"))
  = Function_toString (js "Object").
Proof.
  assert (O : own CANONICAL_MAP (js "constructor") = None)
    by (vm_compute; reflexivity).
  assert (C : canonicalize CANONICAL_MAP (js "constructor")
              = VFunction (js "Object")).
  { rewrite canonicalize_cases, O. reflexivity. }
  rewrite C. repeat split; auto. discriminate.
Qed.

(** The other inherited name a normalised key can spell: the lookup of
    [__proto__] returns the prototype object. *)
Lemma canonicalize_proto :
  own CANONICAL_MAP (js "__proto__") = None /\
  canonicalize CANONICAL_MAP (js "__proto__") = VObject Object_prototype.
Proof.
  assert (O : own CANONICAL_MAP (js "__proto__") = None)
    by (vm_compute; reflexivity).
  split; [exact O|]. rewrite canonicalize_cases, O. reflexivity.
Qed.

(** C10.  Every entry of the canonical map maps a key to itself; so when the
    lookup of a key hits an entry, the canonical key - and the field key it
    is stored under - is that key; in particular, for every row label whose
    normalised form is an entry of the map, the field key is the normalised
    label. *)
Theorem canonical_map_is_identity :
  (forall k v, In (k, v) CANONICAL_MAP_entries -> k = v) /\
  (forall k v,
      own CANONICAL_MAP k = Some v ->
      v = VStr k /\ canonicalize CANONICAL_MAP k = VStr k) /\
  (forall label v,
      own CANONICAL_MAP (normalizeKey label) = Some v ->
      ToString (canonicalize CANONICAL_MAP (normalizeKey label))
      = normalizeKey label).
Proof.
  split; [|split].
  - intros k v I.
    pose proof CANONICAL_MAP_entries_ok as A.
    rewrite forallb_forall in A. specialize (A _ I).
    unfold entry_ok in A; simpl in A.
    apply andb_true_iff in A; destruct A as [A _].
    apply String.eqb_eq in A; exact A.
  - intros k v O.
    destruct (own_CANONICAL_MAP _ O) as [-> N].
    rewrite canonicalize_cases, O. auto.
  - intros label v O.
    destruct (own_CANONICAL_MAP _ O) as [-> N].
    rewrite canonicalize_cases, O. reflexivity.
Qed.

End Canonical.

(* ================================================================== *)
(** * The value parser *)
(* ================================================================== *)


Lemma drop_while_all p s : forallb p s = true -> drop_while p s = [].
Proof.
  induction s as [|c s IH]; simpl; auto.
  intros E; apply andb_true_iff in E; destruct E as [-> Es]; auto.
Qed.

Lemma take_drop_while p s : take_while p s ++ drop_while p s = s.
Proof.
  induction s as [|c s IH]; simpl; auto.
  destruct (p c); simpl; [rewrite IH|]; reflexivity.
Qed.

Lemma forallb_take_while p s : forallb p (take_while p s) = true.
Proof.
  induction s as [|c s IH]; simpl; auto.
  destruct (p c) eqn:E; simpl; [rewrite E, IH|]; reflexivity.
Qed.

Lemma trim_all_space r : forallb is_space r = true -> trim r = [].
Proof.
  intros E. unfold trim. rewrite (drop_while_all _ _ E). reflexivity.
Qed.

Lemma after_minus_chars s :
  forallb is_numeric_char (after_minus s) = true ->
  forallb is_numeric_char s = true.
Proof.
  destruct s as [|c t]; simpl; auto.
  destruct (N.eqb c 45) eqn:E; auto.
  intros ->. unfold is_numeric_char. rewrite E, orb_true_r. reflexivity.
Qed.

Lemma after_minus_nonempty s : after_minus s <> [] -> s <> [].
Proof. destruct s; simpl; congruence. Qed.

Lemma matches_integer_chars s :
  matches_integer s = true -> s <> [] /\ forallb is_numeric_char s = true.
Proof.
  unfold matches_integer. intros E.
  apply andb_true_iff in E; destruct E as [N D].
  apply negb_true_iff, jseqb_neq in N. split.
  - apply after_minus_nonempty, N.
  - apply after_minus_chars. revert D; apply forallb_impl.
    intros c E. unfold is_numeric_char. rewrite E; reflexivity.
Qed.

Lemma matches_decimal_chars s :
  matches_decimal s = true -> s <> [] /\ forallb is_numeric_char s = true.
Proof.
  unfold matches_decimal. intros E.
  destruct (drop_while is_digit (after_minus s)) as [|c frac] eqn:D;
    [discriminate|].
  rewrite !andb_true_iff in E. destruct E as [[[Ec _] _] Hd].
  apply N.eqb_eq in Ec; subst c. split.
  - apply after_minus_nonempty. intros Z. rewrite Z in D. discriminate.
  - apply after_minus_chars.
    rewrite <- (take_drop_while is_digit (after_minus s)), D.
    rewrite forallb_app. apply andb_true_iff; split.
    + generalize (forallb_take_while is_digit (after_minus s)).
      apply forallb_impl. intros c E. unfold is_numeric_char.
      rewrite E; reflexivity.
    + simpl. revert Hd; apply forallb_impl. intros c E.
      unfold is_numeric_char. rewrite E; reflexivity.
Qed.

(** The two patterns exclude one another. *)
Lemma matches_decimal_not_integer s :
  matches_decimal s = true -> matches_integer s = false.
Proof.
  unfold matches_decimal, matches_integer. intros E.
  destruct (forallb is_digit (after_minus s)) eqn:A;
    [|rewrite andb_false_r; reflexivity].
  rewrite (drop_while_all _ _ A) in E. discriminate.
Qed.

Section ValueParser.

Context {H : Host} {L : HostLaws H}.

(** On a string of digits, minus signs and full stops the first steps of
    [parseValue] change nothing and the yes/no test fails. *)
Lemma numeric_string_steps s :
  s <> [] -> forallb is_numeric_char s = true ->
  trim s = s /\ toLowerCase s = s
  /\ jseqb s (js "yes") = false /\ jseqb s (js "no") = false.
Proof.
  intros N C. repeat split.
  - apply trim_id. revert C; apply forallb_impl.
    intros c E. unfold is_numeric_char in E. char_solve.
  - rewrite toLowerCase_plain.
    + apply map_lower_id. revert C; apply forallb_impl.
      intros c E. unfold is_numeric_char in E. char_solve.
    + revert C; apply forallb_impl.
      intros c E. unfold is_numeric_char in E. char_solve.
  - destruct s as [|c t]; [congruence|].
    simpl in C. apply andb_true_iff in C; destruct C as [C _].
    change (js "yes") with [121; 101; 115]%N. simpl.
    replace (N.eqb c 121) with false; [reflexivity|].
    symmetry. unfold is_numeric_char in C. char_solve.
  - destruct s as [|c t]; [congruence|].
    simpl in C. apply andb_true_iff in C; destruct C as [C _].
    change (js "no") with [110; 111]%N. simpl.
    replace (N.eqb c 110) with false; [reflexivity|].
    symmetry. unfold is_numeric_char in C. char_solve.
Qed.

Lemma parseValue_integer s opts :
  matches_integer s = true -> parseNumbers opts = true ->
  parseValue (Some s) opts = Ok (VNum (parseInt10 s)).
Proof.
  intros M P. destruct (matches_integer_chars _ M) as [N C].
  destruct (numeric_string_steps N C) as (T & Lw & Y & No).
  unfold parseValue. rewrite T, Lw, Y, No, P.
  apply jseqb_neq in N. rewrite N.
  unfold tryParseNumber. rewrite M. reflexivity.
Qed.

Lemma parseValue_decimal s opts :
  matches_decimal s = true -> parseNumbers opts = true ->
  parseValue (Some s) opts = Ok (VNum (parseFloat s)).
Proof.
  intros M P. destruct (matches_decimal_chars _ M) as [N C].
  destruct (numeric_string_steps N C) as (T & Lw & Y & No).
  unfold parseValue. rewrite T, Lw, Y, No, P.
  apply jseqb_neq in N. rewrite N.
  unfold tryParseNumber. rewrite M, (matches_decimal_not_integer _ M).
  reflexivity.
Qed.

Lemma lower_is_word c : is_word (lower_ascii c) = true -> is_word c = true.
Proof. intros E. char_solve. Qed.

(** A string whose ASCII lower-casing is a word without capitals: the first
    steps of [parseValue] take it to that word. *)
Lemma cased_word_steps s w :
  map lower_ascii s = w -> forallb is_word w = true ->
  trim s = s /\ toLowerCase s = w.
Proof.
  intros E W.
  assert (Ws : forallb is_word s = true).
  { subst w. clear - W. induction s as [|c s IH]; simpl in *; auto.
    apply andb_true_iff in W; destruct W as [Wc Ws].
    rewrite (lower_is_word _ Wc), IH; auto. }
  split.
  - apply trim_id. revert Ws; apply forallb_impl. intros c A. char_solve.
  - rewrite toLowerCase_plain; auto.
    revert Ws; apply forallb_impl. intros c A. char_solve.
Qed.

Lemma parseValue_yes s opts :
  map lower_ascii s = js "yes" -> parseValue (Some s) opts = Ok (VBool true).
Proof.
  intros E. destruct (cased_word_steps s E eq_refl) as [T Lw].
  unfold parseValue. rewrite T, Lw.
  destruct s; [discriminate|]. reflexivity.
Qed.

Lemma parseValue_no s opts :
  map lower_ascii s = js "no" -> parseValue (Some s) opts = Ok (VBool false).
Proof.
  intros E. destruct (cased_word_steps s E eq_refl) as [T Lw].
  unfold parseValue. rewrite T, Lw.
  destruct s; [discriminate|]. reflexivity.
Qed.

Lemma parseValue_blank r opts :
  forallb is_space r = true -> parseValue (Some r) opts = Ok VNull.
Proof.
  intros E. unfold parseValue. rewrite (trim_all_space _ E). reflexivity.
Qed.

(** No rule applies: the trimmed string comes back. *)
Lemma parseValue_fallthrough r opts :
  trim r <> [] ->
  toLowerCase (trim r) <> js "yes" -> toLowerCase (trim r) <> js "no" ->
  (parseNumbers opts = true -> tryParseNumber (trim r) = None) ->
  (parseDates opts = true -> tryParseDate (trim r) = Ok None) ->
  parseValue (Some r) opts = Ok (VStr (trim r)).
Proof.
  intros N Y No PN PD. unfold parseValue.
  apply jseqb_neq in N, Y, No. rewrite N, Y, No.
  destruct (parseNumbers opts).
  - rewrite PN by reflexivity.
    destruct (parseDates opts); [rewrite PD by reflexivity|]; reflexivity.
  - destruct (parseDates opts); [rewrite PD by reflexivity|]; reflexivity.
Qed.

Lemma parseValue_hello opts :
  (parseDates opts = true -> Date_toISOString (js "hello") = None) ->
  parseValue (Some (js "hello")) opts = Ok (VStr (js "hello")).
Proof.
  intros D.
  assert (Lw : toLowerCase (js "hello") = js "hello")
    by (rewrite toLowerCase_plain; reflexivity).
  change (js "hello") with (trim (js "hello")) at 1.
  change (js "hello") with (trim (js "hello")) at 2.
  apply parseValue_fallthrough.
  - discriminate.
  - change (trim (js "hello")) with (js "hello"). rewrite Lw. discriminate.
  - change (trim (js "hello")) with (js "hello"). rewrite Lw. discriminate.
  - reflexivity.
  - intros P. change (trim (js "hello")) with (js "hello").
    unfold tryParseDate. rewrite (D P). reflexivity.
Qed.

(** C5, as the code has it.  [parseValue] returns [null] for [null] and for
    every empty or white-space-only string; [true] and [false] for every
    string that is yes or no up to letter case, whatever the flags; with
    [parseNumbers] on, the number [parseInt] reads from every string of the
    form optional minus, digits, and the number [parseFloat] reads from every
    string of the form optional minus, digits, full stop, digits; and the
    trimmed string when no rule applies.  A leading plus sign is not part of
    either number pattern. *)
Theorem parseValue_contract :
  (forall opts, parseValue None opts = Ok VNull) /\
  (forall r opts, forallb is_space r = true ->
      parseValue (Some r) opts = Ok VNull) /\
  (forall s opts, map lower_ascii s = js "yes" ->
      parseValue (Some s) opts = Ok (VBool true)) /\
  (forall s opts, map lower_ascii s = js "no" ->
      parseValue (Some s) opts = Ok (VBool false)) /\
  (forall s opts, parseNumbers opts = true -> matches_integer s = true ->
      parseValue (Some s) opts = Ok (VNum (parseInt10 s))) /\
  (forall s opts, parseNumbers opts = true -> matches_decimal s = true ->
      parseValue (Some s) opts = Ok (VNum (parseFloat s))) /\
  (forall r opts,
      trim r <> [] ->
      toLowerCase (trim r) <> js "yes" -> toLowerCase (trim r) <> js "no" ->
      (parseNumbers opts = true -> tryParseNumber (trim r) = None) ->
      (parseDates opts = true -> tryParseDate (trim r) = Ok None) ->
      parseValue (Some r) opts = Ok (VStr (trim r))) /\
  (forall opts,
      parseValue (Some (js "Yes")) opts = Ok (VBool true) /\
      parseValue (Some (js "no")) opts = Ok (VBool false) /\
      parseValue (Some (js "")) opts = Ok VNull /\
      (parseNumbers opts = true ->
       parseValue (Some (js "42")) opts = Ok (VNum (parseInt10 (js "42"))) /\
       parseValue (Some (js "-7")) opts = Ok (VNum (parseInt10 (js "-7"))) /\
       parseValue (Some (js "3.14")) opts
       = Ok (VNum (parseFloat (js "3.14")))) /\
      ((parseDates opts = true -> Date_toISOString (js "hello") = None) ->
       parseValue (Some (js "hello")) opts = Ok (VStr (js "hello")))).
Proof.
  split; [reflexivity|].
  split; [apply parseValue_blank|].
  split; [apply parseValue_yes|].
  split; [apply parseValue_no|].
  split; [intros; apply parseValue_integer; assumption|].
  split; [intros; apply parseValue_decimal; assumption|].
  split; [apply parseValue_fallthrough|].
  intros opts.
  split; [apply parseValue_yes; reflexivity|].
  split; [apply parseValue_no; reflexivity|].
  split; [apply parseValue_blank; reflexivity|].
  split.
  - intros P.
    split; [apply parseValue_integer; auto|].
    split; [apply parseValue_integer; auto|].
    apply parseValue_decimal; auto.
  - apply parseValue_hello.
Qed.

End ValueParser.

Section InheritedName.

Context {H : Host} {L : HostLaws H}.

(** The label Constructor reaches the canonicalisation step as the key
    [constructor]. *)
Lemma normalizeKey_Constructor :
  normalizeKey (js "Constructor") = js "constructor".
Proof.
  unfold normalizeKey. cbv zeta.
  rewrite toLowerCase_plain by reflexivity. reflexivity.
Qed.

(** A table with the one row Constructor / Yes: the record has no field
    [constructor]; the value sits under the text of the function
    [Object]. *)
Lemma parseMatchHtml_Constructor_row (opts : ParseOpts) :
  parseMatchHtml
    (Some {| th := None; trs := [[js "Constructor"; js "Yes"]] |}) opts
  = Ok (Some [(Function_toString (js "Object"), VBool true)]).
Proof.
  unfold parseMatchHtml. cbn [th trs parseRows].
  change (trim (js "Constructor")) with (js "Constructor").
  rewrite normalizeKey_Constructor.
  replace (parseValue (Some (trim (js "Yes"))) opts) with (Ok (VBool true))
    by (symmetry; apply parseValue_yes; reflexivity).
  reflexivity.
Qed.

End InheritedName.

(** The number rule never fires on a string with a leading plus sign:
    whatever the host and the flags, [+42] does not parse as a number. *)
Lemma parseValue_plus_sign_is_no_number :
  optional_sign_integer (js "+42") = true /\
  (forall (H : Host) (opts : ParseOpts) (n : number),
      parseValue (Some (js "+42")) opts <> Ok (VNum n)) /\
  (forall (H : Host), HostLaws H ->
      parseValue (Some (js "+42")) {| parseDates := false; parseNumbers := true |}
      = Ok (VStr (js "+42"))).
Proof.
  split; [reflexivity|]. split.
  - intros H opts n. unfold parseValue.
    change (trim (js "+42")) with (js "+42"). simpl jseqb.
    destruct (jseqb (toLowerCase (js "+42")) (js "yes")); [discriminate|].
    destruct (jseqb (toLowerCase (js "+42")) (js "no")); [discriminate|].
    replace (if parseNumbers opts then tryParseNumber (js "+42") else None)
      with (@None number) by (destruct (parseNumbers opts); reflexivity).
    destruct (parseDates opts); [|discriminate].
    destruct (tryParseDate (js "+42")) as [[[|c i]|]|e]; discriminate.
  - intros H L. unfold parseValue.
    change (trim (js "+42")) with (js "+42").
    rewrite toLowerCase_plain by reflexivity. reflexivity.
Qed.

(* ================================================================== *)
(** * The CSV escaper *)
(* ================================================================== *)

Lemma replace_each_cons p r c s :
  replace_each p r (c :: s) = (if p c then r else [c]) ++ replace_each p r s.
Proof. reflexivity. Qed.

Lemma unquote_body_other c t :
  N.eqb c 34 = false ->
  unquote_body (c :: t) = option_map (cons c) (unquote_body t).
Proof. intros E. cbn -[N.eqb]. rewrite E. reflexivity. Qed.

Lemma unquote_body_doubled t :
  unquote_body (dquote ++ dquote ++ t) = option_map (cons 34%N) (unquote_body t).
Proof. reflexivity. Qed.

Lemma unquote_body_quoted (s : jsstring) :
  unquote_body (replace_each (N.eqb 34) (dquote ++ dquote) s ++ dquote)
  = Some s.
Proof.
  induction s as [|c s IH]; [reflexivity|].
  rewrite replace_each_cons. destruct (N.eqb_spec 34 c) as [<-|N].
  - rewrite <- !app_assoc, unquote_body_doubled, IH. reflexivity.
  - change (([c] ++ ?x) ++ ?y) with (c :: (x ++ y)).
    rewrite unquote_body_other, IH; [reflexivity|].
    apply N.eqb_neq. congruence.
Qed.

(** Reading back a quoted field gives the string that was quoted. *)
Lemma csv_unescape_quote_field (s : jsstring) :
  csv_unescape (quote_field s) = Some s.
Proof.
  unfold quote_field. simpl. apply unquote_body_quoted.
Qed.

(** A string without a double quote is read back as it is. *)
Lemma csv_unescape_plain (s : jsstring) :
  test_class is_csv_special s = false -> csv_unescape s = Some s.
Proof.
  destruct s as [|c s]; [reflexivity|]. unfold test_class. simpl.
  intros E. apply orb_false_iff in E; destruct E as [E _].
  replace (N.eqb c 34) with false; [reflexivity|].
  symmetry. char_solve.
Qed.

Section Escaper.

Context {H : Host}.

(** C7.  The escaper maps [null] and a missing value to the empty field;
    a non-scalar value is first serialised by [JSON.stringify]; a value whose
    text contains a double quote, a comma or a line feed is wrapped in double
    quotes with every double quote inside doubled, and any other text is
    written as it is; reading an escaped field back with a standard CSV
    reader gives the text of the value. *)
Theorem esc_contract :
  esc VNull = [] /\ esc VUndefined = [] /\
  (forall o, stringify (VObject o) = JSON_stringify o) /\
  (forall v, v <> VNull -> v <> VUndefined ->
     (test_class is_csv_special (stringify v) = true ->
        esc v = dquote
                ++ replace_each (N.eqb 34) (dquote ++ dquote) (stringify v)
                ++ dquote
        /\ csv_unescape (esc v) = Some (stringify v))
     /\ (test_class is_csv_special (stringify v) = false ->
           esc v = stringify v /\ csv_unescape (esc v) = Some (stringify v))).
Proof.
  split; [reflexivity|]. split; [reflexivity|]. split; [reflexivity|].
  intros v Nn Nu. split; intros S.
  - assert (E : esc v = quote_field (stringify v)).
    { destruct v; try congruence; unfold esc; rewrite S; reflexivity. }
    split; [exact E|]. rewrite E. apply csv_unescape_quote_field.
  - assert (E : esc v = stringify v).
    { destruct v; try congruence; unfold esc; rewrite S; reflexivity. }
    split; [exact E|]. rewrite E. apply csv_unescape_plain. exact S.
Qed.

End Escaper.

(* ================================================================== *)
(** * Sorting and sets of strings *)
(* ================================================================== *)


Lemma js_ltb_irrefl a : js_ltb a a = false.
Proof.
  induction a as [|x a IH]; simpl; auto.
  rewrite N.ltb_irrefl, N.eqb_refl, IH. reflexivity.
Qed.

Lemma js_ltb_trans a b c :
  js_ltb a b = true -> js_ltb b c = true -> js_ltb a c = true.
Proof.
  revert b c; induction a as [|x a IH]; intros [|y b] [|z c]; simpl;
    try discriminate; auto.
  intros A B.
  apply orb_true_iff in A; apply orb_true_iff in B; apply orb_true_iff.
  destruct A as [A|A], B as [B|B].
  - left. apply N.ltb_lt in A, B. apply N.ltb_lt. lia.
  - apply andb_true_iff in B; destruct B as [B _].
    apply N.eqb_eq in B; subst z. auto.
  - apply andb_true_iff in A; destruct A as [A _].
    apply N.eqb_eq in A; subst y. auto.
  - apply andb_true_iff in A; destruct A as [A A'].
    apply andb_true_iff in B; destruct B as [B B'].
    apply N.eqb_eq in A, B; subst y z. right.
    rewrite N.eqb_refl. simpl. eapply IH; eauto.
Qed.

Lemma js_ltb_total a b : js_ltb a b = false -> a = b \/ js_ltb b a = true.
Proof.
  revert b; induction a as [|x a IH]; intros [|y b]; simpl; auto;
    try discriminate.
  intros A. apply orb_false_iff in A; destruct A as [A B].
  apply N.ltb_ge in A.
  destruct (N.eqb_spec x y) as [<-|N].
  - simpl in B. destruct (IH _ B) as [->|C]; auto.
    right. rewrite N.eqb_refl, C. apply orb_true_r.
  - right. replace (N.ltb y x) with true; auto.
    symmetry; apply N.ltb_lt. lia.
Qed.

Lemma insert_sorted_In k l x : In x (insert_sorted k l) <-> x = k \/ In x l.
Proof.
  induction l as [|y l IH]; simpl.
  - intuition.
  - destruct (js_ltb y k); simpl; rewrite ?IH; intuition.
Qed.

Lemma insert_sorted_sorted k l :
  StronglySorted js_lt l -> ~ In k l -> StronglySorted js_lt (insert_sorted k l).
Proof.
  induction l as [|y l IH]; simpl; intros S N.
  - repeat constructor.
  - inversion S as [|? ? Sl Fy]; subst.
    destruct (js_ltb y k) eqn:E.
    + constructor; [apply IH; auto|].
      apply Forall_forall. intros x I. apply insert_sorted_In in I.
      destruct I as [->|I]; [exact E|].
      rewrite Forall_forall in Fy; auto.
    + assert (K : js_lt k y).
      { destruct (js_ltb_total _ _ E) as [->|K]; [|exact K].
        exfalso; apply N; auto. }
      constructor; auto. constructor; auto.
      revert Fy. apply Forall_impl. intros x Lx.
      unfold js_lt in *. eapply js_ltb_trans; eauto.
Qed.

(** Sorting a duplicate-free array gives a strictly ascending array with the
    same elements. *)
Lemma sort_spec l :
  NoDup l ->
  StronglySorted js_lt (sort l) /\ (forall x, In x (sort l) <-> In x l).
Proof.
  unfold sort. induction 1 as [|a l Na Nl [S M]]; simpl.
  - split; [constructor|tauto].
  - split.
    + apply insert_sorted_sorted; auto. rewrite M; exact Na.
    + intros x. rewrite insert_sorted_In, M. intuition.
Qed.

Lemma Set_has_In s k : Set_has s k = true <-> In k s.
Proof.
  unfold Set_has. rewrite existsb_exists. split.
  - intros [x [I E]]. apply jseqb_eq in E; subst; auto.
  - intros I. exists k. split; auto. apply jseqb_refl.
Qed.

Lemma Set_add_In s k x : In x (Set_add s k) <-> x = k \/ In x s.
Proof.
  unfold Set_add. destruct (Set_has s k) eqn:E.
  - apply Set_has_In in E. intuition; subst; auto.
  - rewrite in_app_iff; simpl. intuition.
Qed.

Lemma Set_add_NoDup s k : NoDup s -> NoDup (Set_add s k).
Proof.
  intros N. unfold Set_add. destruct (Set_has s k) eqn:E; auto.
  assert (K : ~ In k s).
  { intros I. apply Set_has_In in I. congruence. }
  clear E. induction N as [|a s Na Ns IH]; simpl.
  - repeat constructor; auto.
  - constructor.
    + rewrite in_app_iff; simpl. intros [I|[->|[]]]; auto. apply K; simpl; auto.
    + apply IH. intros I; apply K; simpl; auto.
Qed.

(* ================================================================== *)
(** * The tabular serialiser *)
(* ================================================================== *)

Section Serialiser.

Context {H : Host}.


Lemma collect_extras_fold known (rows : list jsobject) :
  collect_extras known rows
  = fold_left (fun acc r => fold_left (add_extra known) (keys r) acc) rows [].
Proof. reflexivity. Qed.

Lemma add_extras_spec known ks acc :
  NoDup acc ->
  NoDup (fold_left (add_extra known) ks acc) /\
  (forall x, In x (fold_left (add_extra known) ks acc)
             <-> In x acc \/ (In x ks /\ is_extra known x = true)).
Proof.
  revert acc; induction ks as [|k ks IH]; simpl; intros acc N.
  - split; auto. intuition.
  - assert (N' : NoDup (add_extra known acc k)).
    { unfold add_extra. destruct (is_extra known k); auto.
      apply Set_add_NoDup; auto. }
    destruct (IH _ N') as [ND M]. split; auto.
    intros x. rewrite M. unfold add_extra.
    destruct (is_extra known k) eqn:E.
    + rewrite Set_add_In. intuition; subst; auto.
    + intuition; subst; congruence.
Qed.

Lemma collect_rows_spec known (rows : list jsobject) acc :
  NoDup acc ->
  NoDup (fold_left (fun acc r => fold_left (add_extra known) (keys r) acc)
           rows acc) /\
  (forall x,
      In x (fold_left (fun acc r => fold_left (add_extra known) (keys r) acc)
              rows acc)
      <-> In x acc
          \/ (exists r, In r rows /\ In x (keys r)) /\ is_extra known x = true).
Proof.
  revert acc; induction rows as [|r rows IH]; simpl; intros acc N.
  - split; auto. intros x. split; auto. intros [I|[[r [[] _]] _]]; auto.
  - destruct (add_extras_spec known (keys r) N) as [N' M'].
    destruct (IH _ N') as [ND M]. split; auto.
    intros x. rewrite M, M'. split.
    + intros [[I|[I E]]|[[r' [I K]] E]]; auto.
      * right. split; auto. exists r; auto.
      * right. split; auto. exists r'; auto.
    + intros [I|[[r' [[<-|I] K]] E]]; auto.
      right. split; auto. exists r'; auto.
Qed.

Lemma is_extra_spec known k :
  is_extra known k = true
  <-> ~ In k known /\ startsWith (js "_") k = false.
Proof.
  unfold is_extra. rewrite andb_true_iff, !negb_true_iff.
  rewrite <- Set_has_In. split; intros [A B]; split; auto.
  - congruence.
  - destruct (Set_has known k); auto. exfalso; auto.
Qed.


End Serialiser.

(* ================================================================== *)
(** * The retry loop *)
(* ================================================================== *)


Lemma safeFetch_loop_terminates fetch tok fuel attempt w :
  (attempt <= maxRetries + 1)%Z ->
  (Z.of_nat fuel > maxRetries + 1 - attempt)%Z ->
  safeFetch_loop fetch tok fuel attempt w <> None.
Proof.
  unfold maxRetries.
  revert attempt w. induction fuel as [|fuel IH]; intros attempt w A F.
  - exfalso. change (Z.of_nat 0) with 0%Z in F. lia.
  - cbn [safeFetch_loop]. unfold maxRetries.
    destruct (attempt <=? 5)%Z eqn:E; [|discriminate].
    apply Z.leb_le in E.
    assert (R : forall w', safeFetch_loop fetch tok fuel (attempt + 1) w'
                           <> None).
    { intros w'. apply IH; lia. }
    destruct (fetch (calls w)) as [|status body].
    + destruct (attempt + 1 >? 5)%Z; [discriminate|].
      replace (attempt + 1 - 1)%Z with attempt by lia. apply R.
    + destruct (res_ok status).
      * destruct body; [discriminate|].
        destruct (attempt + 1 >? 5)%Z; [discriminate|]. apply R.
      * destruct ((status =? 429)%Z || (status =? 503)%Z); [apply R|].
        destruct (attempt + 1 >? 5)%Z; [discriminate|]. apply R.
Qed.

(** [safeFetch] always comes back: with a response or with an error. *)
Lemma safeFetch_terminates fetch tok w : safeFetch fetch tok w <> None.
Proof.
  apply safeFetch_loop_terminates; unfold maxRetries; simpl; lia.
Qed.

(** One failed attempt with a status that is neither a success nor a
    throttle. *)
Lemma safeFetch_loop_http_error fetch tok fuel attempt w status body :
  fetch (calls w) = Responded status body ->
  res_ok status = false -> throttled (Responded status body) = false ->
  (attempt <= maxRetries)%Z ->
  safeFetch_loop fetch tok (S fuel) attempt w =
  if (attempt + 1 >? maxRetries)%Z
  then Some (Throw (HttpError status), do_fetch tok w)
  else safeFetch_loop fetch tok fuel (attempt + 1)
         (do_wait (retryBaseDelay * 2 ^ attempt) (do_fetch tok w)).
Proof.
  intros F R T A. cbn [safeFetch_loop].
  apply Z.leb_le in A. rewrite A, F, R. simpl in T. rewrite T.
  replace (attempt + 1 - 1)%Z with attempt by lia. reflexivity.
Qed.

(** One throttled attempt. *)
Lemma safeFetch_loop_throttled fetch tok fuel attempt w :
  throttled (fetch (calls w)) = true ->
  (attempt <= maxRetries)%Z ->
  safeFetch_loop fetch tok (S fuel) attempt w =
  safeFetch_loop fetch tok fuel (attempt + 1)
    (do_wait (retryBaseDelay * 2 ^ attempt) (do_fetch tok w)).
Proof.
  intros T A. cbn [safeFetch_loop].
  apply Z.leb_le in A. rewrite A.
  destruct (fetch (calls w)) as [|status body]; [discriminate|].
  simpl in T. rewrite T.
  replace (res_ok status) with false; [reflexivity|].
  symmetry. unfold res_ok.
  apply orb_true_iff in T. destruct T as [T|T]; apply Z.eqb_eq in T; subst;
    reflexivity.
Qed.

(** C3.  When every request is answered with status 500, [safeFetch] makes
    the first attempt and exactly five retries - six requests - waiting
    1000 * 2^k ms before retry k (1000, 2000, 4000, 8000, 16000), and then
    throws the HTTP error. *)
Theorem safeFetch_fatal_after_five_retries
  (fetch : nat -> FetchOutcome) (tok : option jsstring) (w : World) :
  (forall n, exists body, fetch n = Responded 500 body) ->
  safeFetch fetch tok w =
  Some (Throw (HttpError 500),
        {| calls := 6 + calls w;
           trace := trace w ++ backoff_trace tok 0 5 ++ [Fetch tok] |})
  /\ backoff_trace tok 0 5 =
     [Fetch tok; Wait 1000; Fetch tok; Wait 2000; Fetch tok; Wait 4000;
      Fetch tok; Wait 8000; Fetch tok; Wait 16000].
Proof.
  intros A. split; [|reflexivity].
  assert (step : forall fuel attempt w',
             (attempt <= maxRetries)%Z ->
             safeFetch_loop fetch tok (S fuel) attempt w' =
             if (attempt + 1 >? maxRetries)%Z
             then Some (Throw (HttpError 500), do_fetch tok w')
             else safeFetch_loop fetch tok fuel (attempt + 1)
                    (do_wait (retryBaseDelay * 2 ^ attempt) (do_fetch tok w'))).
  { intros fuel attempt w' B. destruct (A (calls w')) as [body E].
    eapply safeFetch_loop_http_error; eauto. }
  unfold safeFetch.
  do 6 (rewrite step by (unfold maxRetries; lia);
        cbn [Z.add Z.gtb Z.compare Pos.add Pos.succ Pos.compare
               Pos.compare_cont maxRetries]).
  f_equal. f_equal. unfold do_fetch, do_wait; cbn [calls trace].
  f_equal. unfold backoff_trace. cbn -[Z.pow Z.mul].
  repeat rewrite <- app_assoc. reflexivity.
Qed.

(** Throttled responses are retried in place: [k] of them in a row, as long
    as the attempt counter has room, only add their requests and waits. *)
Lemma safeFetch_loop_throttled_run fetch tok k :
  forall fuel attempt w,
    (0 <= attempt)%Z -> (attempt + Z.of_nat k <= maxRetries + 1)%Z ->
    (forall i, i < k -> throttled (fetch (i + calls w)) = true) ->
    safeFetch_loop fetch tok (k + fuel) attempt w =
    safeFetch_loop fetch tok fuel (attempt + Z.of_nat k)
      {| calls := k + calls w;
         trace := trace w ++ backoff_trace tok attempt k |}.
Proof.
  induction k as [|k IH]; intros fuel attempt w A B T.
  - simpl. rewrite Z.add_0_r, app_nil_r. destruct w; reflexivity.
  - change (S k + fuel) with (S (k + fuel)).
    rewrite safeFetch_loop_throttled.
    2:{ apply (T 0). lia. }
    2:{ lia. }
    rewrite IH.
    + f_equal; [lia|]. cbn [calls trace do_wait do_fetch backoff_trace].
      f_equal; [lia|]. repeat rewrite <- app_assoc. reflexivity.
    + lia.
    + lia.
    + intros i I. cbn [calls do_wait do_fetch].
      replace (i + S (calls w)) with (S i + calls w) by lia.
      apply T. lia.
Qed.

(** C4.  Six throttled responses in a row to one page request: the fetcher
    retries in place five times with the delays 1000 ... 16000, waits 32000
    ms after the sixth, and then leaves its loop and throws the error the
    source calls unreachable - the throttled response does reach the
    caller as an error. *)
Theorem safeFetch_throttled_six_times
  (fetch : nat -> FetchOutcome) (tok : option jsstring) (w : World) :
  (forall n, throttled (fetch n) = true) ->
  safeFetch fetch tok w =
  Some (Throw Unreachable,
        {| calls := 6 + calls w;
           trace := trace w ++ backoff_trace tok 0 6 |})
  /\ backoff_trace tok 0 6 =
     [Fetch tok; Wait 1000; Fetch tok; Wait 2000; Fetch tok; Wait 4000;
      Fetch tok; Wait 8000; Fetch tok; Wait 16000; Fetch tok; Wait 32000].
Proof.
  intros T. split; [|reflexivity].
  unfold safeFetch. change 7 with (6 + 1).
  rewrite safeFetch_loop_throttled_run;
    [reflexivity | lia | unfold maxRetries; lia | intros; apply T].
Qed.

(** Up to five throttled responses followed by a good one are absorbed:
    the caller gets the decoded body. *)
Lemma safeFetch_recovers_from_throttling fetch tok w k status json :
  k <= 5 ->
  (forall i, i < k -> throttled (fetch (i + calls w)) = true) ->
  fetch (k + calls w) = Responded status (Some json) ->
  res_ok status = true ->
  safeFetch fetch tok w =
  Some (Ok json,
        {| calls := S k + calls w;
           trace := trace w ++ backoff_trace tok 0 k ++ [Fetch tok] |}).
Proof.
  intros K T F R. unfold safeFetch.
  replace 7 with (k + S (6 - k)) by lia.
  rewrite safeFetch_loop_throttled_run;
    [| lia | unfold maxRetries; lia | exact T].
  cbn [safeFetch_loop calls]. rewrite F, R.
  replace (0 + Z.of_nat k <=? maxRetries)%Z with true.
  - unfold do_fetch; cbn [calls trace]. rewrite <- app_assoc. reflexivity.
  - symmetry. apply Z.leb_le. unfold maxRetries. lia.
Qed.

(* ================================================================== *)
(** * The paging loop *)
(* ================================================================== *)


Section Paging.

Context {H : Host}.

Variable fetch : nat -> FetchOutcome.
Variable cfg : Config.


Lemma page_round_terminates st w : page_round fetch cfg st w <> None.
Proof.
  unfold page_round. cbn [token].
  pose proof (safeFetch_terminates fetch (token_or_null (token st)) w) as T.
  destruct (safeFetch fetch (token_or_null (token st)) w)
    as [[[[|json]|e] w']|]; try congruence; try discriminate.
  destruct (negb (success json)); [discriminate|].
  cbn [agg].
  destruct (aggregate _ _ _ _); [|discriminate].
  destruct (token_or_null (continue_token json)); [|discriminate].
  destruct (token_eqb _ _); discriminate.
Qed.

Lemma page_round_continue st w st' w' :
  page_round fetch cfg st w = Some (Ok (Continue st'), w') ->
  page st' = (page st + 1)%Z.
Proof.
  unfold page_round. cbn [token agg page].
  destruct (safeFetch fetch (token_or_null (token st)) w)
    as [[[[|json]|e] w1]|]; try discriminate.
  destruct (negb (success json)); [discriminate|].
  destruct (aggregate _ _ _ _); [|discriminate].
  destruct (token_or_null (continue_token json)); [|discriminate].
  destruct (token_eqb _ _); [discriminate|].
  intros [= <- _]. reflexivity.
Qed.

(** The loop ends: the page counter grows by one per round. *)
Lemma paging_terminates fuel st w :
  fuel > 0 -> (Z.of_nat fuel > maxPages cfg - page st)%Z ->
  paging fetch cfg fuel st w <> None.
Proof.
  revert st w. induction fuel as [|fuel IH]; intros st w P F; [lia|].
  cbn [paging]. destruct (page st <? maxPages cfg)%Z eqn:E; [|discriminate].
  apply Z.ltb_lt in E.
  pose proof (page_round_terminates st w) as T.
  destruct (page_round fetch cfg st w) as [[[[st'|st']|e] w']|] eqn:R;
    try congruence; try discriminate.
  apply page_round_continue in R. apply IH; lia.
Qed.

Lemma safeFetch_ok tok w status json :
  fetch (calls w) = Responded status (Some json) -> res_ok status = true ->
  safeFetch fetch tok w = Some (Ok json, do_fetch tok w).
Proof.
  intros F R. unfold safeFetch. cbn [safeFetch_loop].
  rewrite F, R. reflexivity.
Qed.

(** One round on a page that arrives, reports success and parses. *)
Lemma paging_round_ok fuel st w p a :
  (page st < maxPages cfg)%Z ->
  forall w1,
  safeFetch fetch (token_or_null (token st)) w = Some (Ok (JObject p), w1) ->
  success p = true ->
  aggregate (dedupe cfg) (parse cfg) (extractTablesFromHtml (json_html p))
    (agg st) = Ok a ->
  paging fetch cfg (S fuel) st w =
  let stop := {| agg := a; token := token st; page := (page st + 1)%Z |} in
  match token_or_null (continue_token p) with
  | None => Some (Ok stop, w1)
  | Some t =>
      if token_eqb (Some t) (token st) then Some (Ok stop, w1)
      else paging fetch cfg fuel
             {| agg := a; token := Some t; page := (page st + 1)%Z |}
             (do_wait (delay cfg) w1)
  end.
Proof.
  intros P w1 F S A. cbn [paging].
  apply Z.ltb_lt in P. rewrite P.
  unfold page_round. cbn [token agg page]. rewrite F, S. cbn [negb].
  rewrite A.
  destruct (token_or_null (continue_token p)) as [t|]; [|reflexivity].
  destruct (token_eqb (Some t) (token st)); reflexivity.
Qed.

(** The counter has reached [maxPages]: the loop is over. *)
Lemma paging_stops_at_maxPages fuel st w :
  (page st >= maxPages cfg)%Z ->
  paging fetch cfg (S fuel) st w = Some (Ok st, w).
Proof.
  intros P. cbn [paging].
  replace (page st <? maxPages cfg)%Z with false; [reflexivity|].
  symmetry. apply Z.ltb_ge. lia.
Qed.

(** The page does not report success: the loop is over and the page has
    added nothing. *)
Lemma paging_stops_on_failure fuel st w json w1 :
  (page st < maxPages cfg)%Z ->
  safeFetch fetch (token_or_null (token st)) w = Some (Ok json, w1) ->
  json = JPrimitive \/ (exists p, json = JObject p /\ success p = false) ->
  paging fetch cfg (S fuel) st w =
  Some (Ok {| agg := agg st; token := token st; page := (page st + 1)%Z |},
        w1).
Proof.
  intros P F J. cbn [paging]. apply Z.ltb_lt in P. rewrite P.
  unfold page_round. cbn [token agg page]. rewrite F.
  destruct J as [->|[p [-> S]]]; [reflexivity|].
  rewrite S. reflexivity.
Qed.

(** The page brings no token, or the token the request was made with: the
    loop is over, with the records of the page added. *)
Lemma paging_stops_on_token fuel st w p w1 a :
  (page st < maxPages cfg)%Z ->
  safeFetch fetch (token_or_null (token st)) w = Some (Ok (JObject p), w1) ->
  success p = true ->
  aggregate (dedupe cfg) (parse cfg) (extractTablesFromHtml (json_html p))
    (agg st) = Ok a ->
  token_or_null (continue_token p) = None
  \/ token_or_null (continue_token p) = token st ->
  paging fetch cfg (S fuel) st w =
  Some (Ok {| agg := a; token := token st; page := (page st + 1)%Z |}, w1).
Proof.
  intros P F S A T. erewrite paging_round_ok; [| eassumption ..]. cbn zeta.
  destruct (token_or_null (continue_token p)) as [t|] eqn:E; [|reflexivity].
  destruct T as [T|T]; [discriminate|].
  rewrite <- T. simpl. rewrite jseqb_refl. reflexivity.
Qed.

(** Three pages, the third repeating the token of the second. *)
Lemma paging_third_page_repeats p1 p2 p3 :
  (3 <= maxPages cfg)%Z ->
  fetch 0 = ok_page p1 -> fetch 1 = ok_page p2 -> fetch 2 = ok_page p3 ->
  success p1 = true -> success p2 = true -> success p3 = true ->
  parses cfg p1 -> parses cfg p2 -> parses cfg p3 ->
  continue_token p3 = continue_token p2 ->
  exists st w,
    paging fetch cfg (S (Z.to_nat (maxPages cfg))) initial start
    = Some (Ok st, w)
    /\ (page st <= 3)%Z /\ Z.of_nat (calls w) = page st
    /\ (token_or_null (continue_token p1) <> None ->
        token_or_null (continue_token p2) <> None ->
        token_or_null (continue_token p2) <> token_or_null (continue_token p1) ->
        page st = 3%Z).
Proof.
  intros M F1 F2 F3 S1 S2 S3 P1 P2 P3 T.
  destruct (Z.to_nat (maxPages cfg)) as [|[|[|n]]] eqn:E; try lia.
  (* first page *)
  destruct (P1 (agg initial)) as [a1 A1].
  erewrite paging_round_ok;
    [| cbn [page initial]; lia
     | apply safeFetch_ok with (status := 200%Z); [exact F1 | reflexivity]
     | exact S1 | exact A1].
  cbn zeta. cbn [token initial page token_or_null].
  destruct (token_or_null (continue_token p1)) as [t1|] eqn:T1.
  2:{ eexists; eexists; split; [reflexivity|]. cbn. repeat split; try lia.
      congruence. }
  cbn [token_eqb].
  (* second page *)
  destruct (P2 a1) as [a2 A2].
  erewrite paging_round_ok;
    [| cbn [page]; lia
     | apply safeFetch_ok with (status := 200%Z); [exact F2 | reflexivity]
     | exact S2 | exact A2].
  cbn zeta. cbn [token page token_or_null].
  destruct (token_or_null (continue_token p2)) as [t2|] eqn:T2.
  2:{ eexists; eexists; split; [reflexivity|]. cbn. repeat split; try lia.
      congruence. }
  destruct (token_eqb (Some t2) (Some t1)) eqn:Q.
  { eexists; eexists; split; [reflexivity|]. cbn. repeat split; try lia.
    intros _ _ N. exfalso. apply N. simpl in Q. apply jseqb_eq in Q.
    congruence. }
  (* third page *)
  destruct (P3 a2) as [a3 A3].
  erewrite paging_round_ok;
    [| cbn [page]; lia
     | apply safeFetch_ok with (status := 200%Z); [exact F3 | reflexivity]
     | exact S3 | exact A3].
  cbn zeta. cbn [token page]. rewrite T, T2.
  simpl token_eqb. rewrite jseqb_refl.
  eexists; eexists; split; [reflexivity|]. cbn. repeat split; lia.
Qed.

(** An error of the first page request is the error of the run. *)
Lemma run_fails_with_first_fetch e w1 :
  (1 <= maxPages cfg)%Z ->
  safeFetch fetch None start = Some (Throw e, w1) ->
  gcpdFetchAndParseAll fetch cfg = Some (Throw e, w1).
Proof.
  intros M F. unfold gcpdFetchAndParseAll. fold start. cbn [paging].
  replace (page initial <? maxPages cfg)%Z with true
    by (symmetry; apply Z.ltb_lt; cbn; lia).
  unfold page_round. cbn [token initial token_or_null]. rewrite F.
  reflexivity.
Qed.

(** The run always comes to an end, with a summary or with an error. *)
Lemma gcpdFetchAndParseAll_terminates :
  gcpdFetchAndParseAll fetch cfg <> None.
Proof.
  unfold gcpdFetchAndParseAll. fold start.
  assert (T : paging fetch cfg (S (Z.to_nat (maxPages cfg))) initial start
              <> None).
  { apply paging_terminates; [lia | cbn [page initial]; lia]. }
  destruct (paging fetch cfg (S (Z.to_nat (maxPages cfg))) initial start)
    as [[[st|e] w]|]; [discriminate | discriminate | congruence].
Qed.

(** When the tables of every page parse, the paging loop ends without an
    error (a) when the page brings no continuation token, (b) when it
    brings the token the request was made with, (c) when the page does not
    report success - and then the page adds no record - and (d) when the
    page counter has reached [maxPages]; (a) and (b) are checked after the
    tables of the page have been parsed.  When the third page repeats the
    token of the second, the run makes at most three requests and ends
    normally. *)
Theorem paging_stops_without_error fuel st w :
  ((page st >= maxPages cfg)%Z ->
   paging fetch cfg (S fuel) st w = Some (Ok st, w))
  /\ (forall json w1,
         (page st < maxPages cfg)%Z ->
         safeFetch fetch (token_or_null (token st)) w = Some (Ok json, w1) ->
         (json = JPrimitive \/ (exists p, json = JObject p /\ success p = false) ->
          paging fetch cfg (S fuel) st w =
          Some (Ok {| agg := agg st; token := token st;
                      page := (page st + 1)%Z |}, w1))
         /\ (forall p a,
                json = JObject p -> success p = true ->
                aggregate (dedupe cfg) (parse cfg)
                  (extractTablesFromHtml (json_html p)) (agg st) = Ok a ->
                token_or_null (continue_token p) = None
                \/ token_or_null (continue_token p) = token st ->
                paging fetch cfg (S fuel) st w =
                Some (Ok {| agg := a; token := token st;
                            page := (page st + 1)%Z |}, w1)))
  /\ (forall p1 p2 p3,
         (3 <= maxPages cfg)%Z ->
         fetch 0 = ok_page p1 -> fetch 1 = ok_page p2 -> fetch 2 = ok_page p3 ->
         success p1 = true -> success p2 = true -> success p3 = true ->
         parses cfg p1 -> parses cfg p2 -> parses cfg p3 ->
         continue_token p3 = continue_token p2 ->
         exists s w',
           gcpdFetchAndParseAll fetch cfg = Some (Ok s, w')
           /\ (pages s <= 3)%Z /\ Z.of_nat (calls w') = pages s
           /\ (token_or_null (continue_token p1) <> None ->
               token_or_null (continue_token p2) <> None ->
               token_or_null (continue_token p2)
               <> token_or_null (continue_token p1) ->
               pages s = 3%Z)).
Proof.
  split; [apply paging_stops_at_maxPages|]. split.
  - intros json w1 P F. split.
    + apply paging_stops_on_failure; assumption.
    + intros p a -> S A T. eapply paging_stops_on_token; eauto.
  - intros p1 p2 p3 M F1 F2 F3 S1 S2 S3 P1 P2 P3 T.
    destruct (paging_third_page_repeats M F1 F2 F3 S1 S2 S3 P1 P2 P3 T)
      as (st' & w' & R & B & C & D).
    unfold gcpdFetchAndParseAll. fold start. rewrite R.
    eexists; eexists; split; [reflexivity|]. cbn [pages]. auto.
Qed.

End Paging.

(* ================================================================== *)
(** * The deduplicating aggregator *)
(* ================================================================== *)


Section Aggregator.

Context {H : Host}.


Lemma identities_app rs r :
  identities (rs ++ [r])
  = identities rs
    ++ (if has_key (dedupe_key true r) then [dedupe_key true r] else []).
Proof.
  unfold identities. rewrite map_app, filter_app. reflexivity.
Qed.

Lemma identities_In rs k :
  In k (identities rs) ->
  exists r, In r rs /\ dedupe_key true r = k /\ k <> [].
Proof.
  unfold identities. rewrite filter_In, in_map_iff.
  intros [[r [E I]] K]. exists r. repeat split; auto.
  unfold has_key in K. apply negb_true_iff, jseqb_neq in K. exact K.
Qed.

Lemma NoDup_snoc (l : list jsstring) k :
  NoDup l -> ~ In k l -> NoDup (l ++ [k]).
Proof.
  induction 1 as [|a l Na Nl IH]; simpl; intros K.
  - repeat constructor; auto.
  - constructor.
    + rewrite in_app_iff; simpl. intros [I|[->|[]]]; auto.
    + apply IH. auto.
Qed.

Lemma admit_distinct t_id parsed a :
  distinct_ids a -> distinct_ids (fst (admit_record true t_id parsed a)).
Proof.
  intros [N S]. unfold admit_record.
  set (p := inject_id t_id parsed). set (key := dedupe_key true p).
  fold (has_key key).
  destruct (has_key key && Set_has (seen a) key) eqn:E; cbn [fst].
  - split; assumption.
  - split; cbn [results seen].
    + rewrite identities_app. fold key.
      destruct (has_key key) eqn:K; [|rewrite app_nil_r; exact N].
      apply NoDup_snoc; auto. intros I.
      destruct (identities_In _ _ I) as [r [Ir [Er Nr]]].
      rewrite <- Er in Nr. specialize (S r Ir Nr). rewrite Er in S.
      apply Set_has_In in S. simpl in E. congruence.
    + intros r I Nr. apply in_app_iff in I. destruct I as [I|[<-|[]]].
      * specialize (S r I Nr).
        destruct (has_key key); auto. apply Set_add_In; auto.
      * fold key in Nr |- *. unfold has_key.
        apply jseqb_neq in Nr. rewrite Nr. cbn [negb].
        apply Set_add_In; auto.
Qed.

Lemma aggregate_distinct opts tables a a' :
  aggregate true opts tables a = Ok a' -> distinct_ids a -> distinct_ids a'.
Proof.
  revert a. induction tables as [|t tables IH]; intros a; cbn [aggregate].
  - intros [= <-]; auto.
  - destruct (parseMatchHtml (Some (html t)) opts) as [[r|]|e]; cbn [bind];
      try discriminate.
    + intros A D. eapply IH; eauto. apply admit_distinct; exact D.
    + intros A D. eapply IH; eauto.
Qed.

Lemma page_round_distinct fetch cfg st w c w' :
  dedupe cfg = true ->
  page_round fetch cfg st w = Some (Ok c, w') ->
  distinct_ids (agg st) ->
  distinct_ids (agg (match c with Continue s | Break s => s end)).
Proof.
  intros De. unfold page_round. cbn [token agg page].
  destruct (safeFetch fetch (token_or_null (token st)) w)
    as [[[[|json]|e] w1]|]; try discriminate.
  - intros [= <- _]; auto.
  - destruct (negb (success json)); [intros [= <- _]; auto|].
    rewrite De.
    destruct (aggregate true (parse cfg)
                (extractTablesFromHtml (json_html json)) (agg st))
      as [a|e] eqn:A; [|discriminate].
    intros R D.
    assert (D' : distinct_ids a) by (eapply aggregate_distinct; eauto).
    destruct (token_or_null (continue_token json)).
    + destruct (token_eqb _ _); injection R as <- _; exact D'.
    + injection R as <- _; exact D'.
Qed.

Lemma paging_distinct fetch cfg fuel st w st' w' :
  dedupe cfg = true ->
  paging fetch cfg fuel st w = Some (Ok st', w') ->
  distinct_ids (agg st) -> distinct_ids (agg st').
Proof.
  intros De. revert st w. induction fuel as [|fuel IH]; intros st w;
    cbn [paging]; [discriminate|].
  destruct (page st <? maxPages cfg)%Z; [|intros [= <- _]; auto].
  destruct (page_round fetch cfg st w) as [[[[s|s]|e] w1]|] eqn:R;
    try discriminate.
  - intros P D. eapply IH; eauto.
    pose proof page_round_distinct as X.
    apply (X _ _ _ _ _ _ De R D).
  - intros [= <- _] D.
    pose proof page_round_distinct as X.
    apply (X _ _ _ _ _ _ De R D).
Qed.

Lemma identities_unique rs :
  NoDup (identities rs) ->
  forall i j r1 r2,
    nth_error rs i = Some r1 -> nth_error rs j = Some r2 ->
    dedupe_key true r1 <> [] -> dedupe_key true r2 = dedupe_key true r1 ->
    i = j.
Proof.
  induction rs as [|r rs IH]; intros N i j r1 r2 I J K E.
  - destruct i; discriminate.
  - assert (N' : NoDup (identities rs)).
    { unfold identities in *. simpl in N.
      destruct (has_key (dedupe_key true r)); auto.
      inversion N; auto. }
    assert (X : forall n r', nth_error rs n = Some r' ->
                             dedupe_key true r' = dedupe_key true r ->
                             dedupe_key true r <> [] -> False).
    { intros n r' Hn Hr Hk. unfold identities in N. simpl in N.
      unfold has_key in N at 1. apply jseqb_neq in Hk. rewrite Hk in N.
      cbn [negb] in N. inversion N as [|? ? Nin _]; subst. apply Nin.
      apply filter_In. split.
      - apply in_map_iff. exists r'. split; auto.
        eapply nth_error_In; eauto.
      - unfold has_key. rewrite Hk. reflexivity. }
    destruct i as [|i], j as [|j]; simpl in I, J; auto.
    + injection I as ->. exfalso. eapply X; eauto.
    + injection J as ->. exfalso. eapply (X i r1); eauto. congruence.
    + f_equal. eapply IH; eauto.
Qed.

Lemma dedupe_key_truthy r :
  truthy (get r (js "match_id")) = true -> dedupe_key true r <> [].
Proof.
  intros T. unfold dedupe_key. rewrite T. discriminate.
Qed.

(** C1, as the code has it.  With [dedupe] on, whatever the pages were, no
    two records of the results carry the same match_id when that match_id is
    truthy (not missing, [null], [false] or a zero); and a record whose
    match_id is missing or falsy is always admitted, without touching the
    seen-set. *)
Theorem dedupe_admits_at_most_one
  (fetch : nat -> FetchOutcome) (cfg : Config) (fuel : nat)
  (st : LoopState) (w : World) :
  dedupe cfg = true ->
  paging fetch cfg fuel initial start = Some (Ok st, w) ->
  (forall i j r1 r2,
      nth_error (results (agg st)) i = Some r1 ->
      nth_error (results (agg st)) j = Some r2 ->
      truthy (get r1 (js "match_id")) = true ->
      get r2 (js "match_id") = get r1 (js "match_id") ->
      i = j)
  /\ (forall dedupe t_id parsed a,
         truthy (get (inject_id t_id parsed) (js "match_id")) = false ->
         admit_record dedupe t_id parsed a
         = ({| results := results a ++ [inject_id t_id parsed];
               seen := seen a |}, true)).
Proof.
  intros De P. split.
  - assert (D : distinct_ids (agg st)).
    { eapply paging_distinct; eauto. split; [constructor|]. intros r []. }
    intros i j r1 r2 I J T E.
    eapply identities_unique; eauto.
    + apply D.
    + apply dedupe_key_truthy; exact T.
    + unfold dedupe_key. rewrite E. reflexivity.
  - intros d t_id parsed a T. unfold admit_record, dedupe_key.
    rewrite T, andb_false_r. reflexivity.
Qed.

(** Two fragments, one table each, both headed Match 100: one record with
    match_id 100 survives. *)
Example aggregate_two_Match_100 (opts : ParseOpts) :
  let t := {| th := Some (js "Match 100"); trs := [] |} in
  aggregate true opts (extractTablesFromHtml [t; t])
    {| results := []; seen := [] |}
  = Ok {| results := [[(js "match_id", VStr (js "100"))]];
          seen := [js "id:100"] |}.
Proof. reflexivity. Qed.

End Aggregator.

(** Two tables without a header, each with the row Match ID / No: both
    records carry the match_id [false], which is not [null], and both are
    admitted. *)
Lemma dedupe_keeps_falsy_ids :
  exists t : Table,
    forall (H : Host), HostLaws H ->
    forall opts : ParseOpts,
      exists r : jsobject,
        aggregate true opts (extractTablesFromHtml [t; t])
          {| results := []; seen := [] |}
        = Ok {| results := [r; r]; seen := [] |}
        /\ get r (js "match_id") = VBool false
        /\ get r (js "match_id") <> VNull.
Proof.
  exists {| th := None; trs := [[js "Match ID"; js "No"]] |}.
  intros H L opts.
  assert (K : normalizeKey (trim (js "Match ID")) = js "match_id").
  { unfold normalizeKey. cbv zeta.
    rewrite toLowerCase_plain by reflexivity. reflexivity. }
  assert (V : parseValue (Some (trim (js "No"))) opts = Ok (VBool false)).
  { apply parseValue_no. reflexivity. }
  assert (P : parseMatchHtml
                (Some {| th := None; trs := [[js "Match ID"; js "No"]] |}) opts
              = Ok (Some [(js "match_id", VBool false)])).
  { unfold parseMatchHtml. cbn [th trs parseRows]. rewrite K, V.
    reflexivity. }
  exists [(js "match_id", VBool false)].
  split; [|split; [reflexivity|discriminate]].
  cbn [extractTablesFromHtml map th html aggregate]. rewrite P.
  reflexivity.
Qed.

(* ================================================================== *)
(** * Bounds of the retry loop *)
(* ================================================================== *)

Lemma total_wait_app a b : total_wait (a ++ b) = (total_wait a + total_wait b)%Z.
Proof.
  induction a as [|[tok|ms] a IH]; simpl; rewrite ?IH; lia.
Qed.

Lemma total_wait_fetch tr tok : total_wait (tr ++ [Fetch tok]) = total_wait tr.
Proof. rewrite total_wait_app. cbn [total_wait]. lia. Qed.

Lemma total_wait_wait tr ms :
  total_wait (tr ++ [Wait ms]) = (total_wait tr + ms)%Z.
Proof.
  rewrite total_wait_app. change (total_wait [Wait ms]) with (ms + 0)%Z. lia.
Qed.

Lemma total_wait_backoff tok from k :
  (0 <= from)%Z ->
  total_wait (backoff_trace tok from k)
  = (retryBaseDelay * (2 ^ (from + Z.of_nat k) - 2 ^ from))%Z.
Proof.
  revert from. induction k as [|k IH]; intros from F.
  - cbn [backoff_trace total_wait]. rewrite Z.add_0_r. lia.
  - cbn [backoff_trace total_wait]. rewrite IH by lia.
    replace (from + Z.of_nat (S k))%Z with (from + 1 + Z.of_nat k)%Z by lia.
    rewrite (Z.pow_add_r 2 from 1) by lia. change (2 ^ 1)%Z with 2%Z.
    unfold retryBaseDelay. lia.
Qed.

(** With the attempts used up the loop is left, and the statement after it
    throws. *)
Lemma safeFetch_loop_exit fetch tok fuel attempt w :
  (attempt > maxRetries)%Z ->
  safeFetch_loop fetch tok (S fuel) attempt w = Some (Throw Unreachable, w).
Proof.
  intros A. cbn [safeFetch_loop].
  replace (attempt <=? maxRetries)%Z with false; [reflexivity|].
  symmetry. apply Z.leb_gt. lia.
Qed.

#[local] Opaque Z.mul Z.pow.

(** What one call of [safeFetch] can cost, from attempt number [attempt]
    on. *)
Lemma safeFetch_loop_bounds fetch tok fuel :
  forall attempt w r w',
    (0 <= attempt <= maxRetries)%Z ->
    safeFetch_loop fetch tok fuel attempt w = Some (r, w') ->
    calls w < calls w'
    /\ (Z.of_nat (calls w') <= Z.of_nat (calls w) + (maxRetries + 1 - attempt))%Z
    /\ (total_wait (trace w) <= total_wait (trace w')
        <= total_wait (trace w) + retryBaseDelay * (64 - 2 ^ attempt))%Z.
Proof.
  unfold maxRetries, retryBaseDelay.
  induction fuel as [|fuel IH]; intros attempt w r w' A E; [discriminate|].
  cbn [safeFetch_loop] in E. unfold maxRetries, retryBaseDelay in E.
  replace (attempt <=? 5)%Z with true in E by (symmetry; apply Z.leb_le; lia).
  assert (P : (0 < 2 ^ attempt)%Z) by (apply Z.pow_pos_nonneg; lia).
  assert (P6 : (2 ^ attempt <= 32)%Z).
  { change 32%Z with (2 ^ 5)%Z. apply Z.pow_le_mono_r; lia. }
  assert (P2 : (2 ^ (attempt + 1) = 2 * 2 ^ attempt)%Z).
  { rewrite Z.pow_add_r by lia. lia. }
  (* the continuation after a wait, when there is room for another attempt *)
  assert (next : forall r w',
             (attempt + 1 <= 5)%Z ->
             safeFetch_loop fetch tok fuel (attempt + 1)
               (do_wait (1000 * 2 ^ attempt) (do_fetch tok w)) = Some (r, w') ->
             calls w < calls w'
             /\ (Z.of_nat (calls w') <= Z.of_nat (calls w) + (5 + 1 - attempt))%Z
             /\ (total_wait (trace w) <= total_wait (trace w')
                 <= total_wait (trace w) + 1000 * (64 - 2 ^ attempt))%Z).
  { intros r0 w0 B E0. apply IH in E0; [|lia].
    cbn [calls trace do_wait do_fetch] in E0.
    rewrite total_wait_wait, total_wait_fetch in E0. lia. }
  (* the last attempt was throttled: the loop is left *)
  assert (last : forall r w',
             (attempt + 1 > 5)%Z ->
             safeFetch_loop fetch tok fuel (attempt + 1)
               (do_wait (1000 * 2 ^ attempt) (do_fetch tok w)) = Some (r, w') ->
             calls w < calls w'
             /\ (Z.of_nat (calls w') <= Z.of_nat (calls w) + (5 + 1 - attempt))%Z
             /\ (total_wait (trace w) <= total_wait (trace w')
                 <= total_wait (trace w) + 1000 * (64 - 2 ^ attempt))%Z).
  { intros r0 w0 B E0. destruct fuel as [|fuel']; [discriminate|].
    rewrite safeFetch_loop_exit in E0 by (unfold maxRetries; lia).
    injection E0 as <- <-. cbn [calls trace do_wait do_fetch].
    rewrite total_wait_wait, total_wait_fetch. lia. }
  assert (stop : forall (r0 : result Json),
             Some (r0, do_fetch tok w) = Some (r, w') ->
             calls w < calls w'
             /\ (Z.of_nat (calls w') <= Z.of_nat (calls w) + (5 + 1 - attempt))%Z
             /\ (total_wait (trace w) <= total_wait (trace w')
                 <= total_wait (trace w) + 1000 * (64 - 2 ^ attempt))%Z).
  { intros r0 E0. injection E0 as <- <-. cbn [calls trace do_fetch].
    rewrite total_wait_fetch. lia. }
  assert (catch : forall err,
             (if (attempt + 1 >? 5)%Z then Some (Throw err, do_fetch tok w)
              else safeFetch_loop fetch tok fuel (attempt + 1)
                     (do_wait (1000 * 2 ^ (attempt + 1 - 1)) (do_fetch tok w)))
             = Some (r, w') ->
             calls w < calls w'
             /\ (Z.of_nat (calls w') <= Z.of_nat (calls w) + (5 + 1 - attempt))%Z
             /\ (total_wait (trace w) <= total_wait (trace w')
                 <= total_wait (trace w) + 1000 * (64 - 2 ^ attempt))%Z).
  { intros err E0. replace (attempt + 1 - 1)%Z with attempt in E0 by lia.
    destruct (attempt + 1 >? 5)%Z eqn:G.
    - eapply stop; eauto.
    - eapply next; eauto. rewrite Z.gtb_ltb in G. apply Z.ltb_ge in G. lia. }
  destruct (fetch (calls w)) as [|status body].
  - eapply catch; eauto.
  - destruct (res_ok status).
    + destruct body as [json|]; [eapply stop; eauto | eapply catch; eauto].
    + destruct ((status =? 429)%Z || (status =? 503)%Z).
      * destruct (Z_le_gt_dec (attempt + 1) 5).
        -- eapply next; eauto.
        -- eapply last; eauto.
      * eapply catch; eauto.
Qed.

#[local] Transparent Z.mul Z.pow.

(** X1.  Whatever the network does, one call of [safeFetch] comes back,
    after at least one and at most six requests and after at most 63
    seconds of back-off. *)
Theorem safeFetch_bounds
  (fetch : nat -> FetchOutcome) (tok : option jsstring) (w : World) :
  exists r w',
    safeFetch fetch tok w = Some (r, w')
    /\ calls w < calls w' <= calls w + 6
    /\ (total_wait (trace w) <= total_wait (trace w')
        <= total_wait (trace w) + 63000)%Z.
Proof.
  destruct (safeFetch fetch tok w) as [[r w']|] eqn:E.
  - exists r, w'. split; [reflexivity|].
    unfold safeFetch in E.
    apply safeFetch_loop_bounds in E; [|unfold maxRetries; lia].
    unfold maxRetries, retryBaseDelay in E.
    change (2 ^ 0)%Z with 1%Z in E. lia.
  - exfalso. revert E. apply safeFetch_terminates.
Qed.

(** One failed attempt that is not the last: the request, the wait, and
    the next attempt - the same for a throttle and for an error. *)
Lemma safeFetch_loop_failed fetch tok fuel attempt w :
  failed (fetch (calls w)) = true ->
  (attempt + 1 <= maxRetries)%Z ->
  safeFetch_loop fetch tok (S fuel) attempt w =
  safeFetch_loop fetch tok fuel (attempt + 1)
    (do_wait (retryBaseDelay * 2 ^ attempt) (do_fetch tok w)).
Proof.
  intros F A. cbn [safeFetch_loop]. unfold maxRetries in *.
  replace (attempt <=? 5)%Z with true by (symmetry; apply Z.leb_le; lia).
  replace (attempt + 1 >? 5)%Z with false
    by (symmetry; rewrite Z.gtb_ltb; apply Z.ltb_ge; lia).
  replace (attempt + 1 - 1)%Z with attempt by lia.
  destruct (fetch (calls w)) as [|status body]; [reflexivity|].
  cbn [failed] in F. destruct (res_ok status).
  - destruct body; [discriminate|reflexivity].
  - destruct ((status =? 429)%Z || (status =? 503)%Z); reflexivity.
Qed.

Lemma safeFetch_loop_failed_run fetch tok k :
  forall fuel attempt w,
    (0 <= attempt)%Z -> (attempt + Z.of_nat k <= maxRetries)%Z ->
    (forall i, i < k -> failed (fetch (i + calls w)) = true) ->
    safeFetch_loop fetch tok (k + fuel) attempt w =
    safeFetch_loop fetch tok fuel (attempt + Z.of_nat k)
      {| calls := k + calls w;
         trace := trace w ++ backoff_trace tok attempt k |}.
Proof.
  induction k as [|k IH]; intros fuel attempt w A B T.
  - simpl. rewrite Z.add_0_r, app_nil_r. destruct w; reflexivity.
  - change (S k + fuel) with (S (k + fuel)).
    rewrite safeFetch_loop_failed; [| apply (T 0); lia | lia].
    rewrite IH; [| lia | lia |].
    + f_equal; [lia|]. cbn [calls trace do_wait do_fetch backoff_trace].
      f_equal; [lia|]. repeat rewrite <- app_assoc. reflexivity.
    + intros i I. cbn [calls do_wait do_fetch].
      replace (i + S (calls w)) with (S i + calls w) by lia.
      apply T. lia.
Qed.

(** X2.  Up to five failed attempts in a row - rejected requests, statuses
    outside 2xx, throttles, bodies that are not JSON, in any mix - followed
    by a good response: [safeFetch] returns the decoded body, having waited
    1000 * 2^i ms after the i-th failure and made one request more than
    there were failures. *)
Theorem safeFetch_recovers
  (fetch : nat -> FetchOutcome) (tok : option jsstring) (w : World)
  (k : nat) (status : Z) (json : Json) :
  k <= 5 ->
  (forall i, i < k -> failed (fetch (i + calls w)) = true) ->
  fetch (k + calls w) = Responded status (Some json) ->
  res_ok status = true ->
  safeFetch fetch tok w =
  Some (Ok json,
        {| calls := S k + calls w;
           trace := trace w ++ backoff_trace tok 0 k ++ [Fetch tok] |}).
Proof.
  intros K T F R. unfold safeFetch.
  replace 7 with (k + S (6 - k)) by lia.
  rewrite safeFetch_loop_failed_run;
    [| lia | unfold maxRetries; lia | exact T].
  cbn [safeFetch_loop calls]. rewrite F, R.
  replace (0 + Z.of_nat k <=? maxRetries)%Z with true.
  - unfold do_fetch; cbn [calls trace]. rewrite <- app_assoc. reflexivity.
  - symmetry. apply Z.leb_le. unfold maxRetries. lia.
Qed.

(* ================================================================== *)
(** * Bounds of a run *)
(* ================================================================== *)

Section RunBounds.

Context {H : Host}.

Variable fetch : nat -> FetchOutcome.
Variable cfg : Config.

Lemma safeFetch_calls tok w r w' :
  safeFetch fetch tok w = Some (r, w') ->
  calls w < calls w' <= calls w + 6.
Proof.
  intros E. unfold safeFetch in E.
  apply safeFetch_loop_bounds in E; [|unfold maxRetries; lia].
  unfold maxRetries in E. lia.
Qed.

(** One round makes between one and six requests and, unless it throws,
    counts one page. *)
Lemma page_round_bounds st w r w' :
  page_round fetch cfg st w = Some (r, w') ->
  calls w < calls w' <= calls w + 6
  /\ match r with
     | Ok (Continue st') | Ok (Break st') => page st' = (page st + 1)%Z
     | Throw _ => True
     end.
Proof.
  unfold page_round. cbn [token agg page].
  destruct (safeFetch fetch (token_or_null (token st)) w)
    as [[[[|json]|e] w1]|] eqn:F; try discriminate;
    apply safeFetch_calls in F.
  - intros [= <- <-]. auto.
  - destruct (negb (success json)); [intros [= <- <-]; auto|].
    destruct (aggregate _ _ _ _); [|intros [= <- <-]; auto].
    destruct (token_or_null (continue_token json));
      [|intros [= <- <-]; auto].
    destruct (token_eqb _ _); intros [= <- <-]; auto.
  - intros [= <- <-]. auto.
Qed.

Lemma paging_bounds fuel :
  forall st w r w',
    paging fetch cfg fuel st w = Some (r, w') ->
    (Z.of_nat (calls w')
     <= Z.of_nat (calls w) + 6 * Z.max 0 (maxPages cfg - page st))%Z
    /\ match r with
       | Ok st' =>
           (page st <= page st' <= Z.max (page st) (maxPages cfg))%Z
           /\ (page st' - page st <= Z.of_nat (calls w') - Z.of_nat (calls w)
               <= 6 * (page st' - page st))%Z
       | Throw _ => True
       end.
Proof.
  induction fuel as [|fuel IH]; intros st w r w'; cbn [paging];
    [discriminate|].
  destruct (page st <? maxPages cfg)%Z eqn:P.
  - apply Z.ltb_lt in P.
    destruct (page_round fetch cfg st w) as [[[[st1|st1]|e] w1]|] eqn:R;
      try discriminate; apply page_round_bounds in R; destruct R as [C Pg].
    + intros E. apply IH in E. rewrite Pg in E.
      destruct E as [E1 E2]. split; [lia|].
      destruct r as [st'|]; auto. lia.
    + intros [= <- <-]. lia.
    + intros [= <- <-]. split; [lia|exact I].
  - apply Z.ltb_ge in P. intros [= <- <-]. lia.
Qed.

(** X3.  A run always comes to an end.  It makes at most six requests per
    page and at most [maxPages] pages; when it ends normally the page count
    of the summary is between 0 and [maxPages], and the number of requests
    between that count and six times it. *)
Theorem gcpdFetchAndParseAll_bounds :
  exists r w,
    gcpdFetchAndParseAll fetch cfg = Some (r, w)
    /\ (Z.of_nat (calls w) <= 6 * Z.max 0 (maxPages cfg))%Z
    /\ match r with
       | Ok s =>
           (0 <= pages s <= Z.max 0 (maxPages cfg))%Z
           /\ (pages s <= Z.of_nat (calls w) <= 6 * pages s)%Z
       | Throw _ => True
       end.
Proof.
  pose proof gcpdFetchAndParseAll_terminates as T.
  specialize (T fetch cfg). unfold gcpdFetchAndParseAll in *.
  fold start in T |- *.
  destruct (paging fetch cfg (S (Z.to_nat (maxPages cfg))) initial start)
    as [[[st|e] w]|] eqn:E; [| |congruence];
    apply paging_bounds in E; cbn [page initial calls start] in E;
    eexists; eexists; (split; [reflexivity|]).
  - cbn [pages]. lia.
  - split; [lia|exact I].
Qed.


End RunBounds.

(* ================================================================== *)
(** * More facts about trimming *)
(* ================================================================== *)

Lemma drop_while_app_all p a s :
  forallb p a = true -> drop_while p (a ++ s) = drop_while p s.
Proof.
  induction a as [|c a IH]; simpl; auto.
  intros E; apply andb_true_iff in E; destruct E as [-> Ea]; auto.
Qed.

Lemma drop_while_idem p s : drop_while p (drop_while p s) = drop_while p s.
Proof.
  induction s as [|c s IH]; simpl; auto.
  destruct (p c) eqn:E; auto. simpl. rewrite E. reflexivity.
Qed.

Lemma drop_while_nil_all p s : drop_while p s = [] -> forallb p s = true.
Proof.
  induction s as [|c s IH]; simpl; auto.
  destruct (p c); [auto|discriminate].
Qed.

Lemma drop_while_app_tail p s b :
  drop_while p s <> [] -> drop_while p (s ++ b) = drop_while p s ++ b.
Proof.
  induction s as [|c s IH]; simpl; [congruence|].
  destruct (p c); auto.
Qed.

Lemma drop_while_length p s : List.length (drop_while p s) <= List.length s.
Proof.
  induction s as [|c s IH]; simpl; auto.
  destruct (p c); simpl; lia.
Qed.

Lemma drop_while_fixed_prefix p u v :
  drop_while p (u ++ v) = u ++ v -> drop_while p u = u.
Proof.
  destruct u as [|c u]; simpl; auto.
  destruct (p c); auto. intros E.
  pose proof (drop_while_length p (u ++ v)) as L.
  rewrite E in L. simpl in L. lia.
Qed.

(** Trimming a trimmed string changes nothing. *)
Lemma trim_idempotent s : trim (trim s) = trim s.
Proof.
  unfold trim.
  set (x := drop_while is_space s).
  set (y := drop_while is_space (rev x)).
  assert (Y : drop_while is_space (rev y) = rev y).
  { apply drop_while_fixed_prefix
      with (v := rev (take_while is_space (rev x))).
    rewrite <- rev_app_distr. unfold y. rewrite take_drop_while.
    rewrite rev_involutive. apply drop_while_idem. }
  rewrite Y, rev_involutive. unfold y. rewrite drop_while_idem. reflexivity.
Qed.

(** White space around a string does not survive trimming. *)
Lemma trim_spaces_around a s b :
  forallb is_space a = true -> forallb is_space b = true ->
  trim (a ++ s ++ b) = trim s.
Proof.
  intros A B. unfold trim. rewrite (drop_while_app_all _ _ _ A).
  destruct (drop_while is_space s) as [|c x] eqn:D.
  - apply drop_while_nil_all in D.
    rewrite (drop_while_app_all _ _ _ D), (drop_while_all _ _ B). reflexivity.
  - rewrite drop_while_app_tail by congruence. rewrite D.
    rewrite rev_app_distr.
    rewrite (drop_while_app_all _ _ _ (forallb_rev _ _ B)). reflexivity.
Qed.

(** A string is white space, its trimmed form, and white space again. *)
Lemma trim_decompose s :
  exists a b,
    s = a ++ trim s ++ b
    /\ forallb is_space a = true /\ forallb is_space b = true.
Proof.
  unfold trim.
  exists (take_while is_space s).
  exists (rev (take_while is_space (rev (drop_while is_space s)))).
  split; [|split].
  - rewrite <- rev_app_distr, take_drop_while, rev_involutive.
    symmetry. apply take_drop_while.
  - apply forallb_take_while.
  - apply forallb_rev, forallb_take_while.
Qed.

(* ================================================================== *)
(** * Results and errors of the value parser *)
(* ================================================================== *)

Section ValueShape.

Context {H : Host}.

Lemma tryParseDate_throws s e :
  tryParseDate s = Throw e ->
  e = RangeError
  /\ Date_toISOString s = None
  /\ exists m1 m2,
       date_pattern_search s = Some (m1, m2)
       /\ Date_toISOString (m1 ++ js "T" ++ m2 ++ js "Z") = None.
Proof.
  unfold tryParseDate.
  destruct (jseqb s [] || jseqb (trim s) []); [discriminate|].
  destruct (Date_toISOString s); [discriminate|].
  destruct (date_pattern_search s) as [[m1 m2]|]; [|discriminate].
  destruct (Date_toISOString (m1 ++ js "T" ++ m2 ++ js "Z")) eqn:D;
    [discriminate|].
  intros [= <-]. repeat split; eauto.
Qed.

Lemma date_pattern_here_colon s m :
  date_pattern_here s = Some m -> In 58%N s.
Proof.
  unfold date_pattern_here.
  do 19 (destruct s as [|? s]; [discriminate|]).
  destruct (_ && _) eqn:E; [|discriminate]. intros _.
  rewrite !andb_true_iff in E.
  destruct E as [[[[[_ _] _] _] C1] _].
  apply N.eqb_eq in C1. subst. simpl. tauto.
Qed.

Lemma date_pattern_search_colon s m :
  date_pattern_search s = Some m -> In 58%N s.
Proof.
  induction s as [|c s IH].
  - cbn. discriminate.
  - cbn [date_pattern_search].
    destruct (date_pattern_here (c :: s)) eqn:E.
    + intros _. eapply date_pattern_here_colon; eauto.
    + intros S. right. auto.
Qed.

(** A text with a date-and-time pattern in it is no number. *)
Lemma date_pattern_no_number s m :
  date_pattern_search s = Some m -> tryParseNumber s = None.
Proof.
  intros S. apply date_pattern_search_colon in S.
  assert (N : forallb is_numeric_char s = true -> False).
  { intros F. rewrite forallb_forall in F. specialize (F _ S).
    discriminate. }
  unfold tryParseNumber.
  destruct (matches_integer s) eqn:I.
  - exfalso. apply N. apply matches_integer_chars; assumption.
  - destruct (matches_decimal s) eqn:D; auto.
    exfalso. apply N. apply matches_decimal_chars; assumption.
Qed.

(** X5.  [parseValue] only ever returns [null], a boolean, a number or a
    non-empty string, and white space around the raw text makes no
    difference to the outcome. *)
Theorem parseValue_shape (opts : ParseOpts) :
  (forall raw v,
      parseValue raw opts = Ok v ->
      v = VNull \/ (exists b, v = VBool b) \/ (exists n, v = VNum n)
      \/ (exists s, v = VStr s /\ s <> []))
  /\ (forall r a b,
         forallb is_space a = true -> forallb is_space b = true ->
         parseValue (Some (a ++ r ++ b)) opts = parseValue (Some r) opts)
  /\ (forall r, parseValue (Some (trim r)) opts = parseValue (Some r) opts).
Proof.
  split; [|split].
  - intros raw v. unfold parseValue.
    destruct raw as [r|]; [|intros [= <-]; auto].
    destruct (jseqb (trim r) []) eqn:E; [intros [= <-]; auto|].
    apply jseqb_neq in E.
    destruct (jseqb (toLowerCase (trim r)) (js "yes"));
      [intros [= <-]; eauto|].
    destruct (jseqb (toLowerCase (trim r)) (js "no"));
      [intros [= <-]; eauto|].
    destruct (if parseNumbers opts then tryParseNumber (trim r) else None);
      [intros [= <-]; eauto 6|].
    destruct (parseDates opts); [|intros [= <-]; eauto 8].
    destruct (tryParseDate (trim r)) as [[[|c i]|]|e]; cbn [bind];
      try discriminate; intros [= <-]; right; right; right; eexists;
      split; try reflexivity; auto; discriminate.
  - intros r a b A B. unfold parseValue.
    rewrite (trim_spaces_around _ r _ A B). reflexivity.
  - intros r. unfold parseValue. rewrite trim_idempotent. reflexivity.
Qed.

(** X6.  The only error [parseValue] can raise is the [RangeError] of
    [toISOString]: never with [parseDates] off; and with it on it is raised
    whenever the text is not yes or no, the engine rejects it as a date, it
    contains a date-and-time pattern, and the engine rejects the date of
    the pattern as well. *)
Theorem parseValue_errors (opts : ParseOpts) :
  (parseDates opts = false ->
   forall raw, exists v, parseValue raw opts = Ok v)
  /\ (forall raw e,
         parseValue raw opts = Throw e ->
         e = RangeError /\ parseDates opts = true
         /\ exists r, raw = Some r
                      /\ tryParseDate (trim r) = Throw RangeError)
  /\ (forall r m1 m2,
         parseDates opts = true ->
         toLowerCase (trim r) <> js "yes" ->
         toLowerCase (trim r) <> js "no" ->
         Date_toISOString (trim r) = None ->
         date_pattern_search (trim r) = Some (m1, m2) ->
         Date_toISOString (m1 ++ js "T" ++ m2 ++ js "Z") = None ->
         parseValue (Some r) opts = Throw RangeError).
Proof.
  split; [|split].
  - intros D raw. unfold parseValue. destruct raw as [r|]; [|eauto].
    destruct (jseqb (trim r) []); [eauto|].
    destruct (jseqb (toLowerCase (trim r)) (js "yes")); [eauto|].
    destruct (jseqb (toLowerCase (trim r)) (js "no")); [eauto|].
    destruct (if parseNumbers opts then tryParseNumber (trim r) else None);
      [eauto|].
    rewrite D. eauto.
  - intros raw e. unfold parseValue. destruct raw as [r|]; [|discriminate].
    destruct (jseqb (trim r) []); [discriminate|].
    destruct (jseqb (toLowerCase (trim r)) (js "yes")); [discriminate|].
    destruct (jseqb (toLowerCase (trim r)) (js "no")); [discriminate|].
    destruct (if parseNumbers opts then tryParseNumber (trim r) else None);
      [discriminate|].
    destruct (parseDates opts); [|discriminate].
    destruct (tryParseDate (trim r)) as [[[|c i]|]|e'] eqn:T; cbn [bind];
      try discriminate.
    intros [= <-]. destruct (tryParseDate_throws _ T) as [-> _].
    repeat split. exists r. auto.
  - intros r m1 m2 D Y No D1 S D2. unfold parseValue.
    assert (E : trim r <> []).
    { intros Z. rewrite Z in S. discriminate. }
    rewrite (date_pattern_no_number _ S).
    apply jseqb_neq in E, Y, No. rewrite E, Y, No, D.
    replace (if parseNumbers opts then None else None) with (@None number)
      by (destruct (parseNumbers opts); reflexivity).
    unfold tryParseDate. rewrite trim_idempotent, E. cbn [orb].
    rewrite D1, S, D2. reflexivity.
Qed.

End ValueShape.

(* ================================================================== *)
(** * Errors while a page is parsed *)
(* ================================================================== *)

Section ParseErrors.

Context {H : Host}.

Lemma parseValue_only_RangeError raw opts e :
  parseValue raw opts = Throw e -> e = RangeError.
Proof.
  unfold parseValue. destruct raw as [r|]; [|discriminate].
  destruct (jseqb (trim r) []); [discriminate|].
  destruct (jseqb (toLowerCase (trim r)) (js "yes")); [discriminate|].
  destruct (jseqb (toLowerCase (trim r)) (js "no")); [discriminate|].
  destruct (if parseNumbers opts then tryParseNumber (trim r) else None);
    [discriminate|].
  destruct (parseDates opts); [|discriminate].
  destruct (tryParseDate (trim r)) as [[[|c i]|]|e'] eqn:T; cbn [bind];
    try discriminate.
  intros [= <-]. apply (tryParseDate_throws _ T).
Qed.

Lemma parseRows_only_RangeError opts rows :
  forall out e, parseRows opts rows out = Throw e -> e = RangeError.
Proof.
  induction rows as [|cells rows IH]; intros out e; cbn [parseRows];
    [discriminate|].
  destruct cells as [|c0 [|c1 [|c2 cells]]]; eauto.
  destruct (parseValue (Some (trim c1)) opts) eqn:V; cbn [bind]; eauto.
  intros [= <-]. eapply parseValue_only_RangeError; eauto.
Qed.

Lemma parseRows_bad_row opts rows :
  forall out,
    Exists (bad_row opts) rows -> parseRows opts rows out = Throw RangeError.
Proof.
  induction rows as [|cells rows IH]; intros out B;
    [inversion B|].
  cbn [parseRows]. inversion B as [? ? Bad|? ? Later]; subst.
  - destruct Bad as (c0 & c1 & e & -> & V). rewrite V. cbn [bind].
    f_equal. eapply parseValue_only_RangeError; eauto.
  - destruct cells as [|c0 [|c1 [|c2 cells]]]; auto.
    destruct (parseValue (Some (trim c1)) opts) eqn:V; cbn [bind]; auto.
    f_equal. eapply parseValue_only_RangeError; eauto.
Qed.

Lemma parseMatchHtml_only_RangeError t opts e :
  parseMatchHtml t opts = Throw e -> e = RangeError.
Proof.
  unfold parseMatchHtml. destruct t as [t|]; [|discriminate].
  destruct (parseRows opts (trs t) _) eqn:R; cbn [bind]; [discriminate|].
  intros [= <-]. eapply parseRows_only_RangeError; eauto.
Qed.

Lemma parseMatchHtml_bad_row t opts :
  Exists (bad_row opts) (trs t) ->
  parseMatchHtml (Some t) opts = Throw RangeError.
Proof.
  intros B. unfold parseMatchHtml.
  rewrite (parseRows_bad_row _ B). reflexivity.
Qed.

Lemma aggregate_bad_row d opts tables :
  forall a,
    Exists (fun b => Exists (bad_row opts) (trs (html b))) tables ->
    aggregate d opts tables a = Throw RangeError.
Proof.
  induction tables as [|b tables IH]; intros a B; [inversion B|].
  cbn [aggregate]. inversion B as [? ? Bad|? ? Later]; subst.
  - rewrite (parseMatchHtml_bad_row _ Bad). reflexivity.
  - destruct (parseMatchHtml (Some (html b)) opts) as [[r|]|e] eqn:P;
      cbn [bind]; auto.
    f_equal. eapply parseMatchHtml_only_RangeError; eauto.
Qed.

Lemma extract_bad_row opts tables :
  Exists (fun t => Exists (bad_row opts) (trs t)) tables ->
  Exists (fun b => Exists (bad_row opts) (trs (html b)))
    (extractTablesFromHtml tables).
Proof.
  unfold extractTablesFromHtml. rewrite Exists_map. apply Exists_impl.
  intros t B. exact B.
Qed.

(** X7.  One bad cell aborts the run.  When a page arrives, reports success
    and holds, in any table, a two-cell row whose value makes [parseValue]
    throw, the round throws [RangeError]: the records of the page and of
    every page before it are never serialised.  In particular a first page
    with such a cell makes the whole run fail after one request. *)
Theorem bad_cell_aborts_run
  (fetch : nat -> FetchOutcome) (cfg : Config) (p : PageJson) :
  success p = true ->
  Exists (fun t => Exists (bad_row (parse cfg)) (trs t)) (json_html p) ->
  (forall fuel st w w1,
      (page st < maxPages cfg)%Z ->
      safeFetch fetch (token_or_null (token st)) w = Some (Ok (JObject p), w1) ->
      paging fetch cfg (S fuel) st w = Some (Throw RangeError, w1))
  /\ ((1 <= maxPages cfg)%Z -> fetch 0 = ok_page p ->
      gcpdFetchAndParseAll fetch cfg
      = Some (Throw RangeError, do_fetch None start)).
Proof.
  intros Sp B.
  assert (R : forall fuel st w w1,
             (page st < maxPages cfg)%Z ->
             safeFetch fetch (token_or_null (token st)) w
             = Some (Ok (JObject p), w1) ->
             paging fetch cfg (S fuel) st w = Some (Throw RangeError, w1)).
  { intros fuel st w w1 P F. cbn [paging].
    apply Z.ltb_lt in P. rewrite P.
    unfold page_round. cbn [token agg page]. rewrite F, Sp. cbn [negb].
    rewrite aggregate_bad_row; [reflexivity|].
    apply extract_bad_row, B. }
  split; [exact R|].
  intros M F. unfold gcpdFetchAndParseAll. fold start.
  rewrite (R _ initial start (do_fetch None start)).
  - reflexivity.
  - cbn [page initial]. lia.
  - cbn [token initial token_or_null].
    apply safeFetch_ok with (status := 200%Z); [exact F|reflexivity].
Qed.

End ParseErrors.

(* ================================================================== *)
(** * A cell that is no date defeats the end of the paging loop *)
(* ================================================================== *)

Section PagingError.

Context {H : Host}.

Variable fetch : nat -> FetchOutcome.
Variable cfg : Config.

(** A round on a page that arrives and reports success, but whose tables do
    not parse: the error leaves the loop before the token is looked at. *)
Lemma paging_bad_page fuel st w w1 p :
  success p = true ->
  Exists (fun t => Exists (bad_row (parse cfg)) (trs t)) (json_html p) ->
  (page st < maxPages cfg)%Z ->
  safeFetch fetch (token_or_null (token st)) w = Some (Ok (JObject p), w1) ->
  paging fetch cfg (S fuel) st w = Some (Throw RangeError, w1).
Proof.
  intros Sp B P F. cbn [paging].
  apply Z.ltb_lt in P. rewrite P.
  unfold page_round. cbn [token agg page]. rewrite F, Sp. cbn [negb].
  rewrite aggregate_bad_row; [reflexivity|].
  apply extract_bad_row, B.
Qed.

(** C2.  The paging loop does not always end without an error.  A page that
    reports success and holds a cell at which [parseValue] throws - the
    unchecked [toISOString] of line 102 - makes the loop throw [RangeError],
    although the page brings no continuation token (a), or the token the
    request was made with (b), or is the last page [maxPages] allows (d).
    In particular, when the third page repeats the token of the second and
    holds such a cell, the run ends with that error after three requests. *)
Theorem paging_raises_on_bad_cell (p : PageJson) :
  success p = true ->
  Exists (fun t => Exists (bad_row (parse cfg)) (trs t)) (json_html p) ->
  (forall fuel st w w1,
      (page st < maxPages cfg)%Z ->
      safeFetch fetch (token_or_null (token st)) w = Some (Ok (JObject p), w1) ->
      token_or_null (continue_token p) = None
      \/ token_or_null (continue_token p) = token st
      \/ (page st + 1 >= maxPages cfg)%Z ->
      paging fetch cfg (S fuel) st w = Some (Throw RangeError, w1))
  /\ (forall p1 p2,
         (3 <= maxPages cfg)%Z ->
         fetch 0 = ok_page p1 -> fetch 1 = ok_page p2 -> fetch 2 = ok_page p ->
         success p1 = true -> success p2 = true ->
         parses cfg p1 -> parses cfg p2 ->
         token_or_null (continue_token p1) <> None ->
         token_or_null (continue_token p2) <> None ->
         token_or_null (continue_token p2)
         <> token_or_null (continue_token p1) ->
         continue_token p = continue_token p2 ->
         exists w,
           gcpdFetchAndParseAll fetch cfg = Some (Throw RangeError, w)
           /\ calls w = 3).
Proof.
  intros Sp B. split.
  - intros fuel st w w1 P F _. apply paging_bad_page with (p := p); assumption.
  - intros p1 p2 M F1 F2 F3 S1 S2 P1 P2 T1 T2 D T.
    unfold gcpdFetchAndParseAll. fold start.
    destruct (Z.to_nat (maxPages cfg)) as [|[|[|n]]] eqn:E; try lia.
    (* first page *)
    destruct (P1 (agg initial)) as [a1 A1].
    erewrite paging_round_ok;
      [| cbn [page initial]; lia
       | apply safeFetch_ok with (status := 200%Z); [exact F1 | reflexivity]
       | exact S1 | exact A1].
    cbn zeta. cbn [token initial page token_or_null].
    destruct (token_or_null (continue_token p1)) as [t1|] eqn:E1;
      [|congruence].
    cbn [token_eqb].
    (* second page *)
    destruct (P2 a1) as [a2 A2].
    erewrite paging_round_ok;
      [| cbn [page]; lia
       | apply safeFetch_ok with (status := 200%Z); [exact F2 | reflexivity]
       | exact S2 | exact A2].
    cbn zeta. cbn [token page token_or_null].
    destruct (token_or_null (continue_token p2)) as [t2|] eqn:E2;
      [|congruence].
    destruct (token_eqb (Some t2) (Some t1)) eqn:Q.
    { exfalso. simpl in Q. apply jseqb_eq in Q. congruence. }
    (* third page *)
    erewrite paging_bad_page with (p := p);
      [| exact Sp | exact B | cbn [page]; lia
       | apply safeFetch_ok with (status := 200%Z); [exact F3 | reflexivity]].
    eexists. split; reflexivity.
Qed.

End PagingError.

(* ================================================================== *)
(** * The keys of an object are kept apart *)
(* ================================================================== *)

(** The list that stands for an object never holds a key twice. *)

Section UniqueKeys.

Context {H : Host}.

Lemma keys_set o k v x :
  In x (keys (set o k v)) <-> x = k \/ In x (keys o).
Proof.
  unfold keys. induction o as [|[k' v'] o IH]; cbn [set map fst In].
  - intuition congruence.
  - destruct (jseqb k' k) eqn:E; cbn [map fst In].
    + apply jseqb_eq in E. subst. intuition congruence.
    + rewrite IH. tauto.
Qed.

Lemma keys_set_NoDup o k v : NoDup (keys o) -> NoDup (keys (set o k v)).
Proof.
  unfold keys. induction o as [|[k' v'] o IH]; cbn [set map fst]; intros N.
  - repeat constructor. intros [].
  - inversion N as [|? ? Nin N']; subst.
    destruct (jseqb k' k) eqn:E; cbn [map fst].
    + constructor; assumption.
    + constructor; [|auto].
      intros I. apply (keys_set o k v k') in I. destruct I as [->|I].
      * rewrite jseqb_refl in E. discriminate.
      * contradiction.
Qed.

(** Writing a property and reading it back. *)
Lemma own_set_same o k v : own (set o k v) k = Some v.
Proof.
  induction o as [|[k' v'] o IH]; cbn [set own].
  - rewrite jseqb_refl. reflexivity.
  - destruct (jseqb k' k) eqn:E; cbn [own]; rewrite E; auto.
Qed.

Lemma own_set_other o k v k' :
  k' <> k -> own (set o k v) k' = own o k'.
Proof.
  intros N. induction o as [|[k0 v0] o IH]; cbn [set own].
  - replace (jseqb k k') with false; auto.
    symmetry. apply jseqb_neq. congruence.
  - destruct (jseqb k0 k) eqn:E; cbn [own].
    + apply jseqb_eq in E. subst k0.
      replace (jseqb k k') with false; auto.
      symmetry. apply jseqb_neq. congruence.
    + rewrite IH. reflexivity.
Qed.

Lemma parseRows_NoDup opts rows :
  forall out out',
    parseRows opts rows out = Ok out' ->
    NoDup (keys out) -> NoDup (keys out').
Proof.
  induction rows as [|cells rows IH]; intros out out'; cbn [parseRows].
  - intros [= <-]; auto.
  - destruct cells as [|c0 [|c1 [|c2 cells]]]; eauto.
    destruct (parseValue (Some (trim c1)) opts); cbn [bind];
      [|discriminate].
    intros P N. eapply IH; eauto. apply keys_set_NoDup; exact N.
Qed.

Lemma parseMatchHtml_NoDup t opts r :
  parseMatchHtml t opts = Ok (Some r) -> NoDup (keys r).
Proof.
  unfold parseMatchHtml. destruct t as [t|]; [|discriminate].
  destruct (parseRows opts (trs t) _) as [out'|] eqn:P; cbn [bind];
    [|discriminate].
  intros [= <-]. eapply parseRows_NoDup; eauto.
  destruct (th t) as [text|]; [|constructor].
  destruct (header_pattern_search (trim text)); apply keys_set_NoDup;
    constructor.
Qed.

Lemma inject_id_NoDup t_id r : NoDup (keys r) -> NoDup (keys (inject_id t_id r)).
Proof.
  intros N. unfold inject_id. destruct t_id as [[|c i]|]; auto.
  destruct (truthy (get r (js "match_id"))); auto.
  apply keys_set_NoDup; exact N.
Qed.

Lemma aggregate_NoDup d opts tables :
  forall a a',
    aggregate d opts tables a = Ok a' ->
    Forall (fun r => NoDup (keys r)) (results a) ->
    Forall (fun r => NoDup (keys r)) (results a').
Proof.
  induction tables as [|b tables IH]; intros a a'; cbn [aggregate].
  - intros [= <-]; auto.
  - destruct (parseMatchHtml (Some (html b)) opts) as [[r|]|e] eqn:P;
      cbn [bind]; try discriminate; eauto.
    intros A F. eapply IH; eauto.
    unfold admit_record.
    destruct (_ && _); cbn [fst results]; auto.
    apply Forall_app. split; auto. constructor; [|constructor].
    apply inject_id_NoDup. eapply parseMatchHtml_NoDup; eauto.
Qed.

End UniqueKeys.

(* ================================================================== *)
(** * The last row of a key gives the value *)
(* ================================================================== *)

Section LastRow.

Context {H : Host}.

Lemma get_set_same o k v : get (set o k v) k = v.
Proof. unfold get. rewrite own_set_same. reflexivity. Qed.

Lemma get_set_other o k v k' : k' <> k -> get (set o k v) k' = get o k'.
Proof. intros N. unfold get. rewrite own_set_other by exact N. reflexivity. Qed.

(** Rows stored under other names leave the property alone. *)
Lemma parseRows_other opts k rows :
  forall out out',
    parseRows opts rows out = Ok out' ->
    (forall c0 c1, In [c0; c1] rows -> field_name c0 <> k) ->
    get out' k = get out k.
Proof.
  induction rows as [|cells rows IH]; intros out out'; cbn [parseRows].
  - intros [= <-] _. reflexivity.
  - intros P O.
    assert (O' : forall c0 c1, In [c0; c1] rows -> field_name c0 <> k).
    { intros c0 c1 I. apply (O c0 c1). right. exact I. }
    destruct cells as [|c0 [|c1 [|c2 cells]]]; try (apply IH; assumption).
    destruct (parseValue (Some (trim c1)) opts) as [v|]; cbn [bind] in P;
      [|discriminate].
    rewrite (IH _ _ P O'). apply get_set_other.
    intros E. apply (O c0 c1); [left; reflexivity|].
    symmetry. exact E.
Qed.

Lemma parseRows_last opts c0 c1 post pre :
  forall out out',
    parseRows opts (pre ++ [c0; c1] :: post) out = Ok out' ->
    (forall d0 d1, In [d0; d1] post -> field_name d0 <> field_name c0) ->
    parseValue (Some (trim c1)) opts = Ok (get out' (field_name c0)).
Proof.
  induction pre as [|cells pre IH]; intros out out'; cbn [app parseRows].
  - destruct (parseValue (Some (trim c1)) opts) as [v|]; cbn [bind];
      [|discriminate].
    intros P O. rewrite (parseRows_other _ _ _ P O).
    fold (field_name c0). rewrite get_set_same. reflexivity.
  - destruct cells as [|e0 [|e1 [|e2 cells]]]; try (apply IH).
    destruct (parseValue (Some (trim e1)) opts) as [v|]; cbn [bind];
      [|discriminate].
    apply IH.
Qed.

(** X8.  A later row overwrites an earlier one.  In the record
    [parseMatchHtml] returns, the property a two-cell row is stored under
    holds the parsed value of the last row stored under that name, also
    when the name is the [match_id] or [match_title] of the header; a
    property that no two-cell row is stored under is as the header left
    it. *)
Theorem last_row_gives_the_value (t : Table) (opts : ParseOpts) (r : jsobject) :
  parseMatchHtml (Some t) opts = Ok (Some r) ->
  (forall pre c0 c1 post,
      trs t = pre ++ [c0; c1] :: post ->
      (forall d0 d1, In [d0; d1] post -> field_name d0 <> field_name c0) ->
      parseValue (Some (trim c1)) opts = Ok (get r (field_name c0)))
  /\ (forall k,
         (forall c0 c1, In [c0; c1] (trs t) -> field_name c0 <> k) ->
         get r k = get (header_record t) k).
Proof.
  unfold parseMatchHtml. fold (header_record t).
  destruct (parseRows opts (trs t) (header_record t)) as [out|] eqn:P;
    cbn [bind]; [|discriminate].
  intros [= <-]. split.
  - intros pre c0 c1 post E O. rewrite E in P.
    exact (parseRows_last _ _ _ _ _ _ P O).
  - intros k O. exact (parseRows_other _ _ _ P O).
Qed.

End LastRow.


(* ================================================================== *)
(** * The match number of a header *)
(* ================================================================== *)

Lemma take_while_app_stop p x b :
  forallb (fun c => negb (p c)) b = true ->
  take_while p (x ++ b) = take_while p x.
Proof.
  intros B. induction x as [|c x IH]; simpl.
  - destruct b as [|c b]; auto. simpl in B.
    apply andb_true_iff in B; destruct B as [B _].
    apply negb_true_iff in B. simpl. rewrite B. reflexivity.
  - destruct (p c); [rewrite IH|]; reflexivity.
Qed.

Lemma digits_after_spaces_app rest b :
  forallb is_space b = true ->
  take_while is_digit (drop_while is_space (rest ++ b))
  = take_while is_digit (drop_while is_space rest).
Proof.
  intros B.
  destruct (drop_while is_space rest) as [|c x] eqn:D.
  - apply drop_while_nil_all in D.
    rewrite (drop_while_app_all _ _ _ D), (drop_while_all _ _ B). reflexivity.
  - rewrite drop_while_app_tail by congruence. rewrite D.
    apply take_while_app_stop. revert B. apply forallb_impl.
    intros d E. char_solve.
Qed.

Lemma lower_letter_no_space c :
  in_range 97 122 (lower_ascii c) = true -> is_space c = false.
Proof. intros E. char_solve. Qed.

(** The five letters of the pattern are matched by letters. *)
Lemma match_letters_no_space l :
  jseqb (map lower_ascii l) (js "match") = true ->
  forall c, In c l -> is_space c = false.
Proof.
  intros E. apply jseqb_eq in E.
  change (js "match") with [109; 97; 116; 99; 104]%N in E.
  do 5 (destruct l as [|? l]; [discriminate|]).
  destruct l; [|discriminate].
  injection E as E1 E2 E3 E4 E5.
  intros c [<-|[<-|[<-|[<-|[<-|[]]]]]]; apply lower_letter_no_space;
    first [rewrite E1 | rewrite E2 | rewrite E3 | rewrite E4 | rewrite E5];
    reflexivity.
Qed.

Lemma header_here_some s d :
  header_pattern_here s = Some d ->
  exists c1 c2 c3 c4 c5 rest,
    s = c1 :: c2 :: c3 :: c4 :: c5 :: rest
    /\ jseqb (map lower_ascii [c1; c2; c3; c4; c5]) (js "match") = true
    /\ d = take_while is_digit (drop_while is_space rest) /\ d <> [].
Proof.
  unfold header_pattern_here.
  do 5 (destruct s as [|? s]; [discriminate|]).
  destruct (jseqb _ _) eqn:E; [|discriminate].
  destruct (take_while is_digit (drop_while is_space s)) eqn:T;
    [discriminate|].
  intros [= <-]. do 6 eexists. repeat split; eauto. discriminate.
Qed.

Lemma header_here_space_first c s :
  is_space c = true -> header_pattern_here (c :: s) = None.
Proof.
  intros Sp. destruct (header_pattern_here (c :: s)) as [d|] eqn:E; auto.
  apply header_here_some in E.
  destruct E as (c1 & c2 & c3 & c4 & c5 & rest & X & M & _).
  injection X as <- _.
  rewrite (match_letters_no_space _ M c) in Sp; [discriminate|].
  simpl. auto.
Qed.

Lemma header_here_app_spaces s b :
  forallb is_space b = true ->
  header_pattern_here (s ++ b) = header_pattern_here s.
Proof.
  intros B.
  destruct (header_pattern_here s) as [d|] eqn:E.
  - apply header_here_some in E.
    destruct E as (c1 & c2 & c3 & c4 & c5 & rest & -> & M & -> & N).
    cbn [app]. unfold header_pattern_here. rewrite M.
    rewrite (digits_after_spaces_app _ _ B).
    destruct (take_while is_digit (drop_while is_space rest));
      [congruence|reflexivity].
  - destruct (header_pattern_here (s ++ b)) as [d|] eqn:E'; auto.
    exfalso. apply header_here_some in E'.
    destruct E' as (c1 & c2 & c3 & c4 & c5 & rest & X & M & D & N).
    pose proof (match_letters_no_space _ M) as NS.
    rewrite forallb_forall in B.
    assert (Sp : forall c, In c b -> In c [c1; c2; c3; c4; c5] -> False).
    { intros c Ib Il. specialize (B c Ib). rewrite (NS c Il) in B.
      discriminate. }
    (* either [s] holds the five letters, or one of them is in [b] *)
    destruct s as [|a1 [|a2 [|a3 [|a4 [|a5 s']]]]]; cbn [app] in X.
    + destruct b as [|b1 b']; [discriminate|]. injection X as <-.
      apply (Sp b1); simpl; auto.
    + destruct b as [|b1 b']; [discriminate|]. injection X as _ <-.
      apply (Sp b1); simpl; auto.
    + destruct b as [|b1 b']; [discriminate|]. injection X as _ _ <-.
      apply (Sp b1); simpl; auto.
    + destruct b as [|b1 b']; [discriminate|]. injection X as _ _ _ <-.
      apply (Sp b1); simpl; auto.
    + destruct b as [|b1 b']; [discriminate|]. injection X as _ _ _ _ <-.
      apply (Sp b1); simpl; auto 6.
    + injection X as <- <- <- <- <- <-.
      unfold header_pattern_here in E. rewrite M in E.
      rewrite (digits_after_spaces_app s' b) in D.
      * rewrite <- D in E. destruct d; [congruence|discriminate].
      * apply forallb_forall. exact B.
Qed.

Lemma header_search_spaces b :
  forallb is_space b = true -> header_pattern_search b = None.
Proof.
  induction b as [|c b IH]; [reflexivity|]. simpl forallb.
  intros E; apply andb_true_iff in E; destruct E as [Ec Eb].
  cbn [header_pattern_search]. rewrite header_here_space_first by exact Ec.
  auto.
Qed.

Lemma header_search_app_spaces s b :
  forallb is_space b = true ->
  header_pattern_search (s ++ b) = header_pattern_search s.
Proof.
  intros B. induction s as [|c s IH].
  - cbn [app]. rewrite (header_search_spaces _ B). reflexivity.
  - change ((c :: s) ++ b) with (c :: (s ++ b)).
    cbn [header_pattern_search].
    change (c :: (s ++ b)) with ((c :: s) ++ b).
    rewrite (header_here_app_spaces _ _ B), IH. reflexivity.
Qed.

Lemma header_search_spaces_app a s :
  forallb is_space a = true ->
  header_pattern_search (a ++ s) = header_pattern_search s.
Proof.
  induction a as [|c a IH]; [reflexivity|]. simpl forallb.
  intros E; apply andb_true_iff in E; destruct E as [Ec Ea].
  change ((c :: a) ++ s) with (c :: (a ++ s)).
  cbn [header_pattern_search]. rewrite header_here_space_first by exact Ec.
  auto.
Qed.

(** Trimming the header text does not change the number found in it. *)
Lemma header_search_trim text :
  header_pattern_search (trim text) = header_pattern_search text.
Proof.
  destruct (trim_decompose text) as (a & b & E & A & B).
  rewrite E at 2.
  rewrite (header_search_spaces_app _ _ A), (header_search_app_spaces _ _ B).
  reflexivity.
Qed.

Lemma header_search_digits s d :
  header_pattern_search s = Some d ->
  d <> [] /\ forallb is_digit d = true.
Proof.
  induction s as [|c s IH]; cbn [header_pattern_search].
  - cbn. discriminate.
  - destruct (header_pattern_here (c :: s)) as [d'|] eqn:E; auto.
    intros [= <-]. apply header_here_some in E.
    destruct E as (c1 & c2 & c3 & c4 & c5 & rest & _ & _ & -> & N).
    split; auto. apply forallb_take_while.
Qed.

Section HeaderId.

Context {H : Host}.

(** X9.  White space around a header text does not change the match number
    read off it: the pattern finds the same number in the text as it is
    (line 167) and in the trimmed text (line 141), and with any white
    space put around it.  The number is a non-empty string of digits, so
    that an id injected at line 376 leaves the record with a truthy
    match_id. *)
Theorem header_number_ignores_trim (text : jsstring) :
  header_pattern_search (trim text) = header_pattern_search text
  /\ (forall a b,
         forallb is_space a = true -> forallb is_space b = true ->
         header_pattern_search (a ++ text ++ b) = header_pattern_search text)
  /\ (forall d,
         header_pattern_search text = Some d ->
         d <> [] /\ forallb is_digit d = true
         /\ forall r,
              truthy (get (inject_id (Some d) r) (js "match_id")) = true).
Proof.
  split; [apply header_search_trim|]. split.
  - intros a b A B.
    rewrite (header_search_spaces_app _ _ A), (header_search_app_spaces _ _ B).
    reflexivity.
  - intros d E. destruct (header_search_digits _ E) as [N D].
    repeat split; auto.
    intros r. unfold inject_id. destruct d as [|c i]; [congruence|].
    destruct (truthy (get r (js "match_id"))) eqn:T; auto.
    unfold get. rewrite own_set_same. reflexivity.
Qed.

End HeaderId.

(* ================================================================== *)
(** * How the results grow *)
(* ================================================================== *)

Section Growth.

Context {H : Host}.

(** X10.  The aggregation loop only ever appends: the records admitted so
    far stay, in their order, and a page adds at most one record per table;
    identity keys once seen stay seen.  With [dedupe] off it adds exactly
    one record per table and never touches the seen-set. *)
Theorem aggregate_appends (d : bool) (opts : ParseOpts)
  (tables : list Block) (a a' : Aggregate) :
  aggregate d opts tables a = Ok a' ->
  exists more,
    results a' = results a ++ more
    /\ List.length more <= List.length tables
    /\ (d = false -> seen a' = seen a
                     /\ List.length more = List.length tables)
    /\ (forall k, In k (seen a) -> In k (seen a')).
Proof.
  revert a a'.
  induction tables as [|b tables IH]; intros a a'; cbn [aggregate].
  - intros [= <-]. exists []. rewrite app_nil_r. auto.
  - unfold parseMatchHtml.
    destruct (parseRows opts (trs (html b)) _) as [r|e]; cbn [bind];
      [|discriminate].
    intros A. apply IH in A. destruct A as (more & R & L & Off & Sn).
    unfold admit_record in *.
    set (p := inject_id (id b) r) in *.
    destruct (negb (jseqb (dedupe_key d p) [])
              && Set_has (seen a) (dedupe_key d p)) eqn:E;
      cbn [fst results seen] in *.
    + exists more. cbn [List.length].
      split; [exact R|]. split; [lia|]. split; [|exact Sn].
      intros ->. cbn in E. discriminate.
    + exists (p :: more). rewrite R, <- app_assoc. cbn [app List.length].
      split; [reflexivity|]. split; [lia|]. split.
      * intros ->. destruct (Off eq_refl) as [X Y]. split; [exact X|lia].
      * intros k I. apply Sn.
        destruct (negb (jseqb (dedupe_key d p) [])); auto.
        apply Set_add_In. auto.
Qed.

End Growth.

(* ================================================================== *)
(** * The exported text can be read back *)
(* ================================================================== *)

Lemma not_special c :
  is_csv_special c = false ->
  N.eqb c 34 = false /\ N.eqb c 44 = false /\ N.eqb c 10 = false.
Proof.
  unfold is_csv_special. intros E.
  apply orb_false_iff in E; destruct E as [E E3].
  apply orb_false_iff in E; destruct E as [E1 E2]. auto.
Qed.

Lemma csv_read_plain f :
  forall st acc row c t,
    test_class is_csv_special f = false ->
    test_class is_cr f = false ->
    N.eqb c 44 || N.eqb c 10 = true ->
    st = FieldStart \/ st = InPlain ->
    csv_read st acc row (f ++ c :: t) = end_of_field (rev acc ++ f) row c t.
Proof.
  unfold test_class.
  induction f as [|x f IH]; intros st acc row c t S R D St.
  - rewrite app_nil_r. cbn [app csv_read]. unfold end_of_field.
    destruct (N.eqb c 44) eqn:C44.
    + destruct St as [->| ->]; reflexivity.
    + cbn [orb] in D. rewrite D. destruct St as [->| ->]; reflexivity.
  - cbn [existsb] in S. apply orb_false_iff in S; destruct S as [Sx Sf].
    cbn [existsb] in R. apply orb_false_iff in R; destruct R as [Rx Rf].
    unfold is_cr in Rx.
    destruct (not_special _ Sx) as (Q & C & L).
    cbn [app csv_read]. rewrite Q, C, L, Rx.
    replace (rev acc ++ x :: f) with (rev (x :: acc) ++ f)
      by (cbn [rev]; rewrite <- app_assoc; reflexivity).
    destruct St as [->| ->]; apply IH; auto.
Qed.

Lemma delimiter_no_quote c :
  N.eqb c 44 || N.eqb c 10 = true -> N.eqb c 34 = false.
Proof.
  intros D. apply orb_true_iff in D.
  destruct D as [D|D]; apply N.eqb_eq in D; subst; reflexivity.
Qed.

Lemma csv_read_closing acc row t :
  csv_read InQuoted acc row (dquote ++ t) = csv_read AfterQuote acc row t.
Proof. reflexivity. Qed.

Lemma csv_read_doubled acc row t :
  csv_read InQuoted acc row (dquote ++ dquote ++ t)
  = csv_read InQuoted (34%N :: acc) row t.
Proof. reflexivity. Qed.

Lemma csv_read_inside x acc row t :
  N.eqb x 34 = false ->
  csv_read InQuoted acc row (x :: t) = csv_read InQuoted (x :: acc) row t.
Proof. intros E. cbn [csv_read]. rewrite E. reflexivity. Qed.

Lemma csv_read_after_quote acc row c t :
  N.eqb c 44 || N.eqb c 10 = true ->
  csv_read AfterQuote acc row (c :: t) = end_of_field (rev acc) row c t.
Proof.
  intros D. cbn [csv_read]. rewrite (delimiter_no_quote _ D).
  unfold end_of_field. destruct (N.eqb c 44); [reflexivity|].
  cbn [orb] in D. rewrite D. reflexivity.
Qed.

Lemma csv_read_opening row t :
  csv_read FieldStart [] row (dquote ++ t) = csv_read InQuoted [] row t.
Proof. reflexivity. Qed.

Lemma csv_read_quoted f :
  forall acc row c t,
    N.eqb c 44 || N.eqb c 10 = true ->
    csv_read InQuoted acc row
      (replace_each (N.eqb 34) (dquote ++ dquote) f ++ dquote ++ c :: t)
    = end_of_field (rev acc ++ f) row c t.
Proof.
  induction f as [|x f IH]; intros acc row c t D.
  - rewrite app_nil_r.
    change (replace_each (N.eqb 34) (dquote ++ dquote) [] ++ dquote ++ c :: t)
      with (dquote ++ c :: t).
    rewrite csv_read_closing. apply csv_read_after_quote. exact D.
  - rewrite replace_each_cons.
    replace (rev acc ++ x :: f) with (rev (x :: acc) ++ f)
      by (cbn [rev]; rewrite <- app_assoc; reflexivity).
    destruct (N.eqb_spec 34 x) as [<-|N].
    + rewrite <- !app_assoc. rewrite csv_read_doubled. apply IH. exact D.
    + change (([x] ++ ?a) ++ ?b) with (x :: (a ++ b)).
      rewrite csv_read_inside by (apply N.eqb_neq; congruence).
      apply IH. exact D.
Qed.

(** One written field, up to its delimiter, is read as the text that was
    written. *)
Lemma csv_read_field f row c t :
  no_bare_cr f = true ->
  N.eqb c 44 || N.eqb c 10 = true ->
  csv_read FieldStart [] row (field_text f ++ c :: t) = end_of_field f row c t.
Proof.
  unfold no_bare_cr. intros R D. unfold field_text.
  destruct (test_class is_csv_special f) eqn:S.
  - unfold quote_field. rewrite <- !app_assoc. rewrite csv_read_opening.
    change (end_of_field f row c t) with (end_of_field (rev [] ++ f) row c t).
    apply csv_read_quoted. exact D.
  - change (end_of_field f row c t) with (end_of_field (rev [] ++ f) row c t).
    cbn [orb] in R. apply negb_true_iff in R.
    apply csv_read_plain; auto.
Qed.

Lemma csv_read_row fs :
  fs <> [] ->
  forallb no_bare_cr fs = true ->
  forall row t,
    csv_read FieldStart [] row
      (join (js ",") (map field_text fs) ++ newline ++ t)
    = option_map (cons (rev row ++ fs)) (csv_read FieldStart [] [] t).
Proof.
  induction fs as [|f fs IH]; [congruence|]. intros _ R row t.
  cbn [forallb] in R. apply andb_true_iff in R; destruct R as [Rf Rfs].
  destruct fs as [|g fs].
  - cbn [map join]. unfold newline. cbn [app].
    rewrite csv_read_field; [| exact Rf | reflexivity].
    unfold end_of_field. cbn [N.eqb Pos.eqb rev]. reflexivity.
  - cbn [map join]. change (js ",") with [44%N].
    rewrite <- !app_assoc. cbn [app].
    rewrite csv_read_field; [| exact Rf | reflexivity].
    unfold end_of_field. cbn [N.eqb Pos.eqb].
    change [44%N] with (js ",") .
    change (field_text g :: map field_text fs) with (map field_text (g :: fs)).
    rewrite IH; [| discriminate | exact Rfs].
    cbn [rev]. rewrite <- app_assoc. reflexivity.
Qed.

Lemma csv_read_rows (rows : list (list jsstring)) :
  Forall (fun fs => fs <> [] /\ forallb no_bare_cr fs = true) rows ->
  read_csv
    (List.concat
       (map (fun fs => join (js ",") (map field_text fs) ++ newline) rows))
  = Some rows.
Proof.
  unfold read_csv. induction 1 as [|fs rows [N R] _ IH]; [reflexivity|].
  cbn [map List.concat]. rewrite <- app_assoc.
  rewrite csv_read_row by assumption. rewrite IH. reflexivity.
Qed.

Lemma distinctb_NoDup l : distinctb l = true -> NoDup l.
Proof.
  induction l as [|x l IH]; cbn [distinctb]; [constructor|].
  intros E; apply andb_true_iff in E; destruct E as [Ex El].
  constructor; auto.
  intros I. apply Set_has_In in I. rewrite I in Ex. discriminate.
Qed.

Lemma sorted_NoDup l : StronglySorted js_lt l -> NoDup l.
Proof.
  induction 1 as [|a l S IH F]; constructor; auto.
  intros I. rewrite Forall_forall in F. specialize (F _ I).
  unfold js_lt in F. rewrite js_ltb_irrefl in F. discriminate.
Qed.

Lemma NoDup_append (a b : list jsstring) :
  NoDup a -> NoDup b -> (forall x, In x b -> ~ In x a) -> NoDup (a ++ b).
Proof.
  induction 1 as [|x a Nx Na IH]; intros Nb D; cbn [app]; auto.
  constructor.
  - rewrite in_app_iff. intros [I|I]; [contradiction|].
    apply (D x I). simpl. auto.
  - apply IH; auto. intros y I J. apply (D y I). simpl. auto.
Qed.

Section ReadBack.

Context {H : Host}.

Lemma esc_field_text v : esc v = field_text (text_of v).
Proof. destruct v; reflexivity. Qed.

(** X11.  The header never names a column twice, given that the fixed
    order does not - and the fixed order of the script, [ORDERED_COLUMNS],
    does not. *)
Theorem buildCsv_headers_distinct (rows : list jsobject) :
  (forall fixedOrder,
      NoDup fixedOrder -> NoDup (headers (buildCsv rows fixedOrder)))
  /\ NoDup ORDERED_COLUMNS
  /\ NoDup (headers (buildCsv rows ORDERED_COLUMNS)).
Proof.
  assert (G : forall fixedOrder,
             NoDup fixedOrder -> NoDup (headers (buildCsv rows fixedOrder))).
  { intros fixedOrder N. cbn [buildCsv headers].
    destruct (collect_rows_spec fixedOrder rows (NoDup_nil _)) as [ND M].
    rewrite <- collect_extras_fold in ND, M.
    destruct (sort_spec ND) as [S MS].
    apply NoDup_append; auto.
    - apply sorted_NoDup, S.
    - intros x I. apply MS, M in I. simpl in I.
      destruct I as [[]|[_ I]]. apply is_extra_spec in I. tauto. }
  assert (O : NoDup ORDERED_COLUMNS).
  { apply distinctb_NoDup. vm_compute. reflexivity. }
  auto.
Qed.

(** X12.  The exported text is well-formed CSV and loses nothing, as long
    as no carriage return is left outside quotes.  When there is a header,
    no header name contains a double quote, a comma, a line feed or a
    carriage return, and every value text that contains a carriage return
    also contains a double quote, a comma or a line feed (the escaper
    quotes for these three only), a standard reader gets back the header
    row and, for every record in order, one field per header holding the
    text of the record's value under that header - the empty text where
    the value is [null] or missing. *)
Theorem buildCsv_reads_back (rows : list jsobject) (fixedOrder : list jsstring) :
  let out := buildCsv rows fixedOrder in
  headers out <> [] ->
  Forall (fun h => test_class is_csv_special h = false
                   /\ test_class is_cr h = false) (headers out) ->
  Forall (fun row =>
            Forall (fun h => no_bare_cr (text_of (get row h)) = true)
              (headers out)) rows ->
  read_csv (csv out)
  = Some (headers out
          :: map (fun row => map (fun h => text_of (get row h)) (headers out))
               rows).
Proof.
  cbn zeta. cbn [buildCsv headers csv].
  set (hs := fixedOrder ++ sort (collect_extras fixedOrder rows)).
  intros N P V.
  assert (Hd : map field_text hs = hs).
  { clear N V. induction P as [|h l [Ph _] _ IH]; [reflexivity|].
    cbn [map]. unfold field_text at 1. rewrite Ph, IH. reflexivity. }
  assert (Hr : forallb no_bare_cr hs = true).
  { apply forallb_forall. intros h I. rewrite Forall_forall in P.
    destruct (P h I) as [_ R]. unfold no_bare_cr. rewrite R.
    apply orb_true_r. }
  unfold read_csv. rewrite <- Hd at 1.
  rewrite csv_read_row by assumption. cbn [rev app].
  replace (map (fun row => join (js ",") (map (fun h => esc (get row h)) hs)
                           ++ newline) rows)
    with (map (fun fs => join (js ",") (map field_text fs) ++ newline)
            (map (fun row => map (fun h => text_of (get row h)) hs) rows)).
  - fold (read_csv
            (List.concat
               (map (fun fs => join (js ",") (map field_text fs) ++ newline)
                  (map (fun row => map (fun h => text_of (get row h)) hs)
                     rows)))).
    rewrite csv_read_rows; [reflexivity|].
    apply Forall_forall. intros fs I. apply in_map_iff in I.
    destruct I as [row [<- I]]. split.
    + destruct hs; [congruence|discriminate].
    + rewrite Forall_forall in V. specialize (V row I).
      rewrite forallb_forall. intros f J. apply in_map_iff in J.
      destruct J as [h [<- J]]. rewrite Forall_forall in V. exact (V h J).
  - rewrite map_map. apply map_ext. intros row. f_equal. f_equal.
    rewrite map_map. apply map_ext. intros h. symmetry. apply esc_field_text.
Qed.

End ReadBack.

(* ================================================================== *)
(** * Labels that normalise alike *)
(* ================================================================== *)

Section ClassPreserving.

(** A map on code units that keeps every unit in its class. *)
Variable f : jschar -> jschar.

Lemma drop_while_map p s :
  (forall c, p (f c) = p c) ->
  drop_while p (map f s) = map f (drop_while p s).
Proof.
  intros P. induction s as [|c s IH]; simpl; auto.
  rewrite P. destruct (p c); auto.
Qed.

Lemma trim_map s :
  (forall c, is_space (f c) = is_space c) ->
  trim (map f s) = map f (trim s).
Proof.
  intros P. unfold trim.
  rewrite drop_while_map, <- map_rev, drop_while_map, <- map_rev by exact P.
  reflexivity.
Qed.

Lemma replace_each_map p r s :
  (forall c, p (f c) = p c) -> map f r = r ->
  replace_each p r (map f s) = map f (replace_each p r s).
Proof.
  intros P R. unfold replace_each.
  induction s as [|c s IH]; simpl; auto.
  rewrite map_app, IH, P. destruct (p c); [rewrite R|]; reflexivity.
Qed.

Lemma replace_runs_from_map p r b s :
  (forall c, p (f c) = p c) -> map f r = r ->
  replace_runs_from p r b (map f s) = map f (replace_runs_from p r b s).
Proof.
  intros P R. revert b. induction s as [|c s IH]; intros b; simpl; auto.
  rewrite P. destruct (p c).
  - rewrite map_app, IH. destruct b; [|rewrite R]; reflexivity.
  - simpl. rewrite IH. reflexivity.
Qed.

End ClassPreserving.

Lemma lower_ascii_idem c : lower_ascii (lower_ascii c) = lower_ascii c.
Proof.
  unfold lower_ascii. destruct (in_range 65 90 c) eqn:E; [|rewrite E; auto].
  replace (in_range 65 90 (c + 32)) with false; auto.
  symmetry. unfold in_range in *. char_solve.
Qed.

Lemma lower_ascii_space c : is_space (lower_ascii c) = is_space c.
Proof.
  unfold lower_ascii. destruct (in_range 65 90 c) eqn:E; auto.
  replace (is_space c) with false by (symmetry; char_solve).
  char_solve.
Qed.

Lemma lower_ascii_separator c : is_separator (lower_ascii c) = is_separator c.
Proof.
  unfold lower_ascii. destruct (in_range 65 90 c) eqn:E; auto.
  replace (is_separator c) with false by (symmetry; char_solve).
  char_solve.
Qed.

Lemma lower_ascii_word c : is_word (lower_ascii c) = is_word c.
Proof.
  unfold lower_ascii. destruct (in_range 65 90 c) eqn:E; auto.
  replace (is_word c) with true by (symmetry; char_solve).
  char_solve.
Qed.

Lemma lower_ascii_nbsp c : N.eqb 160 (lower_ascii c) = N.eqb 160 c.
Proof.
  unfold lower_ascii. destruct (in_range 65 90 c) eqn:E; auto.
  replace (N.eqb 160 c) with false by (symmetry; char_solve).
  char_solve.
Qed.

Section NormaliserMore.

Context {H : Host}.

Lemma replace_each_app p r (a b : jsstring) :
  replace_each p r (a ++ b) = replace_each p r a ++ replace_each p r b.
Proof. apply flat_map_app. Qed.

(** White space around a label is gone before anything else happens. *)
Lemma normalizeKey_spaces_around label a b :
  forallb is_space a = true -> forallb is_space b = true ->
  normalizeKey (a ++ label ++ b) = normalizeKey label.
Proof.
  intros A B. unfold normalizeKey. cbv zeta.
  rewrite !replace_each_app.
  rewrite trim_spaces_around; [reflexivity| |];
    (apply forallb_replace_each; [reflexivity|]);
    [revert A | revert B]; apply forallb_impl; intros c E; rewrite E;
    apply orb_true_r.
Qed.

Context {L : HostLaws H}.

(** X13.  [normalizeKey] returns only the code units a-z, 0-9 and
    underscore; white space around a label does not change its key; labels
    that differ only in the case of their ASCII letters get the same key. *)
Theorem normalizeKey_insensitive (label : jsstring) :
  forallb is_key_char (normalizeKey label) = true
  /\ (forall a b,
         forallb is_space a = true -> forallb is_space b = true ->
         normalizeKey (a ++ label ++ b) = normalizeKey label)
  /\ normalizeKey (trim label) = normalizeKey label
  /\ normalizeKey (map lower_ascii label) = normalizeKey label.
Proof.
  split; [apply normalizeKey_chars|].
  split; [apply normalizeKey_spaces_around|]. split.
  - destruct (trim_decompose label) as (a & b & E & A & B).
    rewrite E at 2. symmetry. apply normalizeKey_spaces_around; assumption.
  - unfold normalizeKey.
    rewrite (@replace_each_map lower_ascii (N.eqb 160) (js " ") label
               lower_ascii_nbsp eq_refl).
    rewrite (@trim_map lower_ascii _ lower_ascii_space).
    unfold replace_runs.
    rewrite (@replace_runs_from_map lower_ascii is_separator (js " ") false _
               lower_ascii_separator eq_refl).
    rewrite (@replace_each_map lower_ascii
               (fun c => negb (is_word c || is_space c)) [] _).
    2:{ intros c. rewrite lower_ascii_word, lower_ascii_space. reflexivity. }
    2:{ reflexivity. }
    set (s1 := replace_each (fun c => negb (is_word c || is_space c)) [] _).
    assert (P : forallb plain s1 = true).
    { assert (X : forallb (fun c => is_word c || is_space c) s1 = true).
      { apply forallb_replace_each; [reflexivity|].
        apply forallb_all. intros c.
        destruct (is_word c || is_space c); auto. }
      revert X. apply forallb_impl. intros c E. char_solve. }
    assert (P' : forallb plain (map lower_ascii s1) = true).
    { revert P. apply forallb_map_lower. intros c E. char_solve. }
    rewrite (toLowerCase_plain _ P'), (toLowerCase_plain _ P).
    rewrite map_map. f_equal. apply map_ext. apply lower_ascii_idem.
Qed.

End NormaliserMore.

(* ================================================================== *)
(** * The keys of a parsed record *)
(* ================================================================== *)

Lemma key_chars_not_special k :
  forallb is_key_char k = true -> test_class is_csv_special k = false.
Proof.
  unfold test_class. induction k as [|c k IH]; simpl; auto.
  intros E; apply andb_true_iff in E; destruct E as [Ec Ek].
  rewrite (IH Ek), orb_false_r. char_solve.
Qed.

Section RecordKeys.

Context {H : Host} {L : HostLaws H}.

Lemma field_key label :
  normalizeKey label <> js "constructor" ->
  normalizeKey label <> js "__proto__" ->
  ToString (canonicalize CANONICAL_MAP (normalizeKey label))
  = normalizeKey label.
Proof.
  intros N1 N2.
  destruct (own CANONICAL_MAP (normalizeKey label)) as [v|] eqn:O.
  - destruct (own_CANONICAL_MAP _ O) as [-> _].
    rewrite canonicalize_cases, O. reflexivity.
  - rewrite canonicalize_passes_through; auto. apply normalizeKey_chars.
Qed.

Lemma parseRows_keys opts (P : jsstring -> Prop) rows :
  forall out out',
    parseRows opts rows out = Ok out' ->
    plain_labels rows ->
    (forall c0 c1, In [c0; c1] rows -> P (normalizeKey (trim c0))) ->
    (forall k, In k (keys out) -> P k) ->
    forall k, In k (keys out') -> P k.
Proof.
  unfold plain_labels.
  induction rows as [|cells rows IH]; intros out out'; cbn [parseRows].
  - intros [= <-]; auto.
  - intros E Pl Lab Old.
    assert (Pl' : forall c0 c1, In [c0; c1] rows ->
                                normalizeKey (trim c0) <> js "constructor"
                                /\ normalizeKey (trim c0) <> js "__proto__").
    { intros c0 c1 I. apply (Pl c0 c1). right. exact I. }
    assert (Lab' : forall c0 c1, In [c0; c1] rows ->
                                 P (normalizeKey (trim c0))).
    { intros c0 c1 I. eapply Lab. right. exact I. }
    destruct cells as [|c0 [|c1 [|c2 cells]]]; try (eapply IH; now eauto).
    destruct (parseValue (Some (trim c1)) opts) as [v|]; cbn [bind] in E;
      [|discriminate].
    eapply IH; eauto.
    intros k I. apply keys_set in I. destruct I as [->|I]; auto.
    destruct (Pl c0 c1) as [N1 N2]; [left; reflexivity|].
    rewrite field_key by assumption. eapply Lab. left. reflexivity.
Qed.

(** X14.  The keys of a parsed record.  When no row label of the table
    normalises to [constructor] or [__proto__], every key of the record is
    [match_id], [match_title] or the normalised label of a two-cell row; so
    it is made of a-z, 0-9 and underscore, and needs no escaping as a
    column name. *)
Theorem record_keys_are_normalised_labels
  (t : Table) (opts : ParseOpts) (r : jsobject) :
  parseMatchHtml (Some t) opts = Ok (Some r) ->
  plain_labels (trs t) ->
  forall k, In k (keys r) ->
            key_origin t k
            /\ forallb is_key_char k = true
            /\ test_class is_csv_special k = false.
Proof.
  intros E Pl.
  assert (G : forall k, In k (keys r) ->
                        key_origin t k /\ forallb is_key_char k = true).
  { unfold parseMatchHtml in E.
    destruct (parseRows opts (trs t) _) as [out'|] eqn:R; cbn [bind] in E;
      [|discriminate].
    injection E as <-.
    eapply (parseRows_keys opts
              (fun k => key_origin t k /\ forallb is_key_char k = true));
      eauto.
    - intros c0 c1 I. split.
      + right. right. eauto.
      + apply normalizeKey_chars.
    - destruct (th t) as [text|]; [|intros k []].
      destruct (header_pattern_search (trim text));
        intros k [<-|[]]; (split; [|reflexivity]);
        [left | right; left]; reflexivity. }
  intros k I. destruct (G k I) as [O C].
  repeat split; auto. apply key_chars_not_special, C.
Qed.

End RecordKeys.

(* ================================================================== *)
(** * The name of the download is safe *)
(* ================================================================== *)



(* ================================================================== *)
(** * From one page to the next *)
(* ================================================================== *)

Lemma token_eqb_false a b : token_eqb a b = false -> a <> b.
Proof.
  destruct a as [x|], b as [y|]; simpl; try discriminate.
  intros E [= ->]. rewrite jseqb_refl in E. discriminate.
Qed.

Section NextPage.

Context {H : Host}.

(** X16.  The loop goes on to another page only with a non-empty token that
    differs from the one it has just used, after counting the page and
    waiting [cfg.delay] once; when it stops it does not wait. *)
Theorem page_round_next
  (fetch : nat -> FetchOutcome) (cfg : Config) (st : LoopState) (w : World)
  (c : Control) (w' : World) :
  page_round fetch cfg st w = Some (Ok c, w') ->
  exists json w1,
    safeFetch fetch (token_or_null (token st)) w = Some (Ok json, w1)
    /\ match c with
       | Continue st' =>
           (exists t, token st' = Some t /\ t <> [])
           /\ token st' <> token st
           /\ page st' = (page st + 1)%Z
           /\ w' = do_wait (delay cfg) w1
       | Break st' =>
           token st' = token st
           /\ page st' = (page st + 1)%Z
           /\ w' = w1
       end.
Proof.
  unfold page_round. cbn [token agg page].
  destruct (safeFetch fetch (token_or_null (token st)) w)
    as [[[[|json]|e] w1]|]; try discriminate.
  - intros [= <- <-]. do 2 eexists. split; [reflexivity|]. auto.
  - destruct (negb (success json)).
    { intros [= <- <-]. do 2 eexists. split; [reflexivity|]. auto. }
    destruct (aggregate _ _ _ _); [|discriminate].
    destruct (token_or_null (continue_token json)) as [t|] eqn:T.
    2:{ intros [= <- <-]. do 2 eexists. split; [reflexivity|]. auto. }
    destruct (token_eqb (Some t) (token st)) eqn:Q.
    { intros [= <- <-]. do 2 eexists. split; [reflexivity|]. auto. }
    intros [= <- <-]. do 2 eexists. split; [reflexivity|]. cbn [token page].
    repeat split; auto.
    + exists t. split; auto.
      unfold token_or_null in T.
      destruct (continue_token json) as [[|x y]|]; try discriminate.
      injection T as <-. discriminate.
    + apply token_eqb_false, Q.
Qed.

End NextPage.

(* ================================================================== *)
(** * The session id comes from the right cookie *)
(* ================================================================== *)

Lemma startsWith_app p r : startsWith p (p ++ r) = true.
Proof.
  induction p as [|c p IH]; [destruct r; reflexivity|].
  simpl. rewrite N.eqb_refl. exact IH.
Qed.

(** A name followed by its delimiter starts with a key followed by the
    delimiter only if it is the key. *)
Lemma startsWith_key x a :
  forall n rest,
    startsWith (a ++ [x]) (n ++ x :: rest) = true ->
    ~ In x a -> ~ In x n -> n = a.
Proof.
  induction a as [|y a IH]; intros [|c n] rest S Na Nn; auto.
  - exfalso. simpl in S. apply andb_true_iff in S; destruct S as [S _].
    apply N.eqb_eq in S. apply Nn. simpl. auto.
  - exfalso. simpl in S. apply andb_true_iff in S; destruct S as [S _].
    apply N.eqb_eq in S. apply Na. simpl. auto.
  - simpl in S. apply andb_true_iff in S; destruct S as [S S'].
    apply N.eqb_eq in S. subst c. f_equal.
    apply (IH n rest S'); intros I; [apply Na | apply Nn]; simpl; auto.
Qed.

Lemma take_while_entry v rest :
  forallb not_semicolon v = true -> ends_entry rest = true ->
  take_while not_semicolon (v ++ rest) = v.
Proof.
  intros V R. induction v as [|c v IH]; simpl.
  - destruct rest as [|c rest]; auto. cbn [ends_entry] in R.
    cbn [take_while]. unfold not_semicolon. rewrite R. reflexivity.
  - simpl in V. apply andb_true_iff in V; destruct V as [Vc Vv].
    rewrite Vc, IH; auto.
Qed.

Lemma sessionid_value_entry n v rest :
  cookie_ok (n, v) = true -> ends_entry rest = true ->
  sessionid_value_here (n ++ js "=" ++ v ++ rest)
  = if jseqb n (js "sessionid") && negb (jseqb v []) then Some v else None.
Proof.
  unfold cookie_ok. cbn [fst snd]. intros W R.
  apply andb_true_iff in W; destruct W as [Wn Wv].
  destruct (jseqb n (js "sessionid")) eqn:E.
  - apply jseqb_eq in E. subst n. unfold sessionid_value_here.
    change (js "sessionid" ++ js "=" ++ v ++ rest)
      with (js "sessionid=" ++ (v ++ rest)).
    rewrite startsWith_app.
    change (skipn 10 (js "sessionid=" ++ (v ++ rest))) with (v ++ rest).
    rewrite (take_while_entry _ _ Wv R).
    destruct v; reflexivity.
  - cbn [andb]. unfold sessionid_value_here.
    destruct (startsWith (js "sessionid=") (n ++ js "=" ++ v ++ rest)) eqn:S;
      auto.
    exfalso. apply jseqb_neq in E. apply E.
    change (js "sessionid=") with (js "sessionid" ++ [61%N]) in S.
    change (n ++ js "=" ++ v ++ rest) with (n ++ 61%N :: (v ++ rest)) in S.
    apply (startsWith_key _ _ _ _ S).
    + vm_compute. intuition discriminate.
    + intros I. rewrite forallb_forall in Wn. specialize (Wn _ I).
      rewrite N.eqb_refl in Wn. rewrite andb_false_r in Wn. discriminate.
Qed.

Lemma sessionid_after_separator_skip e s :
  forallb not_semicolon e = true ->
  sessionid_after_separator (e ++ s) = sessionid_after_separator s.
Proof.
  induction e as [|c e IH]; simpl; auto.
  intros E; apply andb_true_iff in E; destruct E as [Ec Ee].
  unfold not_semicolon in Ec. apply negb_true_iff in Ec. rewrite Ec. auto.
Qed.

Lemma sessionid_after_separator_step s :
  sessionid_after_separator (js "; " ++ s)
  = match sessionid_value_here s with
    | Some v => Some v
    | None => sessionid_after_separator s
    end.
Proof.
  change (js "; " ++ s) with (59%N :: 32%N :: s).
  cbn [sessionid_after_separator]. cbn [N.eqb Pos.eqb].
  destruct (sessionid_value_here s); reflexivity.
Qed.

Lemma cookie_entry_no_semicolon n v :
  cookie_ok (n, v) = true -> forallb not_semicolon (n ++ js "=" ++ v) = true.
Proof.
  unfold cookie_ok. cbn [fst snd]. intros W.
  apply andb_true_iff in W; destruct W as [Wn Wv].
  assert (Nn : forallb not_semicolon n = true).
  { rewrite forallb_forall in Wn |- *. intros c I. specialize (Wn c I).
    apply andb_true_iff in Wn. apply Wn. }
  rewrite forallb_app, Nn.
  change (js "=" ++ v) with (61%N :: v). cbn [forallb andb].
  rewrite Wv. reflexivity.
Qed.

(** On a well-formed cookie string the pattern finds the value of the first
    cookie that is named [sessionid] and is not empty. *)
Lemma cookie_match_jar jar :
  forallb cookie_ok jar = true ->
  cookie_match (cookie_string jar) = first_sessionid jar.
Proof.
  unfold cookie_match, cookie_string.
  induction jar as [|[n v] jar IH]; [reflexivity|].
  cbn [forallb]. intros W; apply andb_true_iff in W; destruct W as [Wp Wj].
  specialize (IH Wj). cbn [first_sessionid].
  pose proof (cookie_entry_no_semicolon _ _ Wp) as NS.
  destruct jar as [|q jar].
  - cbn [map join fst snd].
    pose proof (sessionid_value_entry n v [] Wp eq_refl) as E.
    rewrite !app_nil_r in E. rewrite E.
    destruct (jseqb n (js "sessionid") && negb (jseqb v [])); auto.
    rewrite <- (app_nil_r (n ++ js "=" ++ v)).
    rewrite (sessionid_after_separator_skip _ [] NS). reflexivity.
  - change (map (fun p => fst p ++ js "=" ++ snd p) ((n, v) :: q :: jar))
      with ((n ++ js "=" ++ v)
              :: map (fun p => fst p ++ js "=" ++ snd p) (q :: jar)).
    remember (map (fun p => fst p ++ js "=" ++ snd p) (q :: jar)) as l eqn:El.
    destruct l as [|x l]; [discriminate El|].
    change (join (js "; ") ((n ++ js "=" ++ v) :: x :: l))
      with ((n ++ js "=" ++ v) ++ js "; " ++ join (js "; ") (x :: l)).
    set (rest := join (js "; ") (x :: l)) in *.
    pose proof (sessionid_value_entry n v (js "; " ++ rest) Wp eq_refl) as E.
    replace ((n ++ js "=" ++ v) ++ js "; " ++ rest)
      with (n ++ js "=" ++ v ++ js "; " ++ rest)
      by (rewrite <- !app_assoc; reflexivity).
    rewrite E.
    destruct (jseqb n (js "sessionid") && negb (jseqb v [])); auto.
    replace (n ++ js "=" ++ v ++ js "; " ++ rest)
      with ((n ++ js "=" ++ v) ++ js "; " ++ rest)
      by (rewrite <- !app_assoc; reflexivity).
    rewrite (sessionid_after_separator_skip _ _ NS).
    rewrite sessionid_after_separator_step. exact IH.
Qed.

(** X17.  [getSessionID] prefers the page's own global; without it, on a
    well-formed cookie string, it returns the decoded value of the first
    cookie named exactly [sessionid] with a non-empty value - a cookie whose
    name only ends in [sessionid] is not taken - and [null] when there is
    none; a value that [decodeURIComponent] rejects makes it throw. *)
Theorem getSessionID_reads_cookie (decode : jsstring -> result jsstring) :
  (forall c s cookie,
      getSessionID (Some (c :: s)) cookie decode = Ok (Some (c :: s)))
  /\ (forall jar,
         forallb cookie_ok jar = true ->
         getSessionID None (cookie_string jar) decode
         = match first_sessionid jar with
           | Some v => (d <- decode v ;; Ok (Some d))
           | None => Ok None
           end).
Proof.
  split; [reflexivity|].
  intros jar W. unfold getSessionID. rewrite (cookie_match_jar _ W).
  reflexivity.
Qed.

(* ================================================================== *)
(** * The theorems at work on concrete inputs *)
(* ================================================================== *)

Lemma literal_host_laws : HostLaws literal_host.
Proof. constructor. intros s _. reflexivity. Qed.

#[local] Existing Instance literal_host.


Lemma normalizeKey_idempotent_witness :
  @normalizeKey literal_host
    (@normalizeKey literal_host (js "Match Creation-Time:"))
  = @normalizeKey literal_host (js "Match Creation-Time:").
Proof.
  apply (@normalizeKey_idempotent literal_host literal_host_laws).
Defined.

Lemma canonical_map_is_identity_witness :
  ToString (canonicalize CANONICAL_MAP (normalizeKey (js "Kills")))
  = normalizeKey (js "Kills").
Proof.
  apply (proj2 (proj2 (@canonical_map_is_identity literal_host))
           (js "Kills") (VStr (js "kills"))).
  reflexivity.
Defined.

Lemma parseValue_contract_witness :
  @parseValue literal_host (Some (js "-7"))
    {| parseDates := true; parseNumbers := true |}
  = Ok (VNum (@parseInt10 literal_host (js "-7"))).
Proof.
  apply (proj1 (proj2 (proj2 (proj2 (proj2
           (@parseValue_contract literal_host literal_host_laws)))))).
  - reflexivity.
  - reflexivity.
Defined.

Lemma esc_contract_witness :
  @esc literal_host (VStr (js "a,b"))
  = dquote
    ++ replace_each (N.eqb 34) (dquote ++ dquote)
         (@stringify literal_host (VStr (js "a,b")))
    ++ dquote
  /\ csv_unescape (@esc literal_host (VStr (js "a,b")))
     = Some (@stringify literal_host (VStr (js "a,b"))).
Proof.
  apply (proj1 (proj2 (proj2 (proj2 (@esc_contract literal_host)))
                 (VStr (js "a,b")) ltac:(discriminate) ltac:(discriminate))).
  reflexivity.
Defined.

Lemma safeFetch_fatal_after_five_retries_witness :
  safeFetch (fun _ => Responded 500 None) None start =
  Some (Throw (HttpError 500),
        {| calls := 6 + calls start;
           trace := trace start ++ backoff_trace None 0 5 ++ [Fetch None] |})
  /\ backoff_trace None 0 5 =
     [Fetch None; Wait 1000; Fetch None; Wait 2000; Fetch None; Wait 4000;
      Fetch None; Wait 8000; Fetch None; Wait 16000].
Proof.
  apply (safeFetch_fatal_after_five_retries (fun _ => Responded 500 None)).
  intros n. exists None. reflexivity.
Defined.

Lemma safeFetch_throttled_six_times_witness :
  safeFetch (fun _ => Responded 429 None) None start =
  Some (Throw Unreachable,
        {| calls := 6 + calls start;
           trace := trace start ++ backoff_trace None 0 6 |})
  /\ backoff_trace None 0 6 =
     [Fetch None; Wait 1000; Fetch None; Wait 2000; Fetch None; Wait 4000;
      Fetch None; Wait 8000; Fetch None; Wait 16000; Fetch None; Wait 32000].
Proof.
  apply (safeFetch_throttled_six_times (fun _ => Responded 429 None)).
  intros n. reflexivity.
Defined.

Lemma paging_stops_without_error_witness :
  exists s w',
    @gcpdFetchAndParseAll literal_host stalling_service default_cfg
    = Some (Ok s, w')
    /\ (pages s <= 3)%Z /\ Z.of_nat (calls w') = pages s
    /\ (token_or_null (continue_token (sample_page (Some (js "a")))) <> None ->
        token_or_null (continue_token (sample_page (Some (js "b")))) <> None ->
        token_or_null (continue_token (sample_page (Some (js "b"))))
        <> token_or_null (continue_token (sample_page (Some (js "a")))) ->
        pages s = 3%Z).
Proof.
  apply (proj2 (proj2 (@paging_stops_without_error literal_host
                         stalling_service default_cfg 0 initial start))
           (sample_page (Some (js "a"))) (sample_page (Some (js "b")))
           (sample_page (Some (js "b"))));
    try reflexivity.
  - cbn. lia.
  - intros a. eexists. reflexivity.
  - intros a. eexists. reflexivity.
  - intros a. eexists. reflexivity.
Defined.

Lemma dedupe_admits_at_most_one_witness :
  exists st w,
    @paging literal_host stalling_service default_cfg 5 initial start
    = Some (Ok st, w)
    /\ List.length (results (agg st)) = 1
    /\ (forall i j r1 r2,
           nth_error (results (agg st)) i = Some r1 ->
           nth_error (results (agg st)) j = Some r2 ->
           truthy (get r1 (js "match_id")) = true ->
           get r2 (js "match_id") = get r1 (js "match_id") ->
           i = j).
Proof.
  eexists. eexists. split; [vm_compute; reflexivity|].
  split; [reflexivity|].
  apply (proj1 (@dedupe_admits_at_most_one literal_host stalling_service
                  default_cfg 5 _ _ eq_refl eq_refl)).
Defined.


Lemma safeFetch_recovers_witness :
  safeFetch flaky_service None start =
  Some (Ok (JObject (sample_page None)),
        {| calls := 3 + calls start;
           trace := trace start
                    ++ [Fetch None; Wait 1000; Fetch None; Wait 2000]
                    ++ [Fetch None] |}).
Proof.
  apply (@safeFetch_recovers flaky_service None start 2 200
           (JObject (sample_page None))).
  - lia.
  - intros [|[|i]] I; [reflexivity | reflexivity | lia].
  - reflexivity.
  - reflexivity.
Defined.


Lemma parseValue_errors_witness :
  @parseValue literal_host (Some bad_date)
    {| parseDates := true; parseNumbers := true |}
  = Throw RangeError.
Proof.
  apply (proj2 (proj2 (@parseValue_errors literal_host
                         {| parseDates := true; parseNumbers := true |}))
           bad_date (js "2024-13-45") (js "99:99:99")).
  - reflexivity.
  - intros E. vm_compute in E. discriminate E.
  - intros E. vm_compute in E. discriminate E.
  - reflexivity.
  - vm_compute. reflexivity.
  - reflexivity.
Defined.

Lemma bad_cell_aborts_run_witness :
  @gcpdFetchAndParseAll literal_host (fun _ => ok_page bad_page) default_cfg
  = Some (Throw RangeError, do_fetch None start).
Proof.
  assert (B : Exists (fun t => Exists (bad_row (parse default_cfg)) (trs t))
                (json_html bad_page)).
  { apply Exists_cons_hd. apply Exists_cons_hd.
    exists (js "Created"), bad_date, RangeError. split; reflexivity. }
  apply (proj2 (@bad_cell_aborts_run literal_host (fun _ => ok_page bad_page)
                  default_cfg bad_page eq_refl B)).
  - cbn. lia.
  - reflexivity.
Defined.

Lemma aggregate_appends_witness :
  exists a',
    @aggregate literal_host true (parse default_cfg)
      (extractTablesFromHtml (json_html (sample_page None))) (agg initial)
    = Ok a'
    /\ exists more,
         results a' = results (agg initial) ++ more
         /\ List.length more <= 1
         /\ (true = false -> seen a' = seen (agg initial)
                             /\ List.length more = 1)
         /\ (forall k, In k (seen (agg initial)) -> In k (seen a')).
Proof.
  eexists. split; [vm_compute; reflexivity|].
  apply (@aggregate_appends literal_host true (parse default_cfg)
           (extractTablesFromHtml (json_html (sample_page None)))
           (agg initial) _ eq_refl).
Defined.

Lemma buildCsv_reads_back_witness :
  read_csv (csv (buildCsv sample_rows ORDERED_COLUMNS))
  = Some (headers (buildCsv sample_rows ORDERED_COLUMNS)
          :: map (fun row =>
                    map (fun h => text_of (get row h))
                      (headers (buildCsv sample_rows ORDERED_COLUMNS)))
               sample_rows).
Proof.
  apply (@buildCsv_reads_back literal_host sample_rows ORDERED_COLUMNS).
  - intros E. vm_compute in E. discriminate E.
  - apply Forall_forall. intros h I.
    assert (B : forallb (fun h => negb (test_class is_csv_special h)
                                  && negb (test_class is_cr h))
                  (headers (buildCsv sample_rows ORDERED_COLUMNS)) = true)
      by (vm_compute; reflexivity).
    rewrite forallb_forall in B. specialize (B h I).
    apply andb_true_iff in B. destruct B as [B1 B2].
    apply negb_true_iff in B1. apply negb_true_iff in B2. auto.
  - apply Forall_forall. intros row Ir. apply Forall_forall. intros h I.
    assert (B : forallb
                  (fun row =>
                     forallb (fun h => no_bare_cr (text_of (get row h)))
                       (headers (buildCsv sample_rows ORDERED_COLUMNS)))
                  sample_rows = true)
      by (vm_compute; reflexivity).
    rewrite forallb_forall in B. specialize (B row Ir).
    rewrite forallb_forall in B. exact (B h I).
Defined.

(** A carriage return alone does not make the escaper quote: the reader
    takes the one record for two. *)
Lemma bare_cr_splits_the_record :
  read_csv
    (csv (buildCsv [[(js "note", VStr (js "a" ++ [13%N] ++ js "b"))]]
            [js "note"]))
  = Some [[js "note"]; [js "a"]; [js "b"]].
Proof. vm_compute. reflexivity. Qed.

Lemma normalizeKey_insensitive_witness :
  @normalizeKey literal_host (js "  " ++ js "K/D Ratio" ++ js " ")
  = @normalizeKey literal_host (js "K/D Ratio").
Proof.
  apply (proj1 (proj2 (@normalizeKey_insensitive literal_host
                         literal_host_laws (js "K/D Ratio")))
           (js "  ") (js " ")).
  - reflexivity.
  - reflexivity.
Defined.

Lemma record_keys_are_normalised_labels_witness :
  exists r,
    @parseMatchHtml literal_host
      (Some {| th := Some (js "Match 100"); trs := [[js "Kills"; js "12"]] |})
      (parse default_cfg) = Ok (Some r)
    /\ forall k, In k (keys r) ->
                 key_origin
                   {| th := Some (js "Match 100");
                      trs := [[js "Kills"; js "12"]] |} k
                 /\ forallb is_key_char k = true
                 /\ test_class is_csv_special k = false.
Proof.
  eexists. split; [vm_compute; reflexivity|].
  apply (@record_keys_are_normalised_labels literal_host literal_host_laws
           {| th := Some (js "Match 100"); trs := [[js "Kills"; js "12"]] |}
           (parse default_cfg) _ eq_refl).
  intros c0 c1 [E|[]]. injection E as <- <-.
  split; intros E; vm_compute in E; discriminate E.
Defined.

Lemma page_round_next_witness :
  exists st' w',
    @page_round literal_host stalling_service default_cfg initial start
    = Some (Ok (Continue st'), w')
    /\ token st' = Some (js "a")
    /\ exists json w1,
         safeFetch stalling_service (token_or_null (token initial)) start
         = Some (Ok json, w1)
         /\ (exists t, token st' = Some t /\ t <> [])
         /\ token st' <> token initial
         /\ page st' = (page initial + 1)%Z
         /\ w' = do_wait (delay default_cfg) w1.
Proof.
  eexists. eexists. split; [vm_compute; reflexivity|].
  split; [reflexivity|].
  apply (@page_round_next literal_host stalling_service default_cfg initial
           start (Continue _) _ eq_refl).
Defined.

Lemma getSessionID_reads_cookie_witness :
  cookie_string sample_jar = js "_ga=GA1.2; xsessionid=nope; sessionid=abc123"
  /\ getSessionID None (cookie_string sample_jar) (fun v => Ok v)
     = Ok (Some (js "abc123")).
Proof.
  split; [reflexivity|].
  apply (proj2 (getSessionID_reads_cookie (fun v => Ok v)) sample_jar eq_refl).
Defined.

Lemma paging_raises_on_bad_cell_witness :
  exists w,
    @gcpdFetchAndParseAll literal_host stalling_bad_service default_cfg
    = Some (Throw RangeError, w)
    /\ calls w = 3.
Proof.
  assert (B : Exists (fun t => Exists (bad_row (parse default_cfg)) (trs t))
                (json_html bad_page_repeating)).
  { apply Exists_cons_hd. apply Exists_cons_hd.
    exists (js "Created"), bad_date, RangeError. split; reflexivity. }
  apply (proj2 (@paging_raises_on_bad_cell literal_host stalling_bad_service
                  default_cfg bad_page_repeating eq_refl B)
           (sample_page (Some (js "a"))) (sample_page (Some (js "b"))));
    try reflexivity;
    try (cbn; lia);
    try (intros a; eexists; reflexivity);
    intros E; vm_compute in E; discriminate E.
Defined.

Lemma last_row_gives_the_value_witness :
  exists r,
    @parseMatchHtml literal_host (Some twice_table) (parse default_cfg)
    = Ok (Some r)
    /\ get r (js "kills") = VNum (js "12")
    /\ @parseValue literal_host (Some (trim (js "12"))) (parse default_cfg)
       = Ok (get r (field_name (js "Kills"))).
Proof.
  eexists. split; [vm_compute; reflexivity|]. split; [reflexivity|].
  apply (proj1 (@last_row_gives_the_value literal_host twice_table
                  (parse default_cfg) _ eq_refl)
           [[js "Kills"; js "3"]] (js "Kills") (js "12")
           [[js "Match ID"; js "No"]] eq_refl).
  intros d0 d1 [E|[]]. injection E as <- <-.
  intros E. vm_compute in E. discriminate E.
Defined.
